(** * Region clipping of Overture places and GTFS stops

    A shallow embedding of [src/collection/poi_overture.py] and
    [src/preparation/public_transport_stop.py].  The Python drivers thread
    a database connection through a sequence of SQL statements; the
    statements are embedded as list functions over the tables they read,
    the drivers as state-passing functions returning either a value or the
    exception they raise.  The spatial database and the dataframe engine
    are external: their primitives appear as an interface. *)

From stdpp Require Import prelude strings gmap sorting.
From Stdlib Require Import Ascii.

Set Warnings "-register-all,-clear-no-such-hyp".
Local Open Scope Z_scope.

(** ** JSON values and the PostgreSQL JSON operators *)

Module Json.

Inductive json :=
| JNull
| JString (s : string)
| JNumber (n : Z)
| JArray (items : list json)
| JObject (fields : list (string * json)).

(** Key lookup in a JSON object. *)
Fixpoint assoc (k : string) (fields : list (string * json)) : option json :=
  match fields with
  | [] => None
  | (k', v) :: rest => if String.eqb k k' then Some v else assoc k rest
  end.

(** [j -> 'k']: SQL NULL ([None]) when [j] is not an object or lacks [k]. *)
Definition field (k : string) (j : json) : option json :=
  match j with
  | JObject fields => assoc k fields
  | _ => None
  end.

(** [j -> i] on a JSON array. *)
Definition index (i : nat) (j : json) : option json :=
  match j with
  | JArray items => items !! i
  | _ => None
  end.

(** SQL text to JSON, as [json_build_object] and [ARRAY_AGG] store it:
    SQL NULL becomes JSON null. *)
Definition of_text (t : option string) : json :=
  match t with
  | Some s => JString s
  | None => JNull
  end.

End Json.
Export Json.

(** ** The external engines

    The geometry type, the spatial predicate and the textual rendering of a
    JSON value belong to PostGIS/PostgreSQL, not to this repository. *)

Class Engine := {
  geometry : Type;
  ST_Intersects : geometry → geometry → bool;
  ST_GeomFromText : string → option geometry;
  jsonb_out : json → string;
}.

Section JsonText.
Context `{Engine}.

(** The text of a JSON value as [->>] returns it: JSON null is SQL NULL,
    a JSON string is its content, anything else is rendered. *)
Definition as_text (j : json) : option string :=
  match j with
  | JNull => None
  | JString s => Some s
  | other => Some (jsonb_out other)
  end.

(** [j ->> 'k']. *)
Definition field_text (k : string) (j : json) : option string :=
  field k j ≫= as_text.

(** [(j ->> 'k')::integer] for the numbers [json_build_object] stored. *)
Definition field_integer (k : string) (j : json) : option Z :=
  match field k j with
  | Some (JNumber n) => Some n
  | _ => None
  end.

(** [jsonb_array_elements_text(j)]: one text per element, none for
    SQL NULL. *)
Definition jsonb_array_elements_text (j : option json) : list (option string) :=
  match j with
  | Some (JArray items) => as_text <$> items
  | _ => []
  end.
End JsonText.

(** ** Relational operators *)

Module Sql.

Section Relational.
Context {A K : Type} `{EqDecision K}.

(** [GROUP BY key]: one group per distinct key, holding the rows that
    carry it. *)
Definition group_by (key : A → K) (rows : list A) : list (K * list A) :=
  (λ k, (k, filter (λ row, key row = k) rows)) <$> remove_dups (key <$> rows).

(** [SELECT DISTINCT ON (key)]: the first row met for each key. *)
Fixpoint distinct_on_from (seen : list K) (key : A → K) (rows : list A) : list A :=
  match rows with
  | [] => []
  | row :: rest =>
      if decide (key row ∈ seen) then distinct_on_from seen key rest
      else row :: distinct_on_from (key row :: seen) key rest
  end.

Definition distinct_on (key : A → K) (rows : list A) : list A :=
  distinct_on_from [] key rows.

(** [l LEFT JOIN r ON p]: every left row survives, padded with NULL when
    nothing on the right matches. *)
Definition left_join {B : Type} (p : A → B → bool) (l : list A) (r : list B)
  : list (A * option B) :=
  a ← l;
  match List.filter (p a) r with
  | [] => [(a, None)]
  | matches => (λ b, (a, Some b)) <$> matches
  end.
End Relational.

(** [x IN (k1, ..., kn)] is never true of NULL. *)
Definition in_list (x : option Z) (keys : list Z) : Prop :=
  match x with
  | Some z => z ∈ keys
  | None => False
  end.

#[global] Instance in_list_dec x keys : Decision (in_list x keys).
Proof. destruct x; simpl; apply _. Defined.

(** [string_to_array(s, ',')]: the pieces of [s] between commas; the empty
    string has no piece. *)
Fixpoint split_on (sep : ascii) (s : string) : list string :=
  match s with
  | EmptyString => [EmptyString]
  | String c rest =>
      if Ascii.eqb c sep then EmptyString :: split_on sep rest
      else match split_on sep rest with
           | piece :: pieces => String c piece :: pieces
           | [] => [String c EmptyString]
           end
  end.

Definition string_to_array (s : string) (sep : ascii) : list string :=
  match s with
  | EmptyString => []
  | _ => split_on sep s
  end.

End Sql.

(** ** The regular expressions of the address split

    [substring(text from pattern)] with the constructs the two patterns of
    [clip_poi_overture] use.  The first parenthesised group is what
    [substring] returns. *)

Module Regex.

Inductive regex :=
| Bol                              (* ^ *)
| Eol                              (* $ *)
| Class (p : ascii → bool)         (* one character: . \s \d *)
| Star (p : ascii → bool)          (* greedy repetition of one character *)
| Ahead (r : regex)                (* (?=r) *)
| Capture (r : regex)              (* (r) *)
| Cat (r1 r2 : regex).

(** A position in the subject: the characters already passed, most recent
    first, the characters ahead, and the text of the group once closed. *)
Record cursor := {
  passed : list ascii;
  ahead : string;
  group : option string;
}.

Fixpoint string_of_rev (cs : list ascii) (acc : string) : string :=
  match cs with
  | [] => acc
  | c :: cs' => string_of_rev cs' (String c acc)
  end.

(** The text between two positions of the same subject. *)
Definition between (from to : cursor) : string :=
  string_of_rev (take (length (passed to) - length (passed from)) (passed to)) "".

(** Greedy repetition: the longest run first, shorter ones on failure. *)
Fixpoint star {R} (p : ascii → bool) (passed : list ascii) (ahead : string)
    (grp : option string) (k : cursor → option R) : option R :=
  let here := {| passed := passed; ahead := ahead; group := grp |} in
  match ahead with
  | String c rest =>
      if p c then
        match star p (c :: passed) rest grp k with
        | Some r => Some r
        | None => k here
        end
      else k here
  | EmptyString => k here
  end.

(** Backtracking match of [r] at [pos], continuing with [k]. *)
Fixpoint matches {R} (r : regex) (pos : cursor) (k : cursor → option R) : option R :=
  match r with
  | Bol => match passed pos with [] => k pos | _ => None end
  | Eol => match ahead pos with EmptyString => k pos | _ => None end
  | Class p =>
      match ahead pos with
      | String c rest =>
          if p c then k {| passed := c :: passed pos; ahead := rest; group := group pos |}
          else None
      | EmptyString => None
      end
  | Star p => star p (passed pos) (ahead pos) (group pos) k
  | Ahead r' =>
      match matches r' pos Some with
      | Some _ => k pos
      | None => None
      end
  | Capture r' =>
      matches r' pos (λ pos',
        k {| passed := passed pos'; ahead := ahead pos';
             group := Some (between pos pos') |})
  | Cat r1 r2 => matches r1 pos (λ pos', matches r2 pos' k)
  end.

(** The leftmost match: start positions are tried from the left. *)
Fixpoint search (r : regex) (passed : list ascii) (ahead : string) : option cursor :=
  match matches r {| passed := passed; ahead := ahead; group := None |} Some with
  | Some found => Some found
  | None =>
      match ahead with
      | String c rest => search r (c :: passed) rest
      | EmptyString => None
      end
  end.

(** [substring(s from r)] for a pattern with a group; SQL NULL without a
    match. *)
Definition substring (s : string) (r : regex) : option string :=
  search r [] s ≫= group.

(** The character classes of PostgreSQL's advanced regular expressions. *)
Definition any (c : ascii) : bool := true.
Definition space (c : ascii) : bool :=
  let n := nat_of_ascii c in
  bool_decide (n = 32 ∨ 9 ≤ n ≤ 13)%nat.
Definition digit (c : ascii) : bool :=
  let n := nat_of_ascii c in
  bool_decide (48 ≤ n ≤ 57)%nat.

(** The street pattern: [^], a group holding [.] starred, then a
    lookahead for [\s\d]. *)
Definition street_pattern : regex :=
  Cat Bol (Cat (Capture (Star any)) (Ahead (Cat (Class space) (Class digit)))).

(** The house-number pattern: a group holding [\s\d] and [.] starred,
    then [$]. *)
Definition housenumber_pattern : regex :=
  Cat (Capture (Cat (Class space) (Cat (Class digit) (Star any)))) Eol.

(** A whitespace character that a digit follows starts here. *)
Definition at_boundary (s : string) : bool :=
  match s with
  | String a (String b _) => space a && digit b
  | _ => false
  end.

(** The split as the specification words it: at the first whitespace that
    a digit follows, into the text before it and the text from it on. *)
Fixpoint split_at_first_boundary (s : string) : option (string * string) :=
  match s with
  | EmptyString => None
  | String c rest =>
      if at_boundary s then Some (EmptyString, s)
      else (λ halves : string * string, (String c halves.1, halves.2))
             <$> split_at_first_boundary rest
  end.

(** The same at the last such whitespace. *)
Fixpoint split_at_last_boundary (s : string) : option (string * string) :=
  match s with
  | EmptyString => None
  | String c rest =>
      match split_at_last_boundary rest with
      | Some halves => Some (String c halves.1, halves.2)
      | None => if at_boundary s then Some (EmptyString, s) else None
      end
  end.

(** The characters of [s] pushed on [passed], as a match walks over them. *)
Fixpoint walk (s : string) (passed : list ascii) : list ascii :=
  match s with
  | EmptyString => passed
  | String c rest => walk rest (c :: passed)
  end.

(** [TRIM(s)]: spaces removed at both ends. *)
Fixpoint ltrim (c : ascii) (s : string) : string :=
  match s with
  | String c' rest => if Ascii.eqb c' c then ltrim c rest else s
  | EmptyString => EmptyString
  end.

Fixpoint rtrim (c : ascii) (s : string) : string :=
  match s with
  | String c' rest =>
      match rtrim c rest with
      | EmptyString => if Ascii.eqb c' c then EmptyString else String c' EmptyString
      | kept => String c' kept
      end
  | EmptyString => EmptyString
  end.

(** [TRIM(BOTH c FROM s)]. *)
Definition trim_both (c : ascii) (s : string) : string := rtrim c (ltrim c s).

Definition trim (s : string) : string := trim_both " "%char s.

End Regex.

(** ** Shapes of the extracted texts *)

(** [s] neither begins nor ends with the character [c]. *)
Definition trimmed (c : ascii) (s : string) : Prop :=
  (∀ rest, s ≠ String c rest) ∧ (∀ init, s ≠ init +:+ String c EmptyString).

(** ** Python control flow: exceptions over a threaded state *)

Module Driver.

Inductive exn :=
| AnalysisException (column : string)   (* Spark cannot resolve a column *)
| UniqueViolation (table : string)      (* a key constraint is violated *)
| SyntaxError                           (* the statement text is malformed *)
| InFailedSqlTransaction                (* statement in an aborted transaction *)
| OperationalError (code : nat).        (* any other failure of an engine *)

Inductive outcome (A : Type) :=
| Return (a : A)
| Raise (e : exn).
Arguments Return {A} a.
Arguments Raise {A} e.

(** A computation over the state [St] that returns or raises. *)
Definition M (St A : Type) : Type := St → outcome A * St.

Definition ret {St A} (a : A) : M St A := λ s, (Return a, s).

Definition bind {St A B} (m : M St A) (k : A → M St B) : M St B :=
  λ s, match m s with
       | (Return a, s') => k a s'
       | (Raise e, s') => (Raise e, s')
       end.

Definition raise {St A} (e : exn) : M St A := λ s, (Raise e, s).

Definition gets {St A} (f : St → A) : M St A := λ s, (Return (f s), s).

(** A computation that may raise but has no state of its own. *)
Definition lift {St A} (o : outcome A) : M St A := λ s, (o, s).

Definition modify {St} (f : St → St) : M St unit := λ s, (Return (), f s).

(** [try: body except Exception as e: handler(e)] *)
Definition try_except {St A} (body : M St A) (handler : exn → M St A) : M St A :=
  λ s, match body s with
       | (Raise e, s') => handler e s'
       | returned => returned
       end.

(** [try: body finally: cleanup]: the cleanup always runs; the outcome of
    the body stands unless the cleanup itself raises. *)
Definition try_finally {St A} (body : M St A) (cleanup : M St unit) : M St A :=
  λ s, match body s with
       | (result, s') =>
           match cleanup s' with
           | (Return _, s'') => (result, s'')
           | (Raise e, s'') => (Raise e, s'')
           end
       end.

(** [for index, x in enumerate(xs, start): body(index, x)] *)
Fixpoint for_each {St B} (body : nat → B → M St unit) (start : nat) (xs : list B)
    : M St unit :=
  match xs with
  | [] => ret ()
  | x :: rest => bind (body start x) (λ _, for_each body (S start) rest)
  end.

End Driver.
Export Driver.

#[global] Instance outcome_ret : MRet outcome := @Return.
#[global] Instance outcome_bind : MBind outcome :=
  λ A B k m, match m with
             | Return a => k a
             | Raise e => Raise e
             end.
#[global] Instance M_ret {St} : MRet (M St) := @Driver.ret St.
#[global] Instance M_bind {St} : MBind (M St) := λ A B k m, Driver.bind m k.

(** ** A database connection *)

Module Connection.

Section Connection.
Context {D : Type}.

(** Modelled from the spec: the [Database] wrapper of [src/db/db.py] and
    the driver connection under it are not part of the sources.  A
    connection holds the committed tables and the tables as the open
    transaction sees them; [perform] executes one statement and commits it,
    letting a failure of the statement propagate; [close] ends the
    connection. *)
Record connection := {
  committed : D;
  pending : D;
  failed : bool;
  closed : bool;
}.

Definition connect (tables : D) : connection :=
  {| committed := tables; pending := tables; failed := false; closed := false |}.

(** [cursor.execute(stmt)]: the statement is a function on the tables
    that may raise; a failed statement changes nothing and leaves the
    transaction aborted. *)
Definition execute (stmt : D → outcome D) : M connection unit :=
  λ c, if failed c then (Raise InFailedSqlTransaction, c)
       else match stmt (pending c) with
            | Return d => (Return (), {| committed := committed c; pending := d;
                                        failed := false; closed := closed c |})
            | Raise e => (Raise e, {| committed := committed c; pending := pending c;
                                     failed := true; closed := closed c |})
            end.

(** [conn.commit()]: an aborted transaction commits nothing. *)
Definition commit : M connection unit :=
  modify (λ c, let d := if failed c then committed c else pending c in
               {| committed := d; pending := d; failed := false; closed := closed c |}).

(** [conn.rollback()] *)
Definition rollback : M connection unit :=
  modify (λ c, {| committed := committed c; pending := committed c;
                  failed := false; closed := closed c |}).

(** [db.perform(stmt)] *)
Definition perform (stmt : D → outcome D) : M connection unit :=
  execute stmt;; commit.

(** [db.close()] / [db.conn.close()] *)
Definition close : M connection unit :=
  modify (λ c, {| committed := committed c; pending := committed c;
                  failed := false; closed := true |}).
End Connection.
Arguments connection D : clear implicits.

End Connection.

(** ** The progress log *)

Inductive entry :=
| info (message : string)              (* [print_info(message)] *)
| progress (index total : nat)         (* the per-polygon [print_info] *)
| printed (e : exn)                    (* [print(f"An error occurred: {e}")] *)
| error (e : exn).                     (* [print_error(e)] *)

(** ** Overture places: [OverturePOICollection] *)

Module Places.

(** *** The region filter on the Spark dataframe *)

(** What Spark and Sedona supply: the cells of a row, doubles and their
    comparison, access to a field of a struct of doubles (SQL NULL when the
    struct or the field is NULL) and the three column functions used. *)
Class Spark := {
  value : Type;
  number : Type;
  less : number → number → bool;
  struct_field : string → value → option number;
  to_json : value → value;
  cast_timestamp : value → value;
  ST_AsText : value → value;
}.

Section RegionFilter.
Context `{Spark}.

Abbreviation Row := (gmap string value).

Record DataFrame := {
  columns : list string;
  rows : list Row;
}.

(** The expressions [selectExpr] is given: a column, or
    [ST_AsText(source) AS alias]. *)
Inductive expression :=
| column (name : string)
| as_text_as (source alias : string).

#[global] Instance expression_eq_dec : EqDecision expression.
Proof. solve_decision. Defined.

Definition referenced (e : expression) : string :=
  match e with
  | column name => name
  | as_text_as source _ => source
  end.

Definition output_name (e : expression) : string :=
  match e with
  | column name => name
  | as_text_as _ alias => alias
  end.

Definition evaluate (e : expression) (r : Row) : option value :=
  match e with
  | column name => r !! name
  | as_text_as source _ => ST_AsText <$> r !! source
  end.

(** [df.selectExpr(...)]: the expressions are resolved against the
    columns of [df] when the dataframe is built. *)
Definition selectExpr (df : DataFrame) (es : list expression) : outcome DataFrame :=
  match List.find (λ e, bool_decide (referenced e ∉ columns df)) es with
  | Some e => Raise (AnalysisException (referenced e))
  | None =>
      Return {| columns := output_name <$> es;
                rows := (λ r, list_to_map
                           (omap (λ e, (λ v, (output_name e, v)) <$> evaluate e r) es))
                        <$> rows df |}
  end.

(** [df.drop(column)] *)
Definition drop (name : string) (df : DataFrame) : DataFrame :=
  {| columns := filter (λ c, c ≠ name) (columns df);
     rows := delete name <$> rows df |}.

(** The cell [name] of a row replaced by [f] of it. *)
Definition with_cell (name : string) (f : value → value) (r : Row) : Row :=
  match r !! name with
  | Some v => <[name := f v]> r
  | None => r
  end.

(** [df.withColumn(name, f(col(name)))]: the column is replaced where it
    stands. *)
Definition withColumn (name : string) (f : value → value) (df : DataFrame)
  : outcome DataFrame :=
  if decide (name ∈ columns df)
  then Return {| columns := columns df; rows := with_cell name f <$> rows df |}
  else Raise (AnalysisException name).

(** [bbox_coords], as [get_region_bbox_coords] returns it. *)
Record bbox_coords := {
  xmin : number;
  ymin : number;
  xmax : number;
  ymax : number;
}.

(** SQL comparison and conjunction: NULL is [None]. *)
Definition gt (x : option number) (y : number) : option bool :=
  (λ a, less y a) <$> x.
Definition lt (x : option number) (y : number) : option bool :=
  (λ a, less a y) <$> x.
Definition and3 (a b : option bool) : option bool :=
  match a, b with
  | Some false, _ | _, Some false => Some false
  | Some true, Some true => Some true
  | _, _ => None
  end.

(** The filter condition on the [bbox] column. *)
Definition inside (box : bbox_coords) (r : Row) : option bool :=
  let bbox := r !! "bbox" in
  and3 (and3 (and3 (gt (bbox ≫= struct_field "minx") (xmin box))
                   (gt (bbox ≫= struct_field "miny") (ymin box)))
             (lt (bbox ≫= struct_field "maxx") (xmax box)))
       (lt (bbox ≫= struct_field "maxy") (ymax box)).

(** [df.filter(condition)] keeps the rows on which the condition is
    true. *)
Definition filter_rows (condition : Row → option bool) (df : DataFrame) : DataFrame :=
  {| columns := columns df;
     rows := filter (λ r, condition r = Some true) (rows df) |}.

Definition selected : list expression :=
  [column "id"; column "updatetime"; column "version"; column "names";
   column "categories"; column "confidence"; column "websites";
   column "socials"; column "emails"; column "phones"; column "brand";
   column "addresses"; column "sources";
   as_text_as "geometry" "geometry"; column "bbox"].

Definition complex_columns : list string :=
  ["updatetime"; "names"; "categories"; "brand"; "addresses"; "sources";
   "websites"; "socials"; "emails"; "phones"].

(** [filter_region_places]: the projection is bound to [places] and only
    its [bbox] column is used, in a filter of [places_df] itself.  Columns
    have names but no types here: the analysis error of a column missing
    from the source is modelled, the errors of a [bbox] without one of its
    four fields or of a column that [to_json], the cast or [ST_AsText]
    refuse are not. *)
Definition filter_region_places (places_df : DataFrame) (box : bbox_coords)
  : outcome DataFrame :=
  places ← selectExpr places_df selected;
  let places := filter_rows (inside box) places_df in
  let places := drop "bbox" places in
  places ← foldl (λ acc column_name,
                    places ← acc;
                    if decide (column_name = "updatetime")
                    then withColumn column_name cast_timestamp places
                    else withColumn column_name to_json places)
                 (Return places) complex_columns;
  withColumn "geometry" ST_AsText places.

(** What the steps after the filter do to one row. *)
Definition convert_row (r : Row) : Row :=
  with_cell "geometry" ST_AsText
    (foldl (λ converted column_name,
              with_cell column_name
                (if decide (column_name = "updatetime") then cast_timestamp else to_json)
                converted)
       (delete "bbox" r) complex_columns).


(** The four comparisons of the condition hold of the row's box. *)
Definition strictly_inside (box : bbox_coords) (r : Row) : Prop :=
  ∃ bbox minx miny maxx maxy,
    r !! "bbox" = Some bbox
    ∧ struct_field "minx" bbox = Some minx ∧ struct_field "miny" bbox = Some miny
    ∧ struct_field "maxx" bbox = Some maxx ∧ struct_field "maxy" bbox = Some maxy
    ∧ less (xmin box) minx = true ∧ less (ymin box) miny = true
    ∧ less maxx (xmax box) = true ∧ less maxy (ymax box) = true.

(** A side of the row's box lies on the same side of the target box. *)
Definition on_boundary (box : bbox_coords) (r : Row) : Prop :=
  ∃ bbox, r !! "bbox" = Some bbox
    ∧ (struct_field "minx" bbox = Some (xmin box)
       ∨ struct_field "miny" bbox = Some (ymin box)
       ∨ struct_field "maxx" bbox = Some (xmax box)
       ∨ struct_field "maxy" bbox = Some (ymax box)).

End RegionFilter.

(** *** The tables and the statements of [alter_tables] *)

Section Statements.
Context `{Engine}.

(** A row of [temporal.places_<region>_raw_no_geom] ([G] is WKT text) and
    of [temporal.places_<region>_raw] ([G] is a geometry).  The columns
    bear the names of the table columns behind the prefix [r_]; a text
    column filled by [to_json] is held as the JSON value it spells, the
    columns that are only carried along as their text. *)
Record raw (G : Type) := {
  r_id : string;
  r_categories : option json;
  r_updatetime : option string;
  r_version : option Z;
  r_names : option json;
  r_confidence : option string;
  r_websites : option string;
  r_socials : option string;
  r_emails : option string;
  r_phones : option string;
  r_brand : option json;
  r_addresses : option json;
  r_sources : option string;
  r_geometry : G;
}.
Arguments r_id {G}. Arguments r_categories {G}. Arguments r_updatetime {G}.
Arguments r_version {G}. Arguments r_names {G}. Arguments r_confidence {G}.
Arguments r_websites {G}. Arguments r_socials {G}. Arguments r_emails {G}.
Arguments r_phones {G}. Arguments r_brand {G}. Arguments r_addresses {G}.
Arguments r_sources {G}. Arguments r_geometry {G}.

(** A row of [temporal.places_<region>]. *)
Record place := {
  p_id : string;
  p_names : option string;
  p_other_categories : list string;
  p_categories : option string;
  p_street : option string;
  p_housenumber : option string;
  p_zipcode : option string;
  p_brand : option string;
  p_carried : raw geometry;
}.

Record tables := {
  places_raw_no_geom : list (raw string);
  places_raw : list (raw geometry);
  places : list place;
  places_pkey : bool;
}.

Definition dquote : ascii := ascii_of_nat 34.

(** [addresses::jsonb -> 0 ->> 'freeform'] *)
Definition freeform (addresses : option json) : option string :=
  (addresses ≫= index 0%nat) ≫= field_text "freeform".

(** The two halves of the address split. *)
Definition street (address : option string) : option string :=
  Regex.trim <$> (address ≫= λ a, Regex.substring a Regex.street_pattern).

Definition housenumber (address : option string) : option string :=
  Regex.trim <$> (address ≫= λ a, Regex.substring a Regex.housenumber_pattern).

(** The [CASE] computing [other_categories]. *)
Definition other_categories (categories : option json) : list string :=
  let alternate i := ((categories ≫= field "alternate") ≫= index i) ≫= as_text in
  if bool_decide (is_Some (alternate 0%nat) ∨ is_Some (alternate 1%nat))
  then filter (λ c, c ≠ "") (omap id [alternate 0%nat; alternate 1%nat])
  else [].

(** The select list of [clip_poi_overture] on one row of [new_pois]. *)
Definition extract (np : raw geometry) : place :=
  {| p_id := r_id np;
     p_names := (λ v, Regex.trim_both dquote (jsonb_out v)) <$>
                  (((r_names np ≫= field "common") ≫= index 0%nat) ≫= field "value");
     p_other_categories := other_categories (r_categories np);
     p_categories := Regex.trim_both dquote <$> (r_categories np ≫= field_text "main");
     p_street := street (freeform (r_addresses np));
     p_housenumber := housenumber (freeform (r_addresses np));
     p_zipcode := (r_addresses np ≫= index 0%nat) ≫= field_text "postcode";
     p_brand := (((r_brand np ≫= field "names") ≫= field "common") ≫= index 0%nat)
                  ≫= field_text "value";
     p_carried := np |}.

(** The CTE [new_pois] for the polygon [g]. *)
Definition new_pois (raws : list (raw geometry)) (g : geometry) : list (raw geometry) :=
  Sql.distinct_on r_id
    (filter (λ p, ST_Intersects (r_geometry p) g = true) raws).

(** The rows [clip_poi_overture] inserts for the polygon [g]. *)
Definition clip_poi_overture (raws : list (raw geometry)) (g : geometry) : list place :=
  extract <$> new_pois raws g.

(** The statements, as functions on the tables. *)
Inductive statement :=
| sql_create_table_places
| create_table_with_geom_sql
| create_place_table_sql
| clip_poi_overture_sql (index : nat) (g : geometry)
| convert_to_regular_table_sql.

Definition with_geometry (r : raw string) : option (raw geometry) :=
  (λ g, {| r_id := r_id r; r_categories := r_categories r;
           r_updatetime := r_updatetime r; r_version := r_version r;
           r_names := r_names r; r_confidence := r_confidence r;
           r_websites := r_websites r; r_socials := r_socials r;
           r_emails := r_emails r; r_phones := r_phones r;
           r_brand := r_brand r; r_addresses := r_addresses r;
           r_sources := r_sources r; r_geometry := g |})
  <$> ST_GeomFromText (r_geometry r).

Definition effect (stmt : statement) (t : tables) : outcome tables :=
  match stmt with
  | sql_create_table_places =>
      Return {| places_raw_no_geom := []; places_raw := places_raw t;
                places := places t; places_pkey := places_pkey t |}
  | create_table_with_geom_sql =>
      match mapM with_geometry (places_raw_no_geom t) with
      | Some converted =>
          Return {| places_raw_no_geom := places_raw_no_geom t;
                    places_raw := converted;
                    places := places t; places_pkey := places_pkey t |}
      | None => Raise (OperationalError 0)
      end
  | create_place_table_sql =>
      Return {| places_raw_no_geom := places_raw_no_geom t;
                places_raw := places_raw t;
                places := []; places_pkey := false |}
  | clip_poi_overture_sql _ g =>
      let inserted := places t ++ clip_poi_overture (places_raw t) g in
      if bool_decide (places_pkey t = true ∧ ¬ NoDup (p_id <$> inserted))
      then Raise (UniqueViolation "places")
      else Return {| places_raw_no_geom := places_raw_no_geom t;
                     places_raw := places_raw t;
                     places := inserted; places_pkey := places_pkey t |}
  | convert_to_regular_table_sql =>
      if decide (NoDup (p_id <$> places t))
      then Return {| places_raw_no_geom := places_raw_no_geom t;
                     places_raw := places_raw t;
                     places := places t; places_pkey := true |}
      else Raise (UniqueViolation "places")
  end.
End Statements.
Arguments r_id {G}. Arguments r_categories {G}. Arguments r_updatetime {G}.
Arguments r_version {G}. Arguments r_names {G}. Arguments r_confidence {G}.
Arguments r_websites {G}. Arguments r_socials {G}. Arguments r_emails {G}.
Arguments r_phones {G}. Arguments r_brand {G}. Arguments r_addresses {G}.
Arguments r_sources {G}. Arguments r_geometry {G}.

(** *** The driver: [alter_tables], [run] and [collect_poi_overture] *)

Section Collection.
Context `{Engine} `{Spark}.

(** Both connections, the log, and the statements sent to the local
    database so far (most recent last). *)
Record session := {
  db_local : Connection.connection tables;
  db_remote : Connection.connection unit;
  log : list entry;
  issued : list statement;
}.

(** Modelled from the spec: [OvertureBaseCollection], the helpers of
    [src/utils] and the configuration are not part of the sources.  The
    steps of [run] they implement are taken as they are described: each
    may fail; the source reader yields the dataframe, the bulk loader
    writes a dataframe to the staging table, the region query yields the
    polygons of the region. *)
Record Base := {
  initialize_sedona_context : outcome unit;
  initialize_jdbc_properties : outcome unit;
  load_geoparquet : outcome DataFrame;
  get_region_bbox_coords : tables → outcome bbox_coords;
  fetch_data : DataFrame → tables → outcome tables;
  region : tables → outcome (list geometry);
  (* whether the database fails on a statement for a reason of its own *)
  fault : statement → option exn;
}.

Context (base : Base).

Definition print_info (message : string) : M session unit :=
  modify (λ s, {| db_local := db_local s; db_remote := db_remote s;
                  log := log s ++ [info message]; issued := issued s |}).

Definition write_log (e : entry) : M session unit :=
  modify (λ s, {| db_local := db_local s; db_remote := db_remote s;
                  log := log s ++ [e]; issued := issued s |}).

(** An operation on the local connection. *)
Definition on_local {A} (m : M (Connection.connection tables) A) : M session A :=
  λ s, match m (db_local s) with
       | (result, c) => (result, {| db_local := c; db_remote := db_remote s;
                                    log := log s; issued := issued s |})
       end.

Definition on_remote {A} (m : M (Connection.connection unit) A) : M session A :=
  λ s, match m (db_remote s) with
       | (result, c) => (result, {| db_local := db_local s; db_remote := c;
                                    log := log s; issued := issued s |})
       end.

(** What the database does with a statement. *)
Definition run_statement (stmt : statement) (t : tables) : outcome tables :=
  match fault base stmt with
  | Some e => Raise e
  | None => effect stmt t
  end.

Definition send (stmt : statement) : M session unit :=
  modify (λ s, {| db_local := db_local s; db_remote := db_remote s;
                  log := log s; issued := issued s ++ [stmt] |}).

(** [self.db_local.perform(stmt)] and [cur.execute(stmt)] *)
Definition perform (stmt : statement) : M session unit :=
  send stmt;; on_local (Connection.perform (run_statement stmt)).

Definition execute (stmt : statement) : M session unit :=
  send stmt;; on_local (Connection.execute (run_statement stmt)).

(** [self.db_local.select(...)]: a query on the tables of the open
    transaction. *)
Definition select {A} (query : tables → outcome A) : M session A :=
  λ s, (query (Connection.pending (db_local s)), s).

Definition initialize_tables : M session unit :=
  perform sql_create_table_places;;
  print_info "Created table: temporal.places_raw_no_geom.".

(** One iteration of the loop over [region_geoms]. *)
Definition clip (total : nat) (index : nat) (geom : geometry) : M session unit :=
  try_except
    (execute (clip_poi_overture_sql index geom);;
     on_local Connection.commit)
    (λ e, write_log (printed e);;
          on_local Connection.rollback);;
  write_log (progress index total).

(** The partial-result policy of the loop, as the specification words it:
    the tables after the polygons [gs], numbered from [k], where a polygon
    whose statement fails leaves the tables as they were. *)
Fixpoint clip_all (k : nat) (gs : list geometry) (t : tables) : tables :=
  match gs with
  | [] => t
  | g :: rest =>
      clip_all (S k) rest
        match run_statement (clip_poi_overture_sql k g) t with
        | Return inserted => inserted
        | Raise _ => t
        end
  end.

(** The entries the loop writes: the error of a polygon whose statement
    fails, and a progress entry for every polygon. *)
Fixpoint clip_log (total k : nat) (gs : list geometry) (t : tables) : list entry :=
  match gs with
  | [] => []
  | g :: rest =>
      match run_statement (clip_poi_overture_sql k g) t with
      | Return inserted => progress k total :: clip_log total (S k) rest inserted
      | Raise e => printed e :: progress k total :: clip_log total (S k) rest t
      end
  end.

Definition alter_tables : M session unit :=
  print_info "Starting to alter tables";;
  region_geoms ← select (region base);
  perform create_table_with_geom_sql;;
  print_info "Created new unlogged table with converted geometry";;
  perform create_place_table_sql;;
  print_info "created table including geometry index and pkey";;
  for_each (clip (length region_geoms)) 1 region_geoms;;
  perform convert_to_regular_table_sql;;
  print_info "Converted to a regular table".

Definition run : M session unit :=
  lift (initialize_sedona_context base);;
  lift (initialize_jdbc_properties base);;
  places_df ← lift (load_geoparquet base);
  print_info "Initialized data source.";;
  initialize_tables;;
  bbox_coords ← select (get_region_bbox_coords base);
  region_places ← lift (filter_region_places places_df bbox_coords);
  on_local (Connection.perform (fetch_data base region_places));;
  alter_tables;;
  print_info "Finished Overture places collection for the region.".

(** The state once [Database(...)] has been called for both URIs. *)
Definition connected (t : tables) : session :=
  {| db_local := Connection.connect t; db_remote := Connection.connect ();
     log := []; issued := [] |}.

Definition collect_poi_overture : M session unit :=
  print_info "Collect Overture places data for region.";;
  try_finally
    (try_except
       (run;;
        on_local Connection.close;;
        on_remote Connection.close;;
        print_info "Finished Overture places collection.")
       (λ e, write_log (error e);; raise e))
    (on_local Connection.close;;
     on_remote Connection.close).

End Collection.

End Places.

(** ** Transit stops: the statements of [PublicTransportStopPreparation.run] *)

Module Transit.

Section Queries.
Context `{Engine}.

(** A row of [basic.stops]. *)
Record stop := {
  stop_id : string;
  stop_name : string;
  parent_station : option string;
  h3_3 : Z;
  geom : geometry;
}.

(** A row of [basic.stop_times_optimized]. *)
Record stop_time := {
  st_stop_id : string;
  st_h3_3 : Z;
  route_type : option Z;
}.

(** A row of [basic.poi_public_transport_stop_<region>], restricted to
    the columns the statements write. *)
Record poi := {
  category : option string;
  name : string;
  source : option string;
  tags : json;
  poi_geom : list geometry;
}.

(** A row of the CTE [clipped_gfts_stops]. *)
Record clipped := {
  c_name : string;
  c_geom : geometry;
  c_tags : json;
}.

(** The configured [classification.gtfs_route_types]: a JSON object keyed
    by the decimal text of a route-type code.  A key is held as the code
    it denotes, so that [int(key)] and [route_type::TEXT] are the
    identity on it. *)
Definition classification := gmap Z json.

(** [tuple(int(key) for key in ....keys())]. *)
Definition route_type_keys (cls : classification) : list Z :=
  (map_to_list cls).*1.

(** ['{...}'::jsonb ->> r.route_type::TEXT]. *)
Definition mapped_category (cls : classification) (rt : Z) : option string :=
  cls !! rt ≫= as_text.

(** The inner [SELECT DISTINCT o.route_type ... ] of the lateral
    subquery, for the outer row [c]. *)
Definition distinct_route_types (cls : classification)
    (times : list stop_time) (c : clipped) : list (option Z) :=
  remove_dups (route_type <$>
    filter (λ o, Some (st_stop_id o) = field_text "stop_id" (c_tags c)
                 ∧ Some (st_h3_3 o) = field_integer "h3_3" (c_tags c)
                 ∧ Sql.in_list (route_type o) (route_type_keys cls)) times).

(** A row of the fact table qualifies the stop of the outer row [c] for
    the route type [rt], a key of the classification table. *)
Definition qualifies (cls : classification) (times : list stop_time)
    (c : clipped) (rt : Z) : Prop :=
  is_Some (cls !! rt) ∧
  ∃ o, o ∈ times ∧ route_type o = Some rt
       ∧ Some (st_stop_id o) = field_text "stop_id" (c_tags c)
       ∧ Some (st_h3_3 o) = field_integer "h3_3" (c_tags c).

(** The lateral subquery [j]: the [WHERE route_type IS NOT NULL] names
    the column of [r] (an output alias is not visible in [WHERE]), the
    rows are ordered by [r.route_type] and every one of them is
    returned. *)
Definition lateral (cls : classification) (times : list stop_time)
    (c : clipped) : list (option string) :=
  mapped_category cls <$>
    merge_sort Z.le (omap id (distinct_route_types cls times c)).

(** The CTE [categorized_gtfs_stops], the same text in both passes. *)
Definition categorized_gtfs_stops (cls : classification)
    (times : list stop_time) (cs : list clipped)
  : list (option string * clipped) :=
  c ← cs; cat ← lateral cls times c; [(cat, c)].

(** *** Pass 1: stops with a parent station *)

Definition parent_station_name (stops : list stop) (g : geometry)
  : list (string * string) :=
  (λ s, (stop_name s, stop_id s)) <$>
    filter (λ s, ST_Intersects (geom s) g = true ∧ parent_station s = None) stops.

Definition clipped_gfts_stops (stops : list stop) (g : geometry) : list clipped :=
  s ← stops; p ← parent_station_name stops g;
  if decide (ST_Intersects (geom s) g = true ∧ parent_station s = Some p.2)
  then [ {| c_name := p.1; c_geom := geom s;
            c_tags := JObject [("stop_id", JString (stop_id s));
                               ("parent_station", of_text (parent_station s));
                               ("h3_3", JNumber (h3_3 s))] |} ]
  else [].

(** [GROUP BY route_type, tags ->> 'parent_station', name]. *)
Definition group_key (x : option string * clipped)
  : option string * option string * string :=
  (x.1, field_text "parent_station" (c_tags x.2), c_name x.2).

(** [ARRAY_AGG(tags ->> 'stop_id')] as the JSON array it is stored as. *)
Definition stop_id_agg (grp : list (option string * clipped)) : json :=
  JArray ((λ x, of_text (field_text "stop_id" (c_tags x.2))) <$> grp).

(** The rows the pass-1 statement inserts for the polygon [g]. *)
Definition classify_gtfs_stop (cls : classification) (stops : list stop)
    (times : list stop_time) (g : geometry) : list poi :=
  (λ kg : (option string * option string * string) * list (option string * clipped),
     {| category := kg.1.1.1;
        name := kg.1.2;
        source := None;
        tags := JObject [("extended_source", JObject [("stop_id", stop_id_agg kg.2)]);
                         ("parent_station", of_text kg.1.1.2)];
        poi_geom := (λ x, c_geom x.2) <$> kg.2 |}) <$>
    Sql.group_by group_key
      (categorized_gtfs_stops cls times (clipped_gfts_stops stops g)).

(** *** The residual set [temporal.remaining_stations] *)

(** The CTE [processed_staions]: the comma-separated pieces of every
    row's parent linkage, [UNION] the elements of every row's aggregated
    stop identifiers. *)
Definition parent_linkage (table : list poi) : list (option string) :=
  row ← table;
  match field_text "parent_station" (tags row) with
  | Some linkage => Some <$> Sql.string_to_array linkage ","
  | None => []
  end.

Definition source_identifiers (row : poi) : list (option string) :=
  jsonb_array_elements_text (field "extended_source" (tags row) ≫= field "stop_id").

Definition processed_staions (table : list poi) : list (option string) :=
  remove_dups (parent_linkage table ++ (table ≫= source_identifiers)).

(** The statement of [temporal.remaining_stations].  The rows are held
    in a list; the statement has no [ORDER BY], so only which rows there are,
    and how often, is meant. *)
Definition remaining_stops (stops : list stop) (table : list poi) : list stop :=
  fst <$> filter (λ sp : stop * option (option string), sp.2 ≫= id = None)
    (Sql.left_join (λ s ps, bool_decide (ps = Some (stop_id s)))
       stops (processed_staions table)).

(** *** Pass 2: the stops that are left *)

Definition clipped_remaining (remaining : list stop) (g : geometry) : list clipped :=
  (λ s, {| c_name := stop_name s; c_geom := geom s;
           c_tags := JObject [("stop_id", JString (stop_id s));
                              ("h3_3", JNumber (h3_3 s))] |}) <$>
    filter (λ s, ST_Intersects (geom s) g = true) remaining.

(** [GROUP BY route_type, stop_name]. *)
Definition group_key_remaining (x : option string * clipped)
  : option string * string :=
  (x.1, c_name x.2).

Definition classify_remaining (cls : classification) (remaining : list stop)
    (times : list stop_time) (g : geometry) : list poi :=
  (λ kg : (option string * string) * list (option string * clipped),
     {| category := kg.1.1;
        name := kg.1.2;
        source := None;
        tags := JObject [("extended_source", JObject [("stop_id", stop_id_agg kg.2)])];
        poi_geom := (λ x, c_geom x.2) <$> kg.2 |}) <$>
    Sql.group_by group_key_remaining
      (categorized_gtfs_stops cls times (clipped_remaining remaining g)).

(** An output row mentions a stop when the stop's identifier is among
    its aggregated source identifiers. *)
Definition mentions (x : string) (row : poi) : Prop :=
  Some x ∈ source_identifiers row.

#[global] Instance mentions_dec x row : Decision (mentions x row).
Proof. unfold mentions. apply _. Defined.

(** The categories the lateral subquery returns, in the statement of the
    polygon [g], for the child stop with identifier [x]. *)
Definition categories_of (cls : classification) (stops : list stop)
    (times : list stop_time) (g : geometry) (x : string) : list (option string) :=
  c ← clipped_gfts_stops stops g;
  if decide (field_text "stop_id" (c_tags c) = Some x) then lateral cls times c else [].

End Queries.

(** *** The driver: [run] and [prepare_public_transport_stop] *)

Section Preparation.
Context `{Engine}.

Record tables := {
  stops : list stop;
  stop_times_optimized : list stop_time;
  poi_public_transport_stop : list poi;
  remaining_stations : list stop;
}.

Inductive statement :=
| create_poi_table
| classify_gtfs_stop_sql (index : nat) (g : geometry)
| remaining_stops_sql
| classify_remaining_sql (index : nat) (g : geometry).

(** The connection, the log, and the statements sent so far (most recent
    last). *)
Record session := {
  db : Connection.connection tables;
  log : list entry;
  issued : list statement;
}.

(** Modelled from the spec: the configuration ([Config]) and [POITable]
    are not part of the sources.  The configuration supplies the
    classification table and the region query; [create_poi_table] leaves
    the output table empty. *)
Record Config := {
  gtfs_route_types : classification;
  region : tables → outcome (list geometry);
  (* whether the database fails on a statement for a reason of its own *)
  fault : statement → option exn;
}.

Context (config : Config).

(** The tuple of keys is spliced into the statement as Python prints it:
    [()] for no key and [(k,)] for a single one, neither of which is a
    list the database accepts after [IN]. *)
Definition in_tuple_accepted (cls : classification) : bool :=
  bool_decide (2 ≤ length (route_type_keys cls))%nat.

Definition effect (stmt : statement) (t : tables) : outcome tables :=
  let cls := gtfs_route_types config in
  match stmt with
  | create_poi_table =>
      Return {| stops := stops t; stop_times_optimized := stop_times_optimized t;
                poi_public_transport_stop := [];
                remaining_stations := remaining_stations t |}
  | classify_gtfs_stop_sql _ g =>
      if in_tuple_accepted cls
      then Return {| stops := stops t; stop_times_optimized := stop_times_optimized t;
                     poi_public_transport_stop :=
                       poi_public_transport_stop t ++
                       classify_gtfs_stop cls (stops t) (stop_times_optimized t) g;
                     remaining_stations := remaining_stations t |}
      else Raise SyntaxError
  | remaining_stops_sql =>
      Return {| stops := stops t; stop_times_optimized := stop_times_optimized t;
                poi_public_transport_stop := poi_public_transport_stop t;
                remaining_stations :=
                  remaining_stops (stops t) (poi_public_transport_stop t) |}
  | classify_remaining_sql _ g =>
      if in_tuple_accepted cls
      then Return {| stops := stops t; stop_times_optimized := stop_times_optimized t;
                     poi_public_transport_stop :=
                       poi_public_transport_stop t ++
                       classify_remaining cls (remaining_stations t)
                         (stop_times_optimized t) g;
                     remaining_stations := remaining_stations t |}
      else Raise SyntaxError
  end.

Definition run_statement (stmt : statement) (t : tables) : outcome tables :=
  match fault config stmt with
  | Some e => Raise e
  | None => effect stmt t
  end.

(** The statement that computes [temporal.remaining_stations]. *)
Definition is_remaining_stops_sql (stmt : statement) : bool :=
  match stmt with
  | remaining_stops_sql => true
  | _ => false
  end.

Definition print_info (message : string) : M session unit :=
  modify (λ s, {| db := db s; log := log s ++ [info message]; issued := issued s |}).

Definition write_log (e : entry) : M session unit :=
  modify (λ s, {| db := db s; log := log s ++ [e]; issued := issued s |}).

Definition on_db {A} (m : M (Connection.connection tables) A) : M session A :=
  λ s, match m (db s) with
       | (result, c) => (result, {| db := c; log := log s; issued := issued s |})
       end.

(** [self.db.perform(stmt)] *)
Definition perform (stmt : statement) : M session unit :=
  modify (λ s, {| db := db s; log := log s; issued := issued s ++ [stmt] |});;
  on_db (Connection.perform (run_statement stmt)).

(** [self.db.select(...)] *)
Definition select {A} (query : tables → outcome A) : M session A :=
  λ s, (query (Connection.pending (db s)), s).

Definition run : M session unit :=
  region_geoms ← select (region config);
  print_info "Started to create table.";;
  perform create_poi_table;;
  print_info "Created table.";;
  for_each (λ i geom,
              perform (classify_gtfs_stop_sql i geom);;
              write_log (progress (i + 1) (length region_geoms)))
           0 region_geoms;;
  print_info "Stops with parent station have been classified";;
  print_info "Creating temporal.remaining_stops";;
  perform remaining_stops_sql;;
  print_info "temporal.remaining_stops has been created";;
  print_info "Classifying remaining stops started.";;
  for_each (λ i geom,
              perform (classify_remaining_sql i geom);;
              write_log (progress (i + 1) (length region_geoms)))
           0 region_geoms.

(** The state once [Database(settings.RAW_DATABASE_URI)] has been
    called. *)
Definition connected (t : tables) : session :=
  {| db := Connection.connect t; log := []; issued := [] |}.

(** The statements of a run that meets no failure, in the order they are
    sent, for the polygons [gs] of the region. *)
Definition schedule (gs : list geometry) : list statement :=
  [create_poi_table] ++ imap classify_gtfs_stop_sql gs
  ++ [remaining_stops_sql] ++ imap classify_remaining_sql gs.

(** How often the statement computing the residual set was sent. *)
Definition remaining_stops_runs (s : session) : nat :=
  length (filter (λ stmt, is_remaining_stops_sql stmt = true) (issued s)).

(** The output table with the rows [inserted] appended. *)
Definition insert_rows (inserted : list poi) (t : tables) : tables :=
  {| stops := stops t; stop_times_optimized := stop_times_optimized t;
     poi_public_transport_stop := poi_public_transport_stop t ++ inserted;
     remaining_stations := remaining_stations t |}.

Definition prepare_public_transport_stop : M session unit :=
  run;;
  on_db Connection.close.

End Preparation.

End Transit.

(** ** Concrete databases

    A toy engine: a geometry is the list of grid cells it covers and two
    geometries intersect when they share a cell. *)

Module Sample.

#[local] Instance grid : Engine := {|
  geometry := list Z;
  ST_Intersects := λ a b, bool_decide (Exists (λ cell, cell ∈ b) a);
  ST_GeomFromText := λ wkt, Some [Z.of_nat (String.length wkt)];
  jsonb_out := λ _, "?";
|}.

(** A station [P] with the platform [c1], which is served by rail (route
    type 2) and by cable tram (route type 5), and a lone stop [x]. *)
Definition station_stops : list Transit.stop := [
  {| Transit.stop_id := "P"; Transit.stop_name := "Central";
     Transit.parent_station := None; Transit.h3_3 := 7; Transit.geom := [1] |};
  {| Transit.stop_id := "c1"; Transit.stop_name := "Platform 1";
     Transit.parent_station := Some "P"; Transit.h3_3 := 7; Transit.geom := [1] |};
  {| Transit.stop_id := "x"; Transit.stop_name := "Market";
     Transit.parent_station := None; Transit.h3_3 := 7; Transit.geom := [2] |} ].

Definition station_times : list Transit.stop_time := [
  {| Transit.st_stop_id := "c1"; Transit.st_h3_3 := 7; Transit.route_type := Some 5 |};
  {| Transit.st_stop_id := "c1"; Transit.st_h3_3 := 7; Transit.route_type := Some 2 |};
  {| Transit.st_stop_id := "x"; Transit.st_h3_3 := 7; Transit.route_type := Some 3 |} ].

Definition rail_and_cable : Transit.classification :=
  {[ 2 := JString "rail"; 5 := JString "cable_tram" ]}.

Definition station_tables : Transit.tables :=
  {| Transit.stops := station_stops;
     Transit.stop_times_optimized := station_times;
     Transit.poi_public_transport_stop := [];
     Transit.remaining_stations := [] |}.

(** Two polygons; the database fails on the statements in [failing]. *)
Definition two_polygons : list geometry := [[1]; [2]].

Definition transit_config (failing : Transit.statement → option exn) : Transit.Config :=
  {| Transit.gtfs_route_types := rail_and_cable;
     Transit.region := λ _, Return two_polygons;
     Transit.fault := failing |}.

Definition no_fault : Transit.statement → option exn := λ _, None.

Definition first_polygon_fails : Transit.statement → option exn :=
  λ stmt, match stmt with
          | Transit.classify_gtfs_stop_sql 0 _ => Some (OperationalError 1)
          | _ => None
          end.

(** A classification table in which route type 2 is a key mapped to JSON
    null, and fact rows in which the platform [c1] and the lone stop [x]
    are served by route type 2 only. *)
Definition null_for_rail : Transit.classification :=
  {[ 2 := JNull; 3 := JString "bus" ]}.

Definition rail_only_times : list Transit.stop_time := [
  {| Transit.st_stop_id := "c1"; Transit.st_h3_3 := 7; Transit.route_type := Some 2 |};
  {| Transit.st_stop_id := "x"; Transit.st_h3_3 := 7; Transit.route_type := Some 2 |} ].

Definition rail_only_tables : Transit.tables :=
  {| Transit.stops := station_stops;
     Transit.stop_times_optimized := rail_only_times;
     Transit.poi_public_transport_stop := [];
     Transit.remaining_stations := [] |}.

Definition null_for_rail_config : Transit.Config :=
  {| Transit.gtfs_route_types := null_for_rail;
     Transit.region := λ _, Return two_polygons;
     Transit.fault := no_fault |}.

(** Cells of a toy dataframe: texts, boxes of integers, and the three
    column functions as constructors. *)
Inductive cell :=
| text (s : string)
| box (minx miny maxx maxy : Z)
| as_json (c : cell)
| as_timestamp (c : cell)
| as_wkt (c : cell).

#[local] Instance toy_spark : Places.Spark := {|
  Places.value := cell;
  Places.number := Z;
  Places.less := Z.ltb;
  Places.struct_field := λ name v,
    match v with
    | box minx miny maxx maxy =>
        if String.eqb name "minx" then Some minx
        else if String.eqb name "miny" then Some miny
        else if String.eqb name "maxx" then Some maxx
        else if String.eqb name "maxy" then Some maxy
        else None
    | _ => None
    end;
  Places.to_json := as_json;
  Places.cast_timestamp := as_timestamp;
  Places.ST_AsText := as_wkt;
|}.

(** A source with the columns of the release and the partition column
    [theme]. *)
Definition overture_columns : list string :=
  ["id"; "updatetime"; "version"; "names"; "categories"; "confidence";
   "websites"; "socials"; "emails"; "phones"; "brand"; "addresses"; "sources";
   "geometry"; "bbox"; "theme"].

Definition overture_row (id : string) (bbox : cell) : gmap string cell :=
  list_to_map
    ((λ name, (name, if String.eqb name "bbox" then bbox
                     else if String.eqb name "id" then text id
                     else text name)) <$> overture_columns).

(** The box of [a] lies inside the study area, a side of the box of [b] on
    its boundary. *)
Definition overture : Places.DataFrame :=
  {| Places.columns := overture_columns;
     Places.rows := [overture_row "a" (box 1 1 2 2); overture_row "b" (box 0 1 2 2)] |}.

Definition study_area : Places.bbox_coords :=
  {| Places.xmin := 0; Places.ymin := 0; Places.xmax := 10; Places.ymax := 10 |}.

Definition filtered : Places.DataFrame :=
  {| Places.columns := filter (λ c, c ≠ "bbox") overture_columns;
     Places.rows := [Places.convert_row (overture_row "a" (box 1 1 2 2))] |}.

(** Staged places; the toy engine reads a WKT text of [n] characters as the
    grid cell [n]. *)
Definition staged (id wkt : string) : Places.raw string :=
  {| Places.r_id := id; Places.r_categories := None; Places.r_updatetime := None;
     Places.r_version := None; Places.r_names := None; Places.r_confidence := None;
     Places.r_websites := None; Places.r_socials := None; Places.r_emails := None;
     Places.r_phones := None; Places.r_brand := None;
     Places.r_addresses :=
       Some (JArray [JObject [("freeform", JString "Main Street 42")]]);
     Places.r_sources := None; Places.r_geometry := wkt |}.

Definition no_tables : Places.tables :=
  {| Places.places_raw_no_geom := []; Places.places_raw := [];
     Places.places := []; Places.places_pkey := false |}.

(** Two polygons that overlap in the grid cell 2. *)
Definition overlapping : list geometry := [[1; 2]; [2; 3]].

(** A collection that stages the rows [loaded] and meets the failures
    [failing]. *)
Definition places_base (loaded : list (Places.raw string))
    (failing : Places.statement → option exn) : Places.Base :=
  {| Places.initialize_sedona_context := Return ();
     Places.initialize_jdbc_properties := Return ();
     Places.load_geoparquet := Return overture;
     Places.get_region_bbox_coords := λ _, Return study_area;
     Places.fetch_data := λ _ t,
       Return {| Places.places_raw_no_geom := loaded;
                 Places.places_raw := Places.places_raw t;
                 Places.places := Places.places t;
                 Places.places_pkey := Places.places_pkey t |};
     Places.region := λ _, Return overlapping;
     Places.fault := failing |}.

(** The place [a] lies in the first polygon only, [b] in the second only,
    [c] in the cell the two polygons share. *)
Definition apart : list (Places.raw string) := [staged "a" "x"; staged "b" "xxx"].
Definition shared : list (Places.raw string) := [staged "a" "x"; staged "c" "xx"].

(** The tables once the bulk loader has staged [loaded]. *)
Definition loaded_tables (loaded : list (Places.raw string)) : Places.tables :=
  {| Places.places_raw_no_geom := loaded; Places.places_raw := [];
     Places.places := []; Places.places_pkey := false |}.

Definition first_clip_fails : Places.statement → option exn :=
  λ stmt, match stmt with
          | Places.clip_poi_overture_sql 1 _ => Some (OperationalError 1)
          | _ => None
          end.

(** Two stops of the name [Market] in the second polygon, both served by
    rail. *)
Definition market_stops : list Transit.stop := [
  {| Transit.stop_id := "x"; Transit.stop_name := "Market";
     Transit.parent_station := None; Transit.h3_3 := 7; Transit.geom := [2] |};
  {| Transit.stop_id := "y"; Transit.stop_name := "Market";
     Transit.parent_station := None; Transit.h3_3 := 7; Transit.geom := [2] |} ].

Definition market_times : list Transit.stop_time := [
  {| Transit.st_stop_id := "x"; Transit.st_h3_3 := 7; Transit.route_type := Some 2 |};
  {| Transit.st_stop_id := "y"; Transit.st_h3_3 := 7; Transit.route_type := Some 2 |} ].

(** The rows of [clipped_gfts_stops] and [clipped_remaining] for the
    platform [c1] and the stops of the market. *)
Definition platform : Transit.clipped :=
  {| Transit.c_name := "Central"; Transit.c_geom := [1];
     Transit.c_tags := JObject [("stop_id", JString "c1");
                                ("parent_station", JString "P");
                                ("h3_3", JNumber 7)] |}.

Definition market (id : string) : Transit.clipped :=
  {| Transit.c_name := "Market"; Transit.c_geom := [2];
     Transit.c_tags := JObject [("stop_id", JString id); ("h3_3", JNumber 7)] |}.

(** A classification table with a single key, and one that maps two route
    types to the same category. *)
Definition rail_only : Transit.classification := {[ 2 := JString "rail" ]}.

Definition rail_twice : Transit.classification :=
  {[ 2 := JString "rail"; 5 := JString "rail" ]}.

Definition rail_only_config : Transit.Config :=
  {| Transit.gtfs_route_types := rail_only;
     Transit.region := λ _, Return two_polygons;
     Transit.fault := no_fault |}.


(** A source without the column [confidence], and a collection that reads
    it. *)
Definition narrow : Places.DataFrame :=
  {| Places.columns := filter (λ c, c ≠ "confidence") overture_columns;
     Places.rows := [] |}.

Definition narrow_base : Places.Base :=
  {| Places.initialize_sedona_context := Return ();
     Places.initialize_jdbc_properties := Return ();
     Places.load_geoparquet := Return narrow;
     Places.get_region_bbox_coords := λ _, Return study_area;
     Places.fetch_data := λ _ t, Return t;
     Places.region := λ _, Return overlapping;
     Places.fault := λ _, None |}.

(** A station whose identifier holds a comma, its platform [p1], and an
    unrelated stop whose identifier is a piece of the station's. *)
Definition comma_stops : list Transit.stop := [
  {| Transit.stop_id := "A,B"; Transit.stop_name := "Union";
     Transit.parent_station := None; Transit.h3_3 := 7; Transit.geom := [1] |};
  {| Transit.stop_id := "p1"; Transit.stop_name := "Union 1";
     Transit.parent_station := Some "A,B"; Transit.h3_3 := 7; Transit.geom := [1] |};
  {| Transit.stop_id := "A"; Transit.stop_name := "Alpha";
     Transit.parent_station := None; Transit.h3_3 := 7; Transit.geom := [1] |} ].

Definition comma_times : list Transit.stop_time := [
  {| Transit.st_stop_id := "p1"; Transit.st_h3_3 := 7; Transit.route_type := Some 2 |} ].

Definition comma_tables : Transit.tables :=
  {| Transit.stops := comma_stops;
     Transit.stop_times_optimized := comma_times;
     Transit.poi_public_transport_stop := [];
     Transit.remaining_stations := [] |}.

(** The staged place [staged id wkt] once its geometry is converted. *)
Definition converted (id : string) (cell : Z) : Places.raw geometry :=
  {| Places.r_id := id; Places.r_categories := None; Places.r_updatetime := None;
     Places.r_version := None; Places.r_names := None; Places.r_confidence := None;
     Places.r_websites := None; Places.r_socials := None; Places.r_emails := None;
     Places.r_phones := None; Places.r_brand := None;
     Places.r_addresses :=
       Some (JArray [JObject [("freeform", JString "Main Street 42")]]);
     Places.r_sources := None; Places.r_geometry := [cell] |}.

End Sample.

(** * Properties *)

(** ** Relational operators *)

Section RelationalFacts.
Context {A K : Type} `{EqDecision K}.

Lemma elem_of_group_by (key : A → K) (rows : list A) k grp :
  (k, grp) ∈ Sql.group_by key rows ↔
  k ∈ key <$> rows ∧ grp = filter (λ row, key row = k) rows.
Proof.
  unfold Sql.group_by. rewrite list_elem_of_fmap. split.
  - intros (k' & Heq & Hin). inversion Heq; subst.
    by rewrite elem_of_remove_dups in Hin.
  - intros [Hin ->]. exists k. by rewrite elem_of_remove_dups.
Qed.

Lemma group_by_covers (key : A → K) (rows : list A) row :
  row ∈ rows →
  ∃ grp, (key row, grp) ∈ Sql.group_by key rows ∧ row ∈ grp.
Proof.
  intros Hin. exists (filter (λ r, key r = key row) rows). split.
  - apply elem_of_group_by. split; [|done]. by apply list_elem_of_fmap_2.
  - by apply list_elem_of_filter.
Qed.

Lemma NoDup_omap_id (l : list (option K)) : NoDup l → NoDup (omap id l).
Proof.
  induction 1 as [|x l Hx Hl IH]; simpl; [constructor|].
  destruct x as [k|]; simpl; [|done].
  constructor; [|done].
  rewrite list_elem_of_omap. intros (y & Hy & Heq). simpl in Heq. by subst.
Qed.
End RelationalFacts.

Lemma StronglySorted_le_lt (l : list Z) :
  StronglySorted Z.le l → NoDup l → StronglySorted Z.lt l.
Proof.
  induction 1 as [|x l Hl IH Hx]; intros Hnd; [constructor|].
  apply NoDup_cons in Hnd as [Hnotin Hnd].
  constructor; [by apply IH|].
  rewrite Forall_forall in *. intros y Hy.
  specialize (Hx y Hy). assert (x ≠ y) by (intros ->; done). lia.
Qed.

(** ** Transit stops *)

Section TransitFacts.
Context `{Engine}.
Import Transit.

Lemma as_text_of_text (t : option string) : as_text (of_text t) = t.
Proof. by destruct t. Qed.

Lemma elem_of_route_type_keys (cls : classification) rt :
  rt ∈ route_type_keys cls ↔ is_Some (cls !! rt).
Proof.
  unfold route_type_keys. rewrite list_elem_of_fmap. split.
  - intros ([k v] & -> & Hin). apply elem_of_map_to_list in Hin. by exists v.
  - intros [v Hv]. exists (rt, v). split; [done|]. by apply elem_of_map_to_list.
Qed.

Lemma elem_of_distinct_route_types cls times c rt :
  Some rt ∈ distinct_route_types cls times c ↔ qualifies cls times c rt.
Proof.
  unfold distinct_route_types, qualifies.
  rewrite elem_of_remove_dups, list_elem_of_fmap. split.
  - intros (o & Hrt & Hin). apply list_elem_of_filter in Hin as [(Hid & Hh3 & Hkey) Hin].
    rewrite <- Hrt in Hkey. simpl in Hkey. apply elem_of_route_type_keys in Hkey.
    split; [done|]. by exists o.
  - intros [Hkey (o & Hin & Hrt & Hid & Hh3)]. exists o. split; [done|].
    apply list_elem_of_filter. split; [|done]. split_and!; [done..|].
    rewrite Hrt. simpl. by apply elem_of_route_type_keys.
Qed.

(** The route-type codes behind the rows of the lateral subquery. *)
Lemma lateral_codes cls times c :
  ∃ codes : list Z,
    lateral cls times c = mapped_category cls <$> codes
    ∧ StronglySorted Z.lt codes
    ∧ ∀ rt, rt ∈ codes ↔ qualifies cls times c rt.
Proof.
  exists (merge_sort Z.le (omap id (distinct_route_types cls times c))).
  split; [done|]. split.
  - apply StronglySorted_le_lt.
    + apply StronglySorted_merge_sort; apply _.
    + rewrite merge_sort_Permutation. apply NoDup_omap_id.
      unfold distinct_route_types. apply NoDup_remove_dups.
  - intros rt. rewrite merge_sort_Permutation, list_elem_of_omap.
    rewrite <- elem_of_distinct_route_types. split.
    + intros (x & Hx & Heq). simpl in Heq. by subst.
    + intros Hin. by exists (Some rt).
Qed.

Lemma elem_of_categorized cls times cs cat c :
  (cat, c) ∈ categorized_gtfs_stops cls times cs ↔ c ∈ cs ∧ cat ∈ lateral cls times c.
Proof.
  unfold categorized_gtfs_stops. rewrite list_elem_of_bind. split.
  - intros (c' & Hin & Hc'). apply list_elem_of_bind in Hin as (cat' & Hin & Hcat).
    apply list_elem_of_singleton in Hin. by simplify_eq.
  - intros [Hc Hcat]. exists c. split; [|done].
    apply list_elem_of_bind. exists cat. split; [|done]. by apply list_elem_of_singleton.
Qed.

(** The identifiers a row of either pass aggregates. *)
Lemma source_identifiers_pass1 k grp :
  source_identifiers
    {| category := k.1.1; name := k.2; source := None;
       tags := JObject [("extended_source", JObject [("stop_id", stop_id_agg grp)]);
                        ("parent_station", of_text k.1.2)];
       poi_geom := (λ x, c_geom x.2) <$> grp |}
  = (λ x : option string * clipped, field_text "stop_id" (c_tags x.2)) <$> grp.
Proof.
  unfold source_identifiers, stop_id_agg. simpl.
  rewrite <- list_fmap_compose. apply list_fmap_ext. intros i x _. simpl.
  apply as_text_of_text.
Qed.

Lemma source_identifiers_pass2 (k : option string * string) grp :
  source_identifiers
    {| category := k.1; name := k.2; source := None;
       tags := JObject [("extended_source", JObject [("stop_id", stop_id_agg grp)])];
       poi_geom := (λ x, c_geom x.2) <$> grp |}
  = (λ x : option string * clipped, field_text "stop_id" (c_tags x.2)) <$> grp.
Proof.
  unfold source_identifiers, stop_id_agg. simpl.
  rewrite <- list_fmap_compose. apply list_fmap_ext. intros i x _. simpl.
  apply as_text_of_text.
Qed.

Lemma classify_gtfs_stop_reaches cls stops times g cat c :
  c ∈ clipped_gfts_stops stops g → cat ∈ lateral cls times c →
  ∃ row, row ∈ classify_gtfs_stop cls stops times g
         ∧ category row = cat
         ∧ field_text "stop_id" (c_tags c) ∈ source_identifiers row.
Proof.
  intros Hc Hcat.
  destruct (group_by_covers group_key
              (categorized_gtfs_stops cls times (clipped_gfts_stops stops g)) (cat, c))
    as (grp & Hgrp & Hin); [by apply elem_of_categorized|].
  eexists. split.
  - unfold classify_gtfs_stop. apply list_elem_of_fmap. eexists. split; [reflexivity|exact Hgrp].
  - split; [done|]. cbn [fst snd].
    rewrite (source_identifiers_pass1 (group_key (cat, c)) grp).
    apply list_elem_of_fmap. by exists (cat, c).
Qed.

Lemma classify_remaining_reaches cls remaining times g cat c :
  c ∈ clipped_remaining remaining g → cat ∈ lateral cls times c →
  ∃ row, row ∈ classify_remaining cls remaining times g
         ∧ category row = cat
         ∧ field_text "stop_id" (c_tags c) ∈ source_identifiers row.
Proof.
  intros Hc Hcat.
  destruct (group_by_covers group_key_remaining
              (categorized_gtfs_stops cls times (clipped_remaining remaining g)) (cat, c))
    as (grp & Hgrp & Hin); [by apply elem_of_categorized|].
  eexists. split.
  - unfold classify_remaining. apply list_elem_of_fmap. eexists. split; [reflexivity|exact Hgrp].
  - split; [done|]. cbn [fst snd].
    rewrite (source_identifiers_pass2 (group_key_remaining (cat, c)) grp).
    apply list_elem_of_fmap. by exists (cat, c).
Qed.

(** Conversely, a row that aggregates a stop carries the category of a
    route type that qualifies the stop: a stop without a fact row, or whose
    route types are no keys of the classification table, is in no row. *)
Lemma classify_gtfs_stop_origin cls stops times g row x :
  row ∈ classify_gtfs_stop cls stops times g → mentions x row →
  ∃ c rt, c ∈ clipped_gfts_stops stops g
          ∧ field_text "stop_id" (c_tags c) = Some x
          ∧ qualifies cls times c rt
          ∧ category row = mapped_category cls rt.
Proof.
  unfold classify_gtfs_stop, mentions. intros Hrow Hx.
  apply list_elem_of_fmap in Hrow as ([k grp] & -> & Hin).
  apply elem_of_group_by in Hin as [_ ->]. cbn [fst snd] in Hx.
  rewrite (source_identifiers_pass1 k) in Hx.
  apply list_elem_of_fmap in Hx as ([cat c] & Heq & Hin).
  apply list_elem_of_filter in Hin as [Hkey Hin].
  apply elem_of_categorized in Hin as [Hc Hcat].
  destruct (lateral_codes cls times c) as (codes & Hlat & _ & Hcodes).
  rewrite Hlat in Hcat. apply list_elem_of_fmap in Hcat as (rt & -> & Hrt).
  exists c, rt. split_and!; [done|done|by apply Hcodes|].
  by rewrite <- Hkey.
Qed.

Lemma classify_remaining_origin cls remaining times g row x :
  row ∈ classify_remaining cls remaining times g → mentions x row →
  ∃ c rt, c ∈ clipped_remaining remaining g
          ∧ field_text "stop_id" (c_tags c) = Some x
          ∧ qualifies cls times c rt
          ∧ category row = mapped_category cls rt.
Proof.
  unfold classify_remaining, mentions. intros Hrow Hx.
  apply list_elem_of_fmap in Hrow as ([k grp] & -> & Hin).
  apply elem_of_group_by in Hin as [_ ->]. cbn [fst snd] in Hx.
  rewrite (source_identifiers_pass2 k) in Hx.
  apply list_elem_of_fmap in Hx as ([cat c] & Heq & Hin).
  apply list_elem_of_filter in Hin as [Hkey Hin].
  apply elem_of_categorized in Hin as [Hc Hcat].
  destruct (lateral_codes cls times c) as (codes & Hlat & _ & Hcodes).
  rewrite Hlat in Hcat. apply list_elem_of_fmap in Hcat as (rt & -> & Hrt).
  exists c, rt. split_and!; [done|done|by apply Hcodes|].
  by rewrite <- Hkey.
Qed.

(** C1 (as amended): in both passes a stop contributes one category for
    every distinct route-type code of its fact rows that is a key of the
    classification table: the lateral subquery returns the mappings of
    these codes in strictly ascending order of the code, the mapping of
    the lowest code first, and each of them reaches a row of the output
    that aggregates the stop's identifier. *)
Theorem every_route_type_contributes_a_category cls times c :
  (∃ codes : list Z,
     lateral cls times c = mapped_category cls <$> codes
     ∧ StronglySorted Z.lt codes
     ∧ ∀ rt, rt ∈ codes ↔ qualifies cls times c rt)
  ∧ (∀ stops g cat,
       c ∈ clipped_gfts_stops stops g → cat ∈ lateral cls times c →
       ∃ row, row ∈ classify_gtfs_stop cls stops times g
              ∧ category row = cat
              ∧ field_text "stop_id" (c_tags c) ∈ source_identifiers row)
  ∧ (∀ remaining g cat,
       c ∈ clipped_remaining remaining g → cat ∈ lateral cls times c →
       ∃ row, row ∈ classify_remaining cls remaining times g
              ∧ category row = cat
              ∧ field_text "stop_id" (c_tags c) ∈ source_identifiers row).
Proof.
  split; [apply lateral_codes|]. split.
  - intros stops g cat. apply classify_gtfs_stop_reaches.
  - intros remaining g cat. apply classify_remaining_reaches.
Qed.


Lemma NoDup_fmap_eq {A B} (f : A → B) (l : list A) x y :
  NoDup (f <$> l) → x ∈ l → y ∈ l → f x = f y → x = y.
Proof.
  induction l as [|a l IH]; simpl; intros Hnd Hx Hy Heq; [by apply elem_of_nil in Hx|].
  apply NoDup_cons in Hnd as [Ha Hnd].
  apply elem_of_cons in Hx as [->|Hx]; apply elem_of_cons in Hy as [->|Hy]; auto.
  - exfalso. apply Ha. rewrite Heq. by apply list_elem_of_fmap_2.
  - exfalso. apply Ha. rewrite <- Heq. by apply list_elem_of_fmap_2.
Qed.

Lemma elem_of_clipped_gfts_stops stops g c :
  c ∈ clipped_gfts_stops stops g ↔
  ∃ s p, s ∈ stops ∧ p ∈ stops
         ∧ ST_Intersects (geom s) g = true ∧ ST_Intersects (geom p) g = true
         ∧ parent_station p = None ∧ parent_station s = Some (stop_id p)
         ∧ c = {| c_name := stop_name p; c_geom := geom s;
                  c_tags := JObject [("stop_id", JString (stop_id s));
                                     ("parent_station", of_text (parent_station s));
                                     ("h3_3", JNumber (h3_3 s))] |}.
Proof.
  unfold clipped_gfts_stops, parent_station_name. rewrite list_elem_of_bind. split.
  - intros (s & Hin & Hs). apply list_elem_of_bind in Hin as (pr & Hin & Hpr).
    apply list_elem_of_fmap in Hpr as (p & -> & Hp).
    apply list_elem_of_filter in Hp as [[Hpi Hpn] Hp].
    case_decide as Hd; [|by apply elem_of_nil in Hin].
    apply list_elem_of_singleton in Hin. destruct Hd as [Hsi Hsp]. simpl in *.
    exists s, p. by split_and!.
  - intros (s & p & Hs & Hp & Hsi & Hpi & Hpn & Hsp & ->). exists s. split; [|done].
    apply list_elem_of_bind. exists (stop_name p, stop_id p). split.
    + rewrite decide_True by done. by apply list_elem_of_singleton.
    + apply list_elem_of_fmap. exists p. split; [done|]. by apply list_elem_of_filter.
Qed.

(** Under unique stop identifiers, the clipped rows of one stop agree on
    the rest of the grouping key. *)
Lemma clipped_key_unique stops g c1 c2 :
  NoDup (stop_id <$> stops) →
  c1 ∈ clipped_gfts_stops stops g → c2 ∈ clipped_gfts_stops stops g →
  field_text "stop_id" (c_tags c1) = field_text "stop_id" (c_tags c2) →
  field_text "parent_station" (c_tags c1) = field_text "parent_station" (c_tags c2)
  ∧ c_name c1 = c_name c2.
Proof.
  intros Hnd H1 H2 Hid.
  apply elem_of_clipped_gfts_stops in H1 as (s1 & p1 & Hs1 & Hp1 & _ & _ & _ & Hpar1 & ->).
  apply elem_of_clipped_gfts_stops in H2 as (s2 & p2 & Hs2 & Hp2 & _ & _ & _ & Hpar2 & ->).
  cbn in Hid. injection Hid as Hid.
  assert (s1 = s2) as <- by eauto using NoDup_fmap_eq.
  assert (p1 = p2) as <-.
  { eapply (NoDup_fmap_eq stop_id); eauto. congruence. }
  done.
Qed.

Lemma length_filter_fmap {A B} (P : B → Prop) `{∀ b, Decision (P b)} (f : A → B) l :
  length (filter P (f <$> l)) = length (filter (λ a, P (f a)) l).
Proof.
  induction l as [|a l IH]; [done|]. rewrite fmap_cons, !filter_cons.
  destruct (decide (P (f a))); simpl; by rewrite IH.
Qed.

(** Counting the groups that hold a row satisfying [P], when such rows
    are told apart by the component [proj] of their key. *)
Lemma count_groups {A K C} `{EqDecision K, EqDecision C}
    (key : A → K) (proj : K → C) (P : A → Prop) `{∀ a, Decision (P a)}
    (rows : list A) :
  (∀ r1 r2, r1 ∈ rows → r2 ∈ rows → P r1 → P r2 →
            proj (key r1) = proj (key r2) → key r1 = key r2) →
  length (filter (λ kg : K * list A, Exists P kg.2) (Sql.group_by key rows))
  = length (remove_dups ((λ r, proj (key r)) <$> filter P rows)).
Proof.
  intros Hinj. unfold Sql.group_by. rewrite length_filter_fmap. cbn [snd].
  set (L := filter _ (remove_dups (key <$> rows))).
  assert (∀ k, k ∈ L ↔ ∃ r, r ∈ rows ∧ key r = k ∧ P r) as HL.
  { intros k. unfold L. rewrite list_elem_of_filter, elem_of_remove_dups, Exists_exists.
    split.
    - intros [(r & Hr & HP) _]. apply list_elem_of_filter in Hr as [Hk Hr]. eauto.
    - intros (r & Hr & Hk & HP). split.
      + exists r. split; [|done]. by apply list_elem_of_filter.
      + apply list_elem_of_fmap. eauto. }
  rewrite <- (length_fmap proj L). apply Permutation_length, NoDup_Permutation.
  - apply NoDup_fmap_2_strong; [|apply NoDup_filter, NoDup_remove_dups].
    intros k1 k2 Hk1 Hk2 Heq.
    apply HL in Hk1 as (r1 & Hr1 & <- & HP1). apply HL in Hk2 as (r2 & Hr2 & <- & HP2).
    by apply Hinj.
  - apply NoDup_remove_dups.
  - intros c. rewrite elem_of_remove_dups, !list_elem_of_fmap. split.
    + intros (k & -> & Hk). apply HL in Hk as (r & Hr & <- & HP).
      exists r. split; [done|]. by apply list_elem_of_filter.
    + intros (r & -> & Hr). apply list_elem_of_filter in Hr as [HP Hr].
      exists (key r). split; [done|]. apply HL. eauto.
Qed.

Lemma categories_of_categorized cls stops times g x :
  categories_of cls stops times g x
  = fst <$> filter (λ r : option string * clipped, field_text "stop_id" (c_tags r.2) = Some x)
              (categorized_gtfs_stops cls times (clipped_gfts_stops stops g)).
Proof.
  unfold categories_of, categorized_gtfs_stops.
  induction (clipped_gfts_stops stops g) as [|c cs IH]; [done|].
  rewrite !bind_cons, filter_app, fmap_app, IH. f_equal.
  induction (lateral cls times c) as [|cat cats IHc]; [by case_decide|].
  rewrite bind_cons. simpl. rewrite filter_cons. simpl.
  destruct (decide _); [|done]. rewrite fmap_cons. simpl. by f_equal.
Qed.

Lemma mentions_pass1_row x (kg : (option string * option string * string)
                                 * list (option string * clipped)) :
  mentions x
    {| category := kg.1.1.1; name := kg.1.2; source := None;
       tags := JObject [("extended_source", JObject [("stop_id", stop_id_agg kg.2)]);
                        ("parent_station", of_text kg.1.1.2)];
       poi_geom := (λ r, c_geom r.2) <$> kg.2 |}
  ↔ Exists (λ r : option string * clipped, field_text "stop_id" (c_tags r.2) = Some x) kg.2.
Proof.
  unfold mentions. rewrite (source_identifiers_pass1 kg.1 kg.2).
  rewrite list_elem_of_fmap, Exists_exists.
  split; intros (r & ? & ?); exists r; eauto.
Qed.

Lemma pass1_rows_of_stop cls stops times g x :
  NoDup (stop_id <$> stops) →
  length (filter (mentions x) (classify_gtfs_stop cls stops times g))
  = length (remove_dups (categories_of cls stops times g x)).
Proof.
  intros Hnd. unfold classify_gtfs_stop. rewrite length_filter_fmap.
  rewrite (list_filter_iff _ _ _ (mentions_pass1_row x)).
  rewrite (count_groups group_key (λ k, k.1.1)).
  - by rewrite categories_of_categorized.
  - intros [cat1 c1] [cat2 c2] H1 H2 Hx1 Hx2 Hcat. simpl in *.
    apply elem_of_categorized in H1 as [H1 _]. apply elem_of_categorized in H2 as [H2 _].
    destruct (clipped_key_unique stops g c1 c2) as [Hp Hn]; [done..|congruence|].
    unfold group_key. simpl. congruence.
Qed.

(** C4 (as amended): under unique stop identifiers, among the rows that
    pass 1 inserts for one polygon a child stop's identifier is aggregated
    by exactly one row for each distinct category of its route types, and
    the polygons add up: it is in exactly one row of pass 1 only when its
    route types map to a single category and it is clipped by a single
    polygon. *)
Theorem child_stop_rows_per_category cls stops times gs x :
  NoDup (stop_id <$> stops) →
  length (filter (mentions x) (gs ≫= classify_gtfs_stop cls stops times))
  = sum_list ((λ g, length (remove_dups (categories_of cls stops times g x))) <$> gs).
Proof.
  intros Hnd. induction gs as [|g gs IH]; [done|].
  rewrite bind_cons, filter_app, length_app, fmap_cons, IH. simpl.
  by rewrite pass1_rows_of_stop.
Qed.

(** *** The residual set *)

Lemma elem_of_left_join_None {A B} (p : A → B → bool) (l : list A) (r : list B) a :
  (a, None) ∈ Sql.left_join p l r ↔ a ∈ l ∧ ∀ b, b ∈ r → p a b = false.
Proof.
  unfold Sql.left_join. rewrite list_elem_of_bind. split.
  - intros (a' & Hin & Ha'). destruct (List.filter (p a') r) as [|b0 bs] eqn:Hf.
    + apply list_elem_of_singleton in Hin. injection Hin as <-. split; [done|].
      intros b Hb. destruct (p a b) eqn:Hp; [|done].
      assert (In b (List.filter (p a) r)) as Hin'.
      { apply filter_In. split; [by apply list_elem_of_In|done]. }
      rewrite Hf in Hin'. destruct Hin'.
    + apply list_elem_of_fmap in Hin as (b & Heq & _). simplify_eq.
  - intros [Ha Hnone]. exists a. split; [|done].
    destruct (List.filter (p a) r) as [|b0 bs] eqn:Hf; [by apply list_elem_of_singleton|].
    assert (In b0 (List.filter (p a) r)) as Hin' by (rewrite Hf; by left).
    apply filter_In in Hin' as [Hb0 Hp]. apply list_elem_of_In in Hb0.
    rewrite (Hnone b0 Hb0) in Hp. discriminate.
Qed.

Lemma elem_of_left_join_Some {A B} (p : A → B → bool) (l : list A) (r : list B) a b :
  (a, Some b) ∈ Sql.left_join p l r → p a b = true.
Proof.
  unfold Sql.left_join. rewrite list_elem_of_bind.
  intros (a' & Hin & Ha'). destruct (List.filter (p a') r) as [|b0 bs] eqn:Hf.
  - apply list_elem_of_singleton in Hin. simplify_eq.
  - apply list_elem_of_fmap in Hin as (b' & Heq & Hb'). simplify_eq.
    rewrite <- Hf in Hb'. apply list_elem_of_In, filter_In in Hb'. tauto.
Qed.

Lemma elem_of_processed_staions table (x : string) :
  Some x ∈ processed_staions table ↔
  Some x ∈ parent_linkage table ∨ ∃ row, row ∈ table ∧ mentions x row.
Proof.
  unfold processed_staions, mentions.
  rewrite elem_of_remove_dups, elem_of_app, list_elem_of_bind. naive_solver.
Qed.

Lemma elem_of_remaining_stops stops table s :
  s ∈ remaining_stops stops table ↔
  s ∈ stops ∧ (Some (stop_id s) ∉ parent_linkage table)
  ∧ (∀ row, row ∈ table → ¬ mentions (stop_id s) row).
Proof.
  unfold remaining_stops. rewrite list_elem_of_fmap.
  assert (Some (stop_id s) ∉ processed_staions table ↔
          (Some (stop_id s) ∉ parent_linkage table)
          ∧ (∀ row, row ∈ table → ¬ mentions (stop_id s) row)) as <-.
  { rewrite elem_of_processed_staions. naive_solver. }
  split.
  - intros ([s' ps] & -> & Hin). apply list_elem_of_filter in Hin as [Hnull Hin].
    simpl in *. destruct ps as [ps|].
    + apply elem_of_left_join_Some in Hin. apply bool_decide_eq_true in Hin.
      subst ps. discriminate.
    + apply elem_of_left_join_None in Hin as [Hs Hnone]. split; [done|].
      intros Hp. specialize (Hnone _ Hp). by apply bool_decide_eq_false in Hnone.
  - intros [Hs Hnot]. exists (s, None). split; [done|].
    apply list_elem_of_filter. split; [done|].
    apply elem_of_left_join_None. split; [done|].
    intros b Hb. apply bool_decide_eq_false. by intros ->.
Qed.
End TransitFacts.


(** ** The drivers *)

Lemma bind_unfold {St A B} (m : M St A) (k : A → M St B) (s : St) :
  (m ≫= k) s = match m s with
               | (Return a, s') => k a s'
               | (Raise e, s') => (Raise e, s')
               end.
Proof. reflexivity. Qed.

Lemma bind_returns {St A B} (m : M St A) (k : A → M St B) (s s' : St) b :
  (m ≫= k) s = (Return b, s') →
  ∃ a s1, m s = (Return a, s1) ∧ k a s1 = (Return b, s').
Proof.
  rewrite bind_unfold. destruct (m s) as [[a|e] s1]; [eauto|discriminate].
Qed.

Lemma for_each_app {St B} (body : nat → B → M St unit) (l1 l2 : list B) : ∀ k s,
  for_each body k (l1 ++ l2) s
  = (for_each body k l1 ≫= λ _, for_each body (k + length l1) l2) s.
Proof.
  induction l1 as [|x l1 IH]; intros k s; simpl.
  - rewrite bind_unfold. simpl. by rewrite Nat.add_0_r.
  - unfold Driver.bind. rewrite !bind_unfold.
    destruct (body k x s) as [[[]|e] s1]; [|done].
    rewrite IH, bind_unfold. by replace (S k + length l1)%nat with (k + S (length l1))%nat by lia.
Qed.

Section TransitDriverFacts.
Context `{Engine} (config : Transit.Config).
Import Transit.

Lemma perform_open stmt s :
  Connection.failed (db s) = false →
  perform config stmt s =
    match run_statement config stmt (Connection.pending (db s)) with
    | Return d =>
        (Return (),
         {| db := {| Connection.committed := d; Connection.pending := d;
                     Connection.failed := false;
                     Connection.closed := Connection.closed (db s) |};
            log := log s; issued := issued s ++ [stmt] |})
    | Raise e =>
        (Raise e,
         {| db := {| Connection.committed := Connection.committed (db s);
                     Connection.pending := Connection.pending (db s);
                     Connection.failed := true;
                     Connection.closed := Connection.closed (db s) |};
            log := log s; issued := issued s ++ [stmt] |})
    end.
Proof.
  intros Hopen.
  cbv [perform on_db Connection.perform Connection.execute Connection.commit
       mbind M_bind Driver.bind Driver.modify].
  simpl. rewrite Hopen.
  by destruct (run_statement config stmt _).
Qed.

Lemma perform_issued stmt s r s' :
  perform config stmt s = (r, s') → issued s' = issued s ++ [stmt].
Proof.
  cbv [perform on_db Connection.perform Connection.execute Connection.commit
       mbind M_bind Driver.bind Driver.modify].
  simpl. destruct (Connection.failed (db s)).
  - intros [= <- <-]. done.
  - destruct (run_statement config stmt _); intros [= <- <-]; done.
Qed.

(** One iteration of either loop, for the statement [mk i geom]. *)
Local Abbreviation iteration mk n :=
  (λ (i : nat) (geom : geometry),
     perform config (mk i geom);; write_log (progress (i + 1) n)).

Lemma imap_shift {A B} (f : nat → A → B) (k : nat) (l : list A) :
  imap (λ i, f (S k + i)%nat) l = imap ((λ i, f (k + i)%nat) ∘ S) l.
Proof. apply imap_ext. intros i x _. simpl. f_equal. lia. Qed.

(** Whatever its outcome, a loop has sent the statements of an initial
    segment of the polygons, and of all of them when it returns. *)
Lemma loop_issued (mk : nat → geometry → statement) n gs : ∀ k s r s',
  for_each (iteration mk n) k gs s = (r, s') →
  ∃ sent, issued s' = issued s ++ sent
          ∧ sent `prefix_of` imap (λ i, mk (k + i)%nat) gs
          ∧ (r = Return () → sent = imap (λ i, mk (k + i)%nat) gs).
Proof.
  induction gs as [|g gs IH]; intros k s r s'; simpl.
  - intros [= <- <-]. exists []. by rewrite app_nil_r.
  - unfold Driver.bind at 1. rewrite bind_unfold.
    destruct (perform config (mk k g) s) as [[[]|e] s1] eqn:Hperform;
      apply perform_issued in Hperform.
    + simpl. intros Hloop. apply IH in Hloop as (sent & Hsent & Hprefix & Hall).
      exists (mk k g :: sent). simpl in Hsent. rewrite Hsent, Hperform, <- app_assoc.
      rewrite Nat.add_0_r, <- imap_shift. split_and!; [done| |].
      * by apply prefix_cons.
      * intros Hr. by rewrite Hall.
    + intros [= <- <-]. exists [mk k g]. rewrite Nat.add_0_r. split_and!; [done| |done].
      apply prefix_cons, prefix_nil.
Qed.

Lemma insert_rows_nil t : insert_rows [] t = t.
Proof. destruct t. unfold insert_rows. simpl. by rewrite app_nil_r. Qed.

Lemma insert_rows_app l1 l2 t :
  insert_rows l2 (insert_rows l1 t) = insert_rows (l1 ++ l2) t.
Proof. unfold insert_rows. simpl. by rewrite app_assoc. Qed.

(** A loop that returns has committed the rows of every polygon. *)
Lemma loop_returns (mk : nat → geometry → statement)
    (rows : tables → geometry → list poi) n gs :
  (∀ i g t d, run_statement config (mk i g) t = Return d → d = insert_rows (rows t g) t) →
  (∀ t l g, rows (insert_rows l t) g = rows t g) →
  ∀ k s s',
    for_each (iteration mk n) k gs s = (Return (), s') →
    Connection.failed (db s) = false →
    Connection.committed (db s) = Connection.pending (db s) →
    Connection.failed (db s') = false
    ∧ Connection.closed (db s') = Connection.closed (db s)
    ∧ Connection.committed (db s') = insert_rows (gs ≫= rows (Connection.pending (db s)))
                                       (Connection.pending (db s))
    ∧ Connection.pending (db s') = Connection.committed (db s').
Proof.
  intros Hrows Hframe. induction gs as [|g gs IH]; intros k s s'; simpl.
  - intros [= <-] Hopen Hsame. by rewrite insert_rows_nil.
  - unfold Driver.bind at 1. rewrite bind_unfold. intros Hloop Hopen Hsame.
    rewrite perform_open in Hloop by done.
    destruct (run_statement config (mk k g) _) as [d|e] eqn:Hstmt; [|discriminate].
    apply Hrows in Hstmt as ->. simpl in Hloop.
    apply IH in Hloop as (Hopen' & Hclosed & Hcommitted & Hpending); [|done..].
    simpl in *. split_and!; [done..| |done].
    rewrite Hcommitted, insert_rows_app. do 2 f_equal.
    apply (list_bind_ext _ _ gs gs); [|done]. intros g'. apply Hframe.
Qed.

Lemma classify_gtfs_stop_sql_effect i g t d :
  run_statement config (classify_gtfs_stop_sql i g) t = Return d →
  d = insert_rows (classify_gtfs_stop (gtfs_route_types config) (stops t)
                     (stop_times_optimized t) g) t.
Proof.
  unfold run_statement, effect. destruct (fault config _); [discriminate|].
  destruct (in_tuple_accepted _); [|discriminate]. by intros [= <-].
Qed.

Lemma classify_remaining_sql_effect i g t d :
  run_statement config (classify_remaining_sql i g) t = Return d →
  d = insert_rows (classify_remaining (gtfs_route_types config) (remaining_stations t)
                     (stop_times_optimized t) g) t.
Proof.
  unfold run_statement, effect. destruct (fault config _); [discriminate|].
  destruct (in_tuple_accepted _); [|discriminate]. by intros [= <-].
Qed.

Lemma filter_none {A} (P : A → Prop) `{∀ x, Decision (P x)} (l : list A) :
  (∀ x, x ∈ l → ¬ P x) → filter P l = [].
Proof.
  induction l as [|a l IH]; intros Hnone; [done|].
  rewrite filter_cons_False by (apply Hnone; left).
  apply IH. intros x Hx. apply Hnone. by right.
Qed.

Lemma no_remaining_stops_sql (mk : nat → geometry → statement) gs sent :
  (∀ i g, is_remaining_stops_sql (mk i g) = false) →
  sent `prefix_of` imap mk gs →
  filter (λ stmt, is_remaining_stops_sql stmt = true) sent = [].
Proof.
  intros Hmk [rest Hrest]. apply filter_none. intros stmt Hin.
  assert (stmt ∈ imap mk gs) as Himap by (rewrite Hrest; apply elem_of_app; by left).
  apply elem_of_lookup_imap_1 in Himap as (i & g & -> & _). by rewrite Hmk.
Qed.

Lemma remaining_stops_runs_app s sent :
  remaining_stops_runs {| db := db s; log := log s; issued := issued s ++ sent |}
  = (remaining_stops_runs s
     + length (filter (λ stmt, is_remaining_stops_sql stmt = true) sent))%nat.
Proof. unfold remaining_stops_runs. simpl. by rewrite filter_app, length_app. Qed.

(** Whatever the outcome of [run], the residual set was computed at most
    once. *)
Lemma run_remaining_stops_runs t r s' :
  run config (connected t) = (r, s') → (remaining_stops_runs s' ≤ 1)%nat.
Proof.
  intros Hrun. unfold run in Hrun. rewrite bind_unfold in Hrun.
  unfold select in Hrun at 1. simpl in Hrun.
  destruct (region config t) as [gs|e] eqn:Hregion.
  2: { injection Hrun as <- <-. unfold remaining_stops_runs. simpl. lia. }
  unfold print_info, Driver.modify in Hrun.
  rewrite bind_unfold in Hrun. simpl in Hrun. rewrite bind_unfold in Hrun.
  destruct (perform config create_poi_table _) as [[[]|e] s1] eqn:Hcreate;
    apply perform_issued in Hcreate; simpl in Hcreate.
  2: { injection Hrun as <- <-. unfold remaining_stops_runs. rewrite Hcreate. simpl. lia. }
  rewrite bind_unfold in Hrun. simpl in Hrun. rewrite bind_unfold in Hrun.
  destruct (for_each (iteration classify_gtfs_stop_sql (length gs)) 0 gs _)
    as [[[]|e] s2] eqn:Hpass1;
    apply loop_issued in Hpass1 as (sent1 & Hissued1 & Hprefix1 & _); simpl in Hissued1;
    apply no_remaining_stops_sql in Hprefix1; [|done| |done].
  2: { injection Hrun as <- <-. unfold remaining_stops_runs.
       rewrite Hissued1, Hcreate, filter_app, Hprefix1. simpl. lia. }
  do 2 (rewrite bind_unfold in Hrun; simpl in Hrun). rewrite bind_unfold in Hrun.
  destruct (perform config remaining_stops_sql _) as [[[]|e] s3] eqn:Hremaining;
    apply perform_issued in Hremaining; simpl in Hremaining.
  2: { injection Hrun as <- <-. unfold remaining_stops_runs.
       rewrite Hremaining, Hissued1, Hcreate, !filter_app, Hprefix1. simpl. lia. }
  do 2 (rewrite bind_unfold in Hrun; simpl in Hrun).
  apply loop_issued in Hrun as (sent2 & Hissued2 & Hprefix2 & _). simpl in Hissued2.
  apply no_remaining_stops_sql in Hprefix2; [|done].
  unfold remaining_stops_runs.
  rewrite Hissued2, Hremaining, Hissued1, Hcreate, !filter_app, Hprefix1, Hprefix2.
  simpl. lia.
Qed.

(** A run that returns has sent the whole schedule and leaves the rows of
    both passes and the residual set computed from the rows of pass 1. *)
Lemma run_returns t s' :
  run config (connected t) = (Return (), s') →
  ∃ gs, region config t = Return gs
    ∧ issued s' = schedule gs
    ∧ Connection.closed (db s') = false
    ∧ let cls := gtfs_route_types config in
      let pass1 := gs ≫= classify_gtfs_stop cls (stops t) (stop_times_optimized t) in
      let remaining := remaining_stops (stops t) pass1 in
      Connection.committed (db s')
      = {| stops := stops t; stop_times_optimized := stop_times_optimized t;
           poi_public_transport_stop :=
             pass1 ++ (gs ≫= classify_remaining cls remaining (stop_times_optimized t));
           remaining_stations := remaining |}.
Proof.
  intros Hrun. unfold run in Hrun.
  apply bind_returns in Hrun as (gs & s0 & Hregion & Hrun).
  unfold select in Hregion. injection Hregion as Hregion <-. simpl in Hregion.
  exists gs. split; [done|].
  unfold print_info, Driver.modify in Hrun.
  rewrite bind_unfold in Hrun. simpl in Hrun.
  apply bind_returns in Hrun as ([] & s1 & Hcreate & Hrun).
  pose proof (perform_issued _ _ _ _ Hcreate) as Hissued0.
  rewrite perform_open in Hcreate by done.
  destruct (run_statement config create_poi_table _) as [d|e] eqn:Hstmt; [|discriminate].
  unfold run_statement, effect in Hstmt.
  destruct (fault config create_poi_table); [discriminate|].
  injection Hstmt as <-. injection Hcreate as <-. simpl in *.
  rewrite bind_unfold in Hrun. simpl in Hrun.
  apply bind_returns in Hrun as ([] & s2 & Hpass1 & Hrun).
  pose proof (loop_issued _ _ _ _ _ _ _ Hpass1) as (sent1 & Hissued1 & _ & Hsent1).
  specialize (Hsent1 eq_refl). subst sent1.
  apply (loop_returns classify_gtfs_stop_sql
           (λ t g, classify_gtfs_stop (gtfs_route_types config) (stops t)
                     (stop_times_optimized t) g)) in Hpass1
    as (Hopen2 & Hclosed2 & Hcommitted2 & Hpending2);
    [|apply classify_gtfs_stop_sql_effect|done..].
  simpl in *.
  do 2 (rewrite bind_unfold in Hrun; simpl in Hrun).
  apply bind_returns in Hrun as ([] & s3 & Hremaining & Hrun).
  pose proof (perform_issued _ _ _ _ Hremaining) as Hissued2.
  rewrite perform_open in Hremaining by done.
  destruct (run_statement config remaining_stops_sql _) as [d|e] eqn:Hstmt; [|discriminate].
  unfold run_statement, effect in Hstmt.
  destruct (fault config remaining_stops_sql); [discriminate|].
  injection Hstmt as <-. injection Hremaining as <-. simpl in *.
  do 2 (rewrite bind_unfold in Hrun; simpl in Hrun).
  pose proof (loop_issued _ _ _ _ _ _ _ Hrun) as (sent2 & Hissued3 & _ & Hsent2).
  specialize (Hsent2 eq_refl). subst sent2.
  apply (loop_returns classify_remaining_sql
           (λ t g, classify_remaining (gtfs_route_types config) (remaining_stations t)
                     (stop_times_optimized t) g)) in Hrun
    as (Hopen3 & Hclosed3 & Hcommitted3 & Hpending3);
    [|apply classify_remaining_sql_effect|done..].
  simpl in *. split_and!.
  - rewrite Hissued3, Hissued1. unfold schedule. simpl. by rewrite <- app_assoc.
  - by rewrite Hclosed3, Hclosed2.
  - rewrite Hcommitted3, Hpending2, Hcommitted2. unfold insert_rows. simpl. done.
Qed.

(** A linkage without a comma is its own single piece. *)
Lemma split_on_plain sep s :
  sep ∉ String.list_ascii_of_string s → Sql.split_on sep s = [s].
Proof.
  induction s as [|c s IH]; simpl; [done|]. intros Hsep.
  apply not_elem_of_cons in Hsep as [Hc Hs].
  destruct (Ascii.eqb_spec c sep) as [->|_]; [done|]. by rewrite IH.
Qed.

Lemma elem_of_parent_linkage_plain table x :
  (∀ row linkage, row ∈ table →
     field_text "parent_station" (tags row) = Some linkage →
     linkage ≠ EmptyString ∧ ","%char ∉ String.list_ascii_of_string linkage) →
  Some x ∈ parent_linkage table ↔
  ∃ row, row ∈ table ∧ field_text "parent_station" (tags row) = Some x.
Proof.
  intros Hplain. unfold parent_linkage. rewrite list_elem_of_bind.
  split; intros (row & Hx & Hrow).
  - exists row. split; [done|].
    destruct (field_text "parent_station" (tags row)) as [linkage|] eqn:Hlinkage;
      [|by apply elem_of_nil in Hx].
    destruct (Hplain row linkage Hrow Hlinkage) as [Hne Hsep].
    unfold Sql.string_to_array in Hx. destruct linkage as [|c rest]; [done|].
    rewrite split_on_plain in Hx by done.
    apply list_elem_of_fmap in Hx as (piece & [= ->] & Hpiece).
    by apply list_elem_of_singleton in Hpiece as ->.
  - exists row. split; [|done]. rewrite Hrow.
    destruct (Hplain row x Hx Hrow) as [Hne Hsep].
    unfold Sql.string_to_array. destruct x as [|c rest]; [done|].
    rewrite split_on_plain by done. apply list_elem_of_fmap. eexists. split; [done|].
    by apply list_elem_of_singleton.
Qed.

(** C5 (as amended): a stop is in the residual set exactly when its
    identifier is none of the comma-separated pieces of a row's parent
    linkage and is in no row's aggregated identifiers; the pieces of a
    linkage are the linkage itself when it is not empty and has no comma.
    [run] computes the set at most once whatever happens, and exactly
    once, from exactly the rows of pass 1, when it returns. *)
Theorem remaining_stations_set_difference t :
  let result := run config (connected t) in
  (∀ all_stops table s,
     s ∈ remaining_stops all_stops table ↔
     s ∈ all_stops ∧ (Some (stop_id s) ∉ parent_linkage table)
     ∧ (∀ row, row ∈ table → ¬ mentions (stop_id s) row))
  ∧ (∀ table x,
       (∀ row linkage, row ∈ table →
          field_text "parent_station" (tags row) = Some linkage →
          linkage ≠ EmptyString ∧ ","%char ∉ String.list_ascii_of_string linkage) →
       Some x ∈ parent_linkage table ↔
       ∃ row, row ∈ table ∧ field_text "parent_station" (tags row) = Some x)
  ∧ (remaining_stops_runs result.2 ≤ 1)%nat
  ∧ (result.1 = Return () →
     remaining_stops_runs result.2 = 1%nat
     ∧ ∃ gs, region config t = Return gs
         ∧ remaining_stations (Connection.committed (db result.2))
           = remaining_stops (stops t)
               (gs ≫= classify_gtfs_stop (gtfs_route_types config) (stops t)
                         (stop_times_optimized t))).
Proof.
  intros result. split; [apply elem_of_remaining_stops|].
  split; [apply elem_of_parent_linkage_plain|].
  destruct (run config (connected t)) as [r s'] eqn:Hrun. subst result. simpl.
  split; [by eapply run_remaining_stops_runs|].
  intros ->. apply run_returns in Hrun as (gs & Hregion & Hissued & _ & Htables).
  split.
  - unfold remaining_stops_runs. rewrite Hissued. unfold schedule. rewrite !filter_app.
    rewrite (no_remaining_stops_sql classify_gtfs_stop_sql gs
               (imap classify_gtfs_stop_sql gs)) by (done || reflexivity).
    rewrite (no_remaining_stops_sql classify_remaining_sql gs
               (imap classify_remaining_sql gs)) by (done || reflexivity).
    done.
  - exists gs. split; [done|]. by rewrite Htables.
Qed.

Lemma perform_closed stmt s r s' :
  perform config stmt s = (r, s') →
  Connection.closed (db s') = Connection.closed (db s).
Proof.
  cbv [perform on_db Connection.perform Connection.execute Connection.commit
       mbind M_bind Driver.bind Driver.modify].
  simpl. destruct (Connection.failed (db s)).
  - by intros [= <- <-].
  - destruct (run_statement config stmt _); by intros [= <- <-].
Qed.

Lemma loop_closed (mk : nat → geometry → statement) n gs : ∀ k s r s',
  for_each (iteration mk n) k gs s = (r, s') →
  Connection.closed (db s') = Connection.closed (db s).
Proof.
  induction gs as [|g gs IH]; intros k s r s'; simpl.
  - by intros [= <- <-].
  - unfold Driver.bind at 1. rewrite bind_unfold.
    destruct (perform config (mk k g) s) as [[[]|e] s1] eqn:Hperform;
      apply perform_closed in Hperform.
    + simpl. intros Hloop. apply IH in Hloop. by rewrite Hloop.
    + by intros [= <- <-].
Qed.

(** [run] never closes the connection. *)
Lemma run_closed s r s' :
  run config s = (r, s') → Connection.closed (db s') = Connection.closed (db s).
Proof.
  intros Hrun. unfold run in Hrun. rewrite bind_unfold in Hrun.
  unfold select in Hrun at 1.
  destruct (region config _) as [gs|e] eqn:Hregion; [|by injection Hrun as <- <-].
  unfold print_info, Driver.modify in Hrun.
  rewrite bind_unfold in Hrun. simpl in Hrun. rewrite bind_unfold in Hrun.
  destruct (perform config create_poi_table _) as [[[]|e] s1] eqn:Hcreate;
    apply perform_closed in Hcreate; simpl in Hcreate.
  2: { by injection Hrun as <- <-. }
  rewrite bind_unfold in Hrun. simpl in Hrun. rewrite bind_unfold in Hrun.
  destruct (for_each (iteration classify_gtfs_stop_sql (length gs)) 0 gs _)
    as [[[]|e] s2] eqn:Hpass1; apply loop_closed in Hpass1; simpl in Hpass1.
  2: { injection Hrun as <- <-. congruence. }
  do 2 (rewrite bind_unfold in Hrun; simpl in Hrun). rewrite bind_unfold in Hrun.
  destruct (perform config remaining_stops_sql _) as [[[]|e] s3] eqn:Hremaining;
    apply perform_closed in Hremaining; simpl in Hremaining.
  2: { injection Hrun as <- <-. congruence. }
  do 2 (rewrite bind_unfold in Hrun; simpl in Hrun).
  apply loop_closed in Hrun. simpl in Hrun. congruence.
Qed.

(** Without a failure of the database the first loop returns. *)
Lemma pass1_loop_total n gs : ∀ k s,
  Connection.failed (db s) = false →
  in_tuple_accepted (gtfs_route_types config) = true →
  (∀ i g, (k ≤ i < k + length gs)%nat → fault config (classify_gtfs_stop_sql i g) = None) →
  ∃ s', for_each (iteration classify_gtfs_stop_sql n) k gs s = (Return (), s').
Proof.
  induction gs as [|g gs IH]; intros k s Hopen Haccepted Hfault; simpl; [by eexists|].
  unfold Driver.bind at 1. rewrite bind_unfold, perform_open by done.
  unfold run_statement, effect. rewrite Hfault, Haccepted by (simpl; lia). simpl.
  apply IH; [done..|]. intros i g' Hi. apply Hfault. simpl. lia.
Qed.

(** A failure of the statement of one polygon ends [run] with that
    exception: the statements of the polygons after it are never sent and
    the connection stays open. *)
Lemma run_raises_in_pass1 t before g after e :
  region config t = Return (before ++ g :: after) →
  fault config create_poi_table = None →
  in_tuple_accepted (gtfs_route_types config) = true →
  (∀ i g', (i < length before)%nat → fault config (classify_gtfs_stop_sql i g') = None) →
  fault config (classify_gtfs_stop_sql (length before) g) = Some e →
  ∃ s', run config (connected t) = (Raise e, s')
        ∧ issued s' = [create_poi_table] ++ imap classify_gtfs_stop_sql (before ++ [g])
        ∧ Connection.closed (db s') = false.
Proof.
  intros Hregion Hcreate Haccepted Hbefore Hfault.
  unfold run. rewrite bind_unfold. unfold select at 1. simpl. rewrite Hregion.
  unfold print_info, Driver.modify.
  rewrite bind_unfold. simpl. rewrite bind_unfold, perform_open by done.
  unfold run_statement at 1, effect at 1. rewrite Hcreate. simpl.
  rewrite bind_unfold. simpl. rewrite bind_unfold, for_each_app, bind_unfold.
  edestruct (pass1_loop_total (length (before ++ g :: after)) before 0) as [s1 Hloop];
    [| |by intros; apply Hbefore; lia|rewrite Hloop]; [done..|].
  pose proof (loop_issued _ _ _ _ _ _ _ Hloop) as (sent & Hissued & _ & Hsent).
  specialize (Hsent eq_refl). subst sent. simpl in Hissued.
  pose proof (loop_closed _ _ _ _ _ _ _ Hloop) as Hclosed. simpl in Hclosed.
  apply (loop_returns classify_gtfs_stop_sql
           (λ t g, classify_gtfs_stop (gtfs_route_types config) (stops t)
                     (stop_times_optimized t) g)) in Hloop as (Hopen & _);
    [|apply classify_gtfs_stop_sql_effect|done..].
  simpl. unfold Driver.bind at 1. rewrite bind_unfold, perform_open by done.
  unfold run_statement at 1. rewrite Hfault. eexists. split; [reflexivity|]. simpl.
  split; [|done]. rewrite Hissued, imap_app. simpl. by rewrite Nat.add_0_r.
Qed.

(** [prepare_public_transport_stop] leaves the connection closed exactly
    when [run] returns. *)
Lemma prepare_closes_on_return t :
  let result := prepare_public_transport_stop config (connected t) in
  result.1 = (run config (connected t)).1
  ∧ (Connection.closed (db result.2) = true ↔ result.1 = Return ()).
Proof.
  unfold prepare_public_transport_stop. rewrite bind_unfold.
  destruct (run config (connected t)) as [[[]|e] s'] eqn:Hrun;
    apply run_closed in Hrun; simpl in *.
  - done.
  - split; [done|]. rewrite Hrun. split; discriminate.
Qed.
End TransitDriverFacts.


(** ** The address split *)

Section RegexFacts.
Import Regex.

Lemma append_empty_r (s : string) : s +:+ "" = s.
Proof.
  induction s as [|c s IH]; [done|].
  change (String c (s +:+ "") = String c s). by rewrite IH.
Qed.

Lemma string_of_rev_walk s passed tail :
  string_of_rev (walk s passed) tail = string_of_rev passed (s +:+ tail).
Proof.
  revert passed. induction s as [|c s IH]; intros passed; simpl; [done|].
  by rewrite IH.
Qed.

Lemma walk_app s passed : walk s passed = walk s [] ++ passed.
Proof.
  revert passed. induction s as [|c s IH]; intros passed; simpl; [done|].
  rewrite IH, (IH [c]), <- app_assoc. done.
Qed.

Lemma length_walk s : length (walk s []) = String.length s.
Proof.
  induction s as [|c s IH]; simpl; [done|].
  rewrite walk_app, length_app, IH. simpl. lia.
Qed.

(** The text of a group that opened at [passed] and closed after walking
    over [s]. *)
Lemma between_walk s passed ahead1 ahead2 grp1 grp2 :
  between {| passed := passed; ahead := ahead1; group := grp1 |}
          {| passed := walk s passed; ahead := ahead2; group := grp2 |} = s.
Proof.
  unfold between. simpl. rewrite walk_app, length_app, length_walk.
  replace (String.length s + length passed - length passed)%nat
    with (length (walk s [])) by (rewrite length_walk; lia).
  rewrite take_app_length, string_of_rev_walk, append_empty_r. done.
Qed.

(** A greedy [.] starred followed by something that only accepts the end of
    the subject walks to the end. *)
Lemma star_any_to_end {R} (k : cursor → option R) grp : ∀ rest passed,
  (∀ pos, ahead pos ≠ "" → k pos = None) →
  star any passed rest grp k
  = k {| passed := walk rest passed; ahead := ""; group := grp |}.
Proof.
  induction rest as [|c rest IH]; intros passed Hend; simpl; [done|].
  rewrite IH by done.
  destruct (k {| passed := walk rest (c :: passed); ahead := ""; group := grp |});
    [done|].
  by apply Hend.
Qed.

Lemma housenumber_no_match {R} (pos : cursor) (k : cursor → option R) :
  at_boundary (ahead pos) = false → matches housenumber_pattern pos k = None.
Proof.
  destruct pos as [before [|a [|b rest]] grp]; simpl; try done.
  - by destruct (space a).
  - destruct (space a); [|done]. simpl. by intros ->.
Qed.

Lemma housenumber_match (pos : cursor) :
  at_boundary (ahead pos) = true →
  matches housenumber_pattern pos Some ≫= group = Some (ahead pos).
Proof.
  destruct pos as [before [|a [|b rest]] grp]; simpl; try done.
  intros [Ha Hb]%andb_true_iff. rewrite Ha, Hb.
  rewrite star_any_to_end; [|by intros [? [|] ?]]. simpl.
  f_equal. exact (between_walk (String a (String b rest)) before _ _ _ _).
Qed.

(** The house-number pattern matches from the first boundary to the end of
    the subject. *)
Lemma search_housenumber : ∀ s before,
  search housenumber_pattern before s ≫= group = snd <$> split_at_first_boundary s.
Proof.
  induction s as [|c s IH]; intros before; [done|].
  cbn [search split_at_first_boundary].
  destruct (at_boundary (String c s)) eqn:Hb.
  - pose proof (housenumber_match
                  {| passed := before; ahead := String c s; group := None |} Hb) as Hm.
    destruct (matches housenumber_pattern _ Some); [exact Hm|discriminate].
  - rewrite housenumber_no_match by done.
    rewrite IH. by destruct (split_at_first_boundary s).
Qed.

Lemma street_anchored : ∀ s before,
  before ≠ [] → search street_pattern before s = None.
Proof.
  induction s as [|c s IH]; intros before Hne; simpl.
  - by destruct before.
  - destruct before; [done|]. by apply IH.
Qed.

(** A greedy [.] starred before the lookahead stops at the last boundary;
    [text] computes the text of the group from the position reached. *)
Lemma star_any_last_boundary (text : cursor → string) : ∀ s before,
  match split_at_last_boundary s with
  | Some halves =>
      ∃ found,
        star any before s None
          (λ pos, matches (Ahead (Cat (Class space) (Class digit)))
                    {| passed := passed pos; ahead := ahead pos;
                       group := Some (text pos) |} Some)
        = Some found
        ∧ group found
          = Some (text {| passed := walk halves.1 before; ahead := halves.2;
                          group := None |})
  | None =>
      star any before s None
        (λ pos, matches (Ahead (Cat (Class space) (Class digit)))
                  {| passed := passed pos; ahead := ahead pos;
                     group := Some (text pos) |} Some)
      = None
  end.
Proof.
  induction s as [|c s IH]; intros before; [done|].
  cbn [split_at_last_boundary star any]. specialize (IH (c :: before)).
  destruct (split_at_last_boundary s) as [[p r]|].
  - destruct IH as (found & -> & Hgroup). exists found. done.
  - rewrite IH. destruct (at_boundary (String c s)) eqn:Hb.
    + destruct s as [|d s]; [done|]. simpl in Hb. apply andb_true_iff in Hb as [Hc Hd].
      simpl. rewrite Hc, Hd. eexists. split; [done|]. done.
    + destruct s as [|d s]; simpl; [by destruct (space c)|].
      simpl in Hb. destruct (space c); [|done]. simpl in Hb. by rewrite Hb.
Qed.

(** The street pattern matches the text before the last boundary. *)
Lemma search_street s :
  search street_pattern [] s ≫= group = fst <$> split_at_last_boundary s.
Proof.
  pose proof (star_any_last_boundary
                (between {| passed := []; ahead := s; group := None |}) s []) as Hstar.
  assert (matches street_pattern {| passed := []; ahead := s; group := None |} Some
          = star any [] s None
              (λ pos, matches (Ahead (Cat (Class space) (Class digit)))
                        {| passed := passed pos; ahead := ahead pos;
                           group := Some (between {| passed := []; ahead := s;
                                                     group := None |} pos) |} Some))
    as Hm by reflexivity.
  destruct s as [|c s]; [done|].
  cbn [search]. rewrite Hm.
  destruct (split_at_last_boundary (String c s)) as [[p r]|].
  - destruct Hstar as (found & -> & Hgroup). simpl. rewrite Hgroup. f_equal.
    apply between_walk.
  - rewrite Hstar. by rewrite street_anchored.
Qed.

Lemma split_cons c rest p r :
  String c rest = p +:+ r →
  (p = "" ∧ r = String c rest) ∨ ∃ p', p = String c p' ∧ rest = p' +:+ r.
Proof.
  destruct p as [|c' p']; [by left|].
  intros Heq. change (String c rest = String c' (p' +:+ r)) in Heq.
  injection Heq as -> ->. right. eauto.
Qed.

Lemma split_at_first_boundary_spec : ∀ s p h,
  split_at_first_boundary s = Some (p, h) →
  s = p +:+ h ∧ at_boundary h = true
  ∧ ∀ p' r', s = p' +:+ r' → at_boundary r' = true →
             (String.length p ≤ String.length p')%nat.
Proof.
  induction s as [|c s IH]; intros p h; [done|]. cbn [split_at_first_boundary].
  destruct (at_boundary (String c s)) eqn:Hb.
  - intros [= <- <-]. split_and!; [done..|]. intros; simpl; lia.
  - destruct (split_at_first_boundary s) as [[p0 h0]|]; [|done].
    intros [= <- <-]. destruct (IH p0 h0 eq_refl) as (-> & Hh & Hfirst).
    split_and!; [done..|]. intros p' r' Heq Hr'.
    apply split_cons in Heq as [[-> ->]|(p'' & -> & Heq)]; [congruence|].
    simpl. apply le_n_S. by eapply Hfirst.
Qed.

Lemma split_at_last_boundary_spec : ∀ s p r,
  split_at_last_boundary s = Some (p, r) →
  s = p +:+ r ∧ at_boundary r = true
  ∧ ∀ p' r', s = p' +:+ r' → at_boundary r' = true →
             (String.length p' ≤ String.length p)%nat.
Proof.
  induction s as [|c s IH]; intros p r; [done|]. cbn [split_at_last_boundary].
  destruct (split_at_last_boundary s) as [[p0 r0]|] eqn:Hrest.
  - intros [= <- <-]. destruct (IH p0 r0 eq_refl) as (-> & Hr & Hlast).
    split_and!; [done..|]. intros p' r' Heq Hr'.
    apply split_cons in Heq as [[-> ->]|(p'' & -> & Heq)]; simpl; [lia|].
    apply le_n_S. by eapply Hlast.
  - destruct (at_boundary (String c s)) eqn:Hb; [|done].
    intros [= <- <-]. split_and!; [done..|]. intros p' r' Heq Hr'.
    apply split_cons in Heq as [[-> ->]|(p'' & -> & Heq)]; simpl; [lia|].
    exfalso. clear IH Hb. revert p'' Heq.
    induction s as [|d s IHs]; intros p'' Heq.
    + destruct p''; [|done]. change ("" = r') in Heq. by subst.
    + cbn [split_at_last_boundary] in Hrest.
      destruct (split_at_last_boundary s) eqn:Hs; [done|].
      apply split_cons in Heq as [[-> ->]|(p3 & -> & Heq)].
      * by rewrite Hr' in Hrest.
      * by eapply IHs.
Qed.

Lemma split_at_first_boundary_None : ∀ s,
  split_at_first_boundary s = None ↔ ∀ p r, s = p +:+ r → at_boundary r = false.
Proof.
  induction s as [|c s IH]; cbn [split_at_first_boundary].
  - split; [|done]. intros _ [|? ?] r Heq; [|done].
    change ("" = r) in Heq. by subst.
  - destruct (at_boundary (String c s)) eqn:Hb.
    + split; [done|]. intros Hnone. by rewrite (Hnone "" (String c s)) in Hb.
    + destruct (split_at_first_boundary s) as [halves|]; simpl.
      * split; [done|]. intros Hnone. exfalso.
        assert (Some halves = None) as Habs; [|done].
        apply IH. intros p r ->. by apply (Hnone (String c p)).
      * split; [|done]. intros _ p r Heq.
        apply split_cons in Heq as [[-> ->]|(p' & -> & Heq)]; [done|].
        destruct IH as [IH _]. by eapply IH.
Qed.

Lemma split_at_last_boundary_None : ∀ s,
  split_at_last_boundary s = None ↔ split_at_first_boundary s = None.
Proof.
  induction s as [|c s IH]; cbn [split_at_last_boundary split_at_first_boundary]; [done|].
  destruct (at_boundary (String c s)) eqn:Hb.
  - by destruct (split_at_last_boundary s).
  - destruct (split_at_last_boundary s), (split_at_first_boundary s); simpl;
      destruct IH as [IH1 IH2]; split; intros Heq; try done;
      try (by specialize (IH1 eq_refl)); try (by specialize (IH2 eq_refl)).
Qed.

Lemma housenumber_split address :
  Places.housenumber (Some address)
  = (λ halves : string * string, trim halves.2) <$> split_at_first_boundary address.
Proof.
  unfold Places.housenumber, substring. simpl. rewrite search_housenumber.
  by destruct (split_at_first_boundary address).
Qed.

Lemma street_split address :
  Places.street (Some address)
  = (λ halves : string * string, trim halves.1) <$> split_at_last_boundary address.
Proof.
  unfold Places.street, substring. simpl. rewrite search_street.
  by destruct (split_at_last_boundary address).
Qed.

(** The two halves of an address in general: the house number is the
    trimmed text from the first whitespace that a digit follows to the end of
    the address; the street is the trimmed text before the last such
    whitespace; both are NULL when the address has no such whitespace.
    ["Main Street 42"] splits into ["Main Street"] and ["42"]. *)
Theorem address_split_at_boundaries (address : string) :
  (∀ number, Places.housenumber (Some address) = Some number →
     ∃ p r, address = p +:+ r ∧ number = trim r ∧ at_boundary r = true
            ∧ ∀ p' r', address = p' +:+ r' → at_boundary r' = true →
                       (String.length p ≤ String.length p')%nat)
  ∧ (∀ name, Places.street (Some address) = Some name →
     ∃ p r, address = p +:+ r ∧ name = trim p ∧ at_boundary r = true
            ∧ ∀ p' r', address = p' +:+ r' → at_boundary r' = true →
                       (String.length p' ≤ String.length p)%nat)
  ∧ (Places.street (Some address) = None ↔ Places.housenumber (Some address) = None)
  ∧ (Places.housenumber (Some address) = None ↔
     ∀ p r, address = p +:+ r → at_boundary r = false)
  ∧ Places.street (Some "Main Street 42") = Some "Main Street"
  ∧ Places.housenumber (Some "Main Street 42") = Some "42".
Proof.
  rewrite housenumber_split, street_split. split_and!.
  - intros number Hnumber.
    destruct (split_at_first_boundary address) as [[p r]|] eqn:Hsplit; [|done].
    injection Hnumber as <-. apply split_at_first_boundary_spec in Hsplit as (? & ? & ?).
    by exists p, r.
  - intros name Hname.
    destruct (split_at_last_boundary address) as [[p r]|] eqn:Hsplit; [|done].
    injection Hname as <-. apply split_at_last_boundary_spec in Hsplit as (? & ? & ?).
    by exists p, r.
  - rewrite !fmap_None. apply split_at_last_boundary_None.
  - rewrite fmap_None. apply split_at_first_boundary_None.
  - by vm_compute.
  - by vm_compute.
Qed.
End RegexFacts.

(** ** The region filter *)

Section RegionFilterFacts.
Context `{Places.Spark}.
Import Places.

Lemma and3_true a b : and3 a b = Some true ↔ a = Some true ∧ b = Some true.
Proof. destruct a as [[]|], b as [[]|]; simpl; naive_solver. Qed.

Lemma inside_strictly box r : inside box r = Some true ↔ strictly_inside box r.
Proof.
  unfold inside, strictly_inside, gt, lt. rewrite !and3_true. split.
  - intros [[[H1 H2] H3] H4].
    destruct (r !! "bbox") as [bbox|]; [|done]. simpl in *.
    destruct (struct_field "minx" bbox) as [minx|] eqn:E1; [|done].
    destruct (struct_field "miny" bbox) as [miny|] eqn:E2; [|done].
    destruct (struct_field "maxx" bbox) as [maxx|] eqn:E3; [|done].
    destruct (struct_field "maxy" bbox) as [maxy|] eqn:E4; [|done].
    simpl in *. exists bbox, minx, miny, maxx, maxy. repeat split; congruence.
  - intros (bbox & minx & miny & maxx & maxy & -> & H1 & H2 & H3 & H4 & ? & ? & ? & ?).
    simpl. rewrite H1, H2, H3, H4. simpl. repeat split; congruence.
Qed.

Lemma boundary_not_inside box r :
  (∀ x, less x x = false) → on_boundary box r → inside box r ≠ Some true.
Proof.
  intros Hirrefl (bbox & Hbbox & Hside) Hinside.
  apply inside_strictly in Hinside
    as (bbox' & minx & miny & maxx & maxy & Hbbox' & H1 & H2 & H3 & H4 & L1 & L2 & L3 & L4).
  rewrite Hbbox in Hbbox'. injection Hbbox' as <-.
  destruct Hside as [Hs|[Hs|[Hs|Hs]]]; rewrite Hs in *; simplify_eq;
    rewrite Hirrefl in *; discriminate.
Qed.




Lemma selectExpr_returns df es :
  (∃ projected, selectExpr df es = Return projected)
  ↔ ∀ e, e ∈ es → referenced e ∈ columns df.
Proof.
  unfold selectExpr. split.
  - intros [projected Hselect] e He.
    destruct (List.find _ es) eqn:Hfind; [done|].
    apply list_elem_of_In in He. eapply find_none in Hfind; [|done].
    apply bool_decide_eq_false in Hfind. by apply dec_stable.
  - intros Hresolved. destruct (List.find _ es) as [e|] eqn:Hfind; [|by eexists].
    apply find_some in Hfind as [He Hmissing]. apply list_elem_of_In in He.
    apply bool_decide_eq_true in Hmissing. by destruct Hmissing; apply Hresolved.
Qed.

Lemma foldl_withColumn (names : list string) : ∀ df,
  (∀ name, name ∈ names → name ∈ columns df) →
  foldl (λ acc column_name,
           places ← acc;
           if decide (column_name = "updatetime")
           then withColumn column_name cast_timestamp places
           else withColumn column_name to_json places)
        (Return df) names
  = Return {| columns := columns df;
              rows := (λ r, foldl (λ converted column_name,
                                     with_cell column_name
                                       (if decide (column_name = "updatetime")
                                        then cast_timestamp else to_json) converted)
                              r names) <$> rows df |}.
Proof.
  induction names as [|name names IH]; intros df Hin; simpl.
  - rewrite list_fmap_id. by destruct df.
  - assert (name ∈ columns df) as Hname by (apply Hin; left).
    assert (∀ f, withColumn name f df
                 = Return {| columns := columns df; rows := with_cell name f <$> rows df |})
      as Hwith by (intros f; unfold withColumn; by rewrite decide_True).
    destruct (decide (name = "updatetime")); rewrite Hwith, IH; simpl;
      try (intros other Hother; apply Hin; by right);
      by rewrite <- list_fmap_compose.
Qed.

Lemma outcome_bind_Return {A B} (a : A) (k : A → outcome B) : Return a ≫= k = k a.
Proof. reflexivity. Qed.

Lemma complex_columns_resolved df box name :
  (∀ e, e ∈ selected → referenced e ∈ columns df) →
  name ∈ "geometry" :: complex_columns →
  name ∈ columns (drop "bbox" (filter_rows (inside box) df)).
Proof.
  intros Hresolved Hname. simpl.
  assert (name ≠ "bbox" ∧ ∃ e, e ∈ selected ∧ referenced e = name) as [Hne (e & He & <-)].
  { revert Hname. unfold complex_columns. rewrite !elem_of_cons. intros Hname.
    repeat destruct Hname as [->|Hname]; try (by apply elem_of_nil in Hname);
      (split; [done|]);
      [ exists (as_text_as "geometry" "geometry")
      | match goal with |- ∃ e, _ ∧ referenced e = ?n => exists (column n) end .. ];
      (split; [compute_done|done]). }
  apply list_elem_of_filter. split; [done|]. by apply Hresolved.
Qed.

(** What [filter_region_places] returns, and when. *)
Lemma filter_region_places_returns df box out :
  filter_region_places df box = Return out ↔
  (∀ e, e ∈ selected → referenced e ∈ columns df)
  ∧ out = {| columns := filter (λ c, c ≠ "bbox") (columns df);
             rows := convert_row <$> filter (λ r, inside box r = Some true) (rows df) |}.
Proof.
  unfold filter_region_places. cbv zeta.
  assert ((∀ e, e ∈ selected → referenced e ∈ columns df) →
          (places ← foldl (λ acc column_name,
                             places ← acc;
                             if decide (column_name = "updatetime")
                             then withColumn column_name cast_timestamp places
                             else withColumn column_name to_json places)
                      (Return (drop "bbox" (filter_rows (inside box) df))) complex_columns;
           withColumn "geometry" ST_AsText places)
          = Return {| columns := filter (λ c, c ≠ "bbox") (columns df);
                      rows := convert_row
                              <$> filter (λ r, inside box r = Some true) (rows df) |})
    as Hconverted.
  { intros Hresolved. rewrite foldl_withColumn
      by (intros name Hname; apply complex_columns_resolved; [done|by right]).
    rewrite outcome_bind_Return. unfold withColumn.
    rewrite decide_True by (apply (complex_columns_resolved df box); [done|by left]).
    f_equal. simpl. f_equal. by rewrite <- !list_fmap_compose. }
  split.
  - intros Hreturn.
    destruct (selectExpr df selected) as [projected|e] eqn:Hselect; [|done].
    assert (∀ e, e ∈ selected → referenced e ∈ columns df) as Hresolved
      by (apply selectExpr_returns; eauto).
    split; [done|]. rewrite outcome_bind_Return in Hreturn.
    rewrite Hconverted in Hreturn by done. by injection Hreturn.
  - intros [Hresolved ->].
    apply selectExpr_returns in Hresolved as Hselect. destruct Hselect as [projected ->].
    rewrite outcome_bind_Return. by apply Hconverted.
Qed.

(** C3: every row the region filter emits comes from a source row whose
    box satisfies the four strict comparisons, and a source row with a side
    of its box on the boundary of the target box is not emitted
    (comparison on doubles being irreflexive). *)
Theorem region_filter_strict_containment df box out :
  filter_region_places df box = Return out →
  rows out = convert_row <$> filter (λ r, inside box r = Some true) (rows df)
  ∧ (∀ emitted, emitted ∈ rows out →
       ∃ r, r ∈ rows df ∧ emitted = convert_row r ∧ strictly_inside box r)
  ∧ ((∀ x, less x x = false) →
     ∀ r, on_boundary box r → r ∉ filter (λ r, inside box r = Some true) (rows df)).
Proof.
  intros [_ ->]%filter_region_places_returns. simpl. split_and!; [done| |].
  - intros emitted (r & -> & Hr)%list_elem_of_fmap.
    apply list_elem_of_filter in Hr as [Hinside Hr]. exists r.
    by rewrite <- inside_strictly.
  - intros Hirrefl r Hboundary [Hinside _]%list_elem_of_filter.
    by eapply boundary_not_inside.
Qed.

End RegionFilterFacts.

(** ** The driver of the places collection *)

Section PlacesDriverFacts.
Context `{Engine} `{Places.Spark} (base : Places.Base).
Import Places.

Lemma execute_open stmt s :
  Connection.failed (db_local s) = false →
  execute base stmt s =
    match run_statement base stmt (Connection.pending (db_local s)) with
    | Return d =>
        (Return (),
         {| db_local := {| Connection.committed := Connection.committed (db_local s);
                           Connection.pending := d;
                           Connection.failed := false;
                           Connection.closed := Connection.closed (db_local s) |};
            db_remote := db_remote s; log := log s; issued := issued s ++ [stmt] |})
    | Raise e =>
        (Raise e,
         {| db_local := {| Connection.committed := Connection.committed (db_local s);
                           Connection.pending := Connection.pending (db_local s);
                           Connection.failed := true;
                           Connection.closed := Connection.closed (db_local s) |};
            db_remote := db_remote s; log := log s; issued := issued s ++ [stmt] |})
    end.
Proof.
  intros Hopen.
  cbv [execute send on_local Connection.execute mbind M_bind Driver.bind Driver.modify].
  simpl. rewrite Hopen.
  by destruct (run_statement base stmt _).
Qed.

(** One iteration always returns: a failure of the statement is printed
    and rolled back. *)
Lemma clip_run n k g s :
  Connection.failed (db_local s) = false →
  Connection.committed (db_local s) = Connection.pending (db_local s) →
  clip base n k g s =
    (Return (),
     {| db_local :=
          (let t := match run_statement base (clip_poi_overture_sql k g)
                            (Connection.pending (db_local s)) with
                    | Return inserted => inserted
                    | Raise _ => Connection.pending (db_local s)
                    end in
           {| Connection.committed := t; Connection.pending := t;
              Connection.failed := false;
              Connection.closed := Connection.closed (db_local s) |});
        db_remote := db_remote s;
        log := log s ++ clip_log base n k [g] (Connection.pending (db_local s));
        issued := issued s ++ [clip_poi_overture_sql k g] |}).
Proof.
  intros Hopen Hsame. unfold clip, try_except.
  rewrite bind_unfold, (bind_unfold (execute _ _)), execute_open by done.
  cbn [clip_log].
  destruct (run_statement base (clip_poi_overture_sql k g) _) as [d|e]; simpl.
  - done.
  - unfold write_log, Driver.modify. simpl. rewrite Hsame, <- app_assoc. done.
Qed.

(** The places loop: whatever statements fail, the loop returns, having
    sent the statement of every polygon. *)
Lemma clip_loop n gs : ∀ k s,
  Connection.failed (db_local s) = false →
  Connection.committed (db_local s) = Connection.pending (db_local s) →
  ∃ s', for_each (clip base n) k gs s = (Return (), s')
        ∧ Connection.failed (db_local s') = false
        ∧ Connection.closed (db_local s') = Connection.closed (db_local s)
        ∧ Connection.committed (db_local s')
          = clip_all base k gs (Connection.pending (db_local s))
        ∧ Connection.pending (db_local s') = Connection.committed (db_local s')
        ∧ db_remote s' = db_remote s
        ∧ log s' = log s ++ clip_log base n k gs (Connection.pending (db_local s))
        ∧ issued s' = issued s ++ imap (λ i, clip_poi_overture_sql (k + i)) gs.
Proof.
  induction gs as [|g gs IH]; intros k s Hopen Hsame.
  - exists s. simpl. rewrite !app_nil_r. by split_and!.
  - cbn [for_each]. unfold Driver.bind. rewrite clip_run by done.
    edestruct (IH (S k)) as (s' & -> & Hopen' & Hclosed & Hcommitted & Hpending
                             & Hremote & Hlog & Hissued); [done..|].
    exists s'. simpl in *. split_and!; try done.
    + rewrite Hlog, <- app_assoc. f_equal.
      by destruct (run_statement base (clip_poi_overture_sql k g) _).
    + rewrite Hissued, <- app_assoc. simpl. rewrite Nat.add_0_r. do 2 f_equal.
      apply imap_ext. intros i g' _. simpl. f_equal. lia.
Qed.

Lemma perform_returns stmt s s' :
  perform base stmt s = (Return (), s') →
  ∃ d, run_statement base stmt (Connection.pending (db_local s)) = Return d
       ∧ Connection.committed (db_local s') = d
       ∧ Connection.pending (db_local s') = d
       ∧ Connection.failed (db_local s') = false.
Proof.
  cbv [perform send on_local Connection.perform Connection.execute Connection.commit
       mbind M_bind Driver.bind Driver.modify].
  simpl. destruct (Connection.failed (db_local s)); [done|].
  destruct (run_statement base stmt _) as [d|e]; [|done].
  intros [= <-]. by exists d.
Qed.

(** Once the loop and the migration after it have completed, the output
    table has a primary key on [id] and no identifier occurs twice in
    it. *)
Theorem places_id_unique s s' :
  alter_tables base s = (Return (), s') →
  NoDup (p_id <$> places (Connection.committed (db_local s')))
  ∧ places_pkey (Connection.committed (db_local s')) = true.
Proof.
  unfold alter_tables, print_info. intros Hrun.
  do 7 (apply bind_returns in Hrun as (? & ? & _ & Hrun)).
  apply bind_returns in Hrun as ([] & s1 & Hconvert & Hinfo).
  unfold Driver.modify in Hinfo. injection Hinfo as <-. simpl.
  apply perform_returns in Hconvert as (d & Hstmt & -> & _).
  unfold run_statement, effect in Hstmt.
  destruct (fault base convert_to_regular_table_sql); [done|].
  destruct (decide (NoDup _)) as [Hunique|]; [|done].
  by injection Hstmt as <-.
Qed.

Lemma collect_poi_overture_unfold s :
  collect_poi_overture base s
  = let closing (c : session) (entry : entry) :=
      {| db_local := {| Connection.committed := Connection.committed (db_local c);
                        Connection.pending := Connection.committed (db_local c);
                        Connection.failed := false; Connection.closed := true |};
         db_remote := {| Connection.committed := Connection.committed (db_remote c);
                         Connection.pending := Connection.committed (db_remote c);
                         Connection.failed := false; Connection.closed := true |};
         log := log c ++ [entry]; issued := issued c |} in
    match run base (print_info "Collect Overture places data for region." s).2 with
    | (Return _, s1) =>
        (Return (), closing s1 (info "Finished Overture places collection."))
    | (Raise e, s1) => (Raise e, closing s1 (error e))
    end.
Proof.
  cbv [collect_poi_overture try_finally try_except mbind M_bind Driver.bind print_info
       write_log on_local on_remote Connection.close Driver.modify Driver.raise].
  cbn [fst snd]. by destruct (run base _) as [[[]|e] s1].
Qed.

(** [collect_poi_overture] closes both connections whatever [run] does, and
    its outcome is the outcome of [run]: an exception is logged and raised
    again. *)
Lemma collect_poi_overture_closes s :
  let started := (print_info "Collect Overture places data for region." s).2 in
  let result := collect_poi_overture base s in
  Connection.closed (db_local result.2) = true
  ∧ Connection.closed (db_remote result.2) = true
  ∧ result.1 = (run base started).1
  ∧ ∀ e, (run base started).1 = Raise e → error e ∈ log result.2.
Proof.
  intros started result. subst result. rewrite collect_poi_overture_unfold.
  fold started. destruct (run base started) as [[[]|e] s1]; cbn [fst snd].
  - split_and!; [done..|]. intros e. discriminate.
  - split_and!; [done..|]. intros ? [= <-]. simpl.
    apply elem_of_app. right. by left.
Qed.
End PlacesDriverFacts.

(** ** Failure of a polygon and closing of the connections *)

Section PlacesCompletion.
Context `{Engine} `{Places.Spark} (base : Places.Base).
Import Places.

Lemma perform_open_places stmt s :
  Connection.failed (db_local s) = false →
  perform base stmt s =
    match run_statement base stmt (Connection.pending (db_local s)) with
    | Return d =>
        (Return (),
         {| db_local := {| Connection.committed := d; Connection.pending := d;
                           Connection.failed := false;
                           Connection.closed := Connection.closed (db_local s) |};
            db_remote := db_remote s; log := log s; issued := issued s ++ [stmt] |})
    | Raise e =>
        (Raise e,
         {| db_local := {| Connection.committed := Connection.committed (db_local s);
                           Connection.pending := Connection.pending (db_local s);
                           Connection.failed := true;
                           Connection.closed := Connection.closed (db_local s) |};
            db_remote := db_remote s; log := log s; issued := issued s ++ [stmt] |})
    end.
Proof.
  intros Hopen.
  cbv [perform send on_local Connection.perform Connection.execute Connection.commit
       mbind M_bind Driver.bind Driver.modify].
  simpl. rewrite Hopen.
  by destruct (run_statement base stmt _).
Qed.

(** Without a failure of the database every polygon adds its rows. *)
Lemma clip_all_no_fault gs : ∀ k t,
  (∀ stmt, fault base stmt = None) →
  places_pkey t = false →
  clip_all base k gs t
  = {| places_raw_no_geom := places_raw_no_geom t; places_raw := places_raw t;
       places := places t ++ (gs ≫= clip_poi_overture (places_raw t));
       places_pkey := false |}.
Proof.
  induction gs as [|g gs IH]; intros k t Hfault Hpkey; cbn [clip_all].
  - destruct t. simpl in *. subst. by rewrite app_nil_r.
  - unfold run_statement, effect. rewrite Hfault, Hpkey. simpl.
    rewrite IH by done. simpl. by rewrite <- app_assoc.
Qed.

(** When the database meets no failure of its own, [alter_tables] completes
    exactly when no identifier is inserted twice, that is, when no staged
    place is clipped by two polygons; otherwise the primary key is refused
    and the rows stay in the table without it. *)
Lemma alter_tables_outcome s gs raws :
  Connection.failed (db_local s) = false →
  (∀ stmt, fault base stmt = None) →
  region base (Connection.pending (db_local s)) = Return gs →
  mapM with_geometry (places_raw_no_geom (Connection.pending (db_local s))) = Some raws →
  ∃ s', alter_tables base s
        = (if decide (NoDup (p_id <$> (gs ≫= clip_poi_overture raws)))
           then Return () else Raise (UniqueViolation "places"), s')
        ∧ places (Connection.committed (db_local s')) = gs ≫= clip_poi_overture raws
        ∧ places_pkey (Connection.committed (db_local s'))
          = bool_decide (NoDup (p_id <$> (gs ≫= clip_poi_overture raws))).
Proof.
  intros Hopen Hfault Hregion Hraws.
  unfold alter_tables, print_info, select.
  rewrite bind_unfold. unfold Driver.modify at 1. rewrite bind_unfold. cbn [db_local].
  rewrite Hregion. rewrite bind_unfold, perform_open_places by done.
  unfold run_statement at 1, effect at 1. rewrite Hfault. cbn [db_local Connection.pending].
  rewrite Hraws. rewrite bind_unfold. unfold Driver.modify at 1.
  rewrite bind_unfold, perform_open_places by done.
  unfold run_statement at 1, effect at 1. rewrite Hfault.
  rewrite bind_unfold. unfold Driver.modify at 1. rewrite bind_unfold.
  edestruct (clip_loop base (length gs) gs 1) as (s1 & -> & Hopen1 & _ & Hcommitted
                                                  & Hpending & _); [done..|].
  cbn [db_local Connection.pending] in Hcommitted.
  rewrite clip_all_no_fault in Hcommitted by done. cbn in Hcommitted.
  rewrite bind_unfold, perform_open_places by done.
  unfold run_statement at 1, effect at 1. rewrite Hfault, Hpending, Hcommitted.
  cbn [places].
  destruct (decide (NoDup _)) as [Hunique|Hdup].
  - unfold Driver.modify. eexists. split_and!; [done..|].
    by rewrite bool_decide_eq_true_2.
  - eexists. split_and!; [done..|]. simpl.
    by rewrite bool_decide_eq_false_2.
Qed.
End PlacesCompletion.

(** A failing statement ends either transit loop at once. *)
Lemma transit_loop_raises `{Engine} (config : Transit.Config)
    (mk : nat → geometry → Transit.statement) n k g rest s e :
  Connection.failed (Transit.db s) = false →
  Transit.run_statement config (mk k g) (Connection.pending (Transit.db s)) = Raise e →
  ∃ s', for_each (λ i geom, Transit.perform config (mk i geom);;
                            Transit.write_log (progress (i + 1) n)) k (g :: rest) s
        = (Raise e, s')
        ∧ Transit.issued s' = Transit.issued s ++ [mk k g]
        ∧ Transit.log s' = Transit.log s
        ∧ Connection.committed (Transit.db s') = Connection.committed (Transit.db s).
Proof.
  intros Hopen Hstmt. cbn [for_each]. unfold Driver.bind.
  rewrite bind_unfold, perform_open, Hstmt by done. by eexists.
Qed.

(** C2 (as amended): in the places loop the failure of a polygon's
    statement is printed and rolled back and the loop goes on: it returns
    having sent the statement of every polygon, the tables holding the rows of
    the polygons whose statement succeeded.  In the transit loops nothing
    catches the failure: the loop, and with it the run, ends with the
    exception, and the statements of the polygons after it are never sent. *)
Theorem polygon_failure_policy `{Engine} `{Places.Spark} :
  (∀ (base : Places.Base) n gs k s,
     Connection.failed (Places.db_local s) = false →
     Connection.committed (Places.db_local s) = Connection.pending (Places.db_local s) →
     ∃ s', for_each (Places.clip base n) k gs s = (Return (), s')
           ∧ Connection.failed (Places.db_local s') = false
           ∧ Connection.committed (Places.db_local s')
             = Places.clip_all base k gs (Connection.pending (Places.db_local s))
           ∧ Places.log s'
             = Places.log s
               ++ Places.clip_log base n k gs (Connection.pending (Places.db_local s))
           ∧ Places.issued s'
             = Places.issued s ++ imap (λ i, Places.clip_poi_overture_sql (k + i)) gs)
  ∧ (∀ (config : Transit.Config) (mk : nat → geometry → Transit.statement) n k g rest s e,
       Connection.failed (Transit.db s) = false →
       Transit.run_statement config (mk k g) (Connection.pending (Transit.db s)) = Raise e →
       ∃ s', for_each (λ i geom, Transit.perform config (mk i geom);;
                                 Transit.write_log (progress (i + 1) n)) k (g :: rest) s
             = (Raise e, s')
             ∧ Transit.issued s' = Transit.issued s ++ [mk k g])
  ∧ (∀ (config : Transit.Config) t before g after e,
       Transit.region config t = Return (before ++ g :: after) →
       Transit.fault config Transit.create_poi_table = None →
       Transit.in_tuple_accepted (Transit.gtfs_route_types config) = true →
       (∀ i g', (i < length before)%nat →
                Transit.fault config (Transit.classify_gtfs_stop_sql i g') = None) →
       Transit.fault config (Transit.classify_gtfs_stop_sql (length before) g) = Some e →
       ∃ s', Transit.run config (Transit.connected t) = (Raise e, s')
             ∧ Transit.issued s'
               = [Transit.create_poi_table]
                 ++ imap Transit.classify_gtfs_stop_sql (before ++ [g])).
Proof.
  split_and!.
  - intros base n gs k s Hopen Hsame.
    destruct (clip_loop base n gs k s Hopen Hsame)
      as (s' & ? & ? & ? & ? & ? & ? & ? & ?).
    exists s'. by split_and!.
  - intros config mk n k g rest s e Hopen Hstmt.
    destruct (transit_loop_raises config mk n k g rest s e Hopen Hstmt)
      as (s' & ? & ? & ?).
    by exists s'.
  - intros config t before g after e Hregion Hcreate Haccepted Hbefore Hfault.
    destruct (run_raises_in_pass1 config t before g after e) as (s' & ? & ? & ?); [done..|].
    by exists s'.
Qed.

(** C8 (as amended): [collect_poi_overture] closes both connections in its
    [finally] clause, whether [run] returns or raises, and raises the
    exception of [run] again after logging it.
    [prepare_public_transport_stop] has no such clause: it closes its
    connection after [run] has returned, and an exception of [run] leaves it
    with the connection open. *)
Theorem connections_closed `{Engine} `{Places.Spark} :
  (∀ (base : Places.Base) s,
     let started := (Places.print_info "Collect Overture places data for region." s).2 in
     let result := Places.collect_poi_overture base s in
     Connection.closed (Places.db_local result.2) = true
     ∧ Connection.closed (Places.db_remote result.2) = true
     ∧ result.1 = (Places.run base started).1
     ∧ ∀ e, (Places.run base started).1 = Raise e → error e ∈ Places.log result.2)
  ∧ (∀ (config : Transit.Config) t,
       let result := Transit.prepare_public_transport_stop config (Transit.connected t) in
       result.1 = (Transit.run config (Transit.connected t)).1
       ∧ (Connection.closed (Transit.db result.2) = true ↔ result.1 = Return ())).
Proof.
  split.
  - intros base s. apply collect_poi_overture_closes.
  - intros config t. apply prepare_closes_on_return.
Qed.


(** * Further properties *)

(** ** The rows of one statement *)

Section TransitRows.
Context `{Engine}.
Import Transit.

(** A row of pass 1 is the row of the group of some categorized stop. *)
Lemma classify_gtfs_stop_row cls stops times g row :
  row ∈ classify_gtfs_stop cls stops times g →
  ∃ cat c,
    (cat, c) ∈ categorized_gtfs_stops cls times (clipped_gfts_stops stops g)
    ∧ category row = cat
    ∧ name row = c_name c
    ∧ source row = None
    ∧ field_text "parent_station" (tags row) = field_text "parent_station" (c_tags c)
    ∧ source_identifiers row
      = (λ x : option string * clipped, field_text "stop_id" (c_tags x.2))
        <$> filter (λ x, group_key x = group_key (cat, c))
              (categorized_gtfs_stops cls times (clipped_gfts_stops stops g)).
Proof.
  unfold classify_gtfs_stop. rewrite list_elem_of_fmap.
  intros ([k grp] & -> & Hin). apply elem_of_group_by in Hin as [Hk ->].
  apply list_elem_of_fmap in Hk as ([cat c] & -> & Hin).
  exists cat, c. cbn [fst snd category name source tags].
  split_and!; [done..| |].
  - unfold field_text at 1. simpl. apply as_text_of_text.
  - apply (source_identifiers_pass1 (group_key (cat, c))).
Qed.

Lemma classify_remaining_row cls remaining times g row :
  row ∈ classify_remaining cls remaining times g →
  ∃ cat c,
    (cat, c) ∈ categorized_gtfs_stops cls times (clipped_remaining remaining g)
    ∧ category row = cat
    ∧ name row = c_name c
    ∧ source row = None
    ∧ field_text "parent_station" (tags row) = None
    ∧ source_identifiers row
      = (λ x : option string * clipped, field_text "stop_id" (c_tags x.2))
        <$> filter (λ x, group_key_remaining x = group_key_remaining (cat, c))
              (categorized_gtfs_stops cls times (clipped_remaining remaining g)).
Proof.
  unfold classify_remaining. rewrite list_elem_of_fmap.
  intros ([k grp] & -> & Hin). apply elem_of_group_by in Hin as [Hk ->].
  apply list_elem_of_fmap in Hk as ([cat c] & -> & Hin).
  exists cat, c. cbn [fst snd category name source tags].
  split_and!; [done..|].
  apply (source_identifiers_pass2 (group_key_remaining (cat, c))).
Qed.

Lemma elem_of_clipped_remaining remaining g c :
  c ∈ clipped_remaining remaining g ↔
  ∃ s, s ∈ remaining ∧ ST_Intersects (geom s) g = true
       ∧ c = {| c_name := stop_name s; c_geom := geom s;
                c_tags := JObject [("stop_id", JString (stop_id s));
                                   ("h3_3", JNumber (h3_3 s))] |}.
Proof.
  unfold clipped_remaining. rewrite list_elem_of_fmap. split.
  - intros (s & -> & Hs). apply list_elem_of_filter in Hs as [Hg Hs]. by exists s.
  - intros (s & Hs & Hg & ->). exists s. split; [done|]. by apply list_elem_of_filter.
Qed.

(** X1: a row that aggregates a stop carries the category mapped from a
    route type that a fact row gives to that stop, in the stop's cell, the
    route type being a key of the classification table; this holds in both
    passes, so a stop without such a fact row is aggregated by no row. *)
Theorem aggregated_stop_has_route_type cls times g x :
  (∀ stops row,
     row ∈ classify_gtfs_stop cls stops times g → mentions x row →
     ∃ c rt, c ∈ clipped_gfts_stops stops g
             ∧ field_text "stop_id" (c_tags c) = Some x
             ∧ qualifies cls times c rt
             ∧ category row = mapped_category cls rt)
  ∧ (∀ remaining row,
       row ∈ classify_remaining cls remaining times g → mentions x row →
       ∃ c rt, c ∈ clipped_remaining remaining g
               ∧ field_text "stop_id" (c_tags c) = Some x
               ∧ qualifies cls times c rt
               ∧ category row = mapped_category cls rt)
  ∧ ((∀ o, o ∈ times → st_stop_id o = x → ¬ Sql.in_list (route_type o) (route_type_keys cls)) →
     ∀ stops remaining row,
       row ∈ classify_gtfs_stop cls stops times g ++ classify_remaining cls remaining times g →
       ¬ mentions x row).
Proof.
  split_and!.
  - intros stops row. apply classify_gtfs_stop_origin.
  - intros remaining row. apply classify_remaining_origin.
  - intros Hnone stops remaining row Hrow Hx.
    assert (∃ c rt, field_text "stop_id" (c_tags c) = Some x ∧ qualifies cls times c rt)
      as (c & rt & Hid & Hkey & o & Ho & Hrt & Hstop & _).
    { apply elem_of_app in Hrow as [Hrow|Hrow].
      - destruct (classify_gtfs_stop_origin _ _ _ _ _ _ Hrow Hx) as (c & rt & _ & ? & ? & _).
        by exists c, rt.
      - destruct (classify_remaining_origin _ _ _ _ _ _ Hrow Hx) as (c & rt & _ & ? & ? & _).
        by exists c, rt. }
    apply (Hnone o Ho); [congruence|].
    rewrite Hrt. simpl. by apply elem_of_route_type_keys.
Qed.

(** X2: a row of pass 1 is the row of one parent station clipped by the
    polygon: it bears the parent's name, its parent linkage is the parent's
    identifier, its source is NULL, and every stop it aggregates is a stop
    clipped by the polygon that refers to this parent. *)
Theorem pass1_row_is_one_station cls stops times g row :
  row ∈ classify_gtfs_stop cls stops times g →
  source row = None
  ∧ ∃ p, p ∈ stops ∧ parent_station p = None ∧ ST_Intersects (geom p) g = true
         ∧ name row = stop_name p
         ∧ field_text "parent_station" (tags row) = Some (stop_id p)
         ∧ ∀ x, mentions x row →
             ∃ s, s ∈ stops ∧ stop_id s = x
                  ∧ parent_station s = Some (stop_id p)
                  ∧ ST_Intersects (geom s) g = true.
Proof.
  intros (cat & c & Hin & _ & Hname & Hsource & Hlinkage & Hids)%classify_gtfs_stop_row.
  split; [done|].
  apply elem_of_categorized in Hin as [Hc _].
  apply elem_of_clipped_gfts_stops in Hc as (s & p & Hs & Hp & Hsg & Hpg & Hroot & Hparent & ->).
  exists p. split_and!; [done..| |].
  - rewrite Hlinkage. unfold field_text. simpl. by rewrite as_text_of_text.
  - intros x Hx. unfold mentions in Hx. rewrite Hids in Hx.
    apply list_elem_of_fmap in Hx as ([cat' c'] & Hid & Hgrp).
    apply list_elem_of_filter in Hgrp as [Hkey Hin'].
    apply elem_of_categorized in Hin' as [Hc' _].
    apply elem_of_clipped_gfts_stops in Hc'
      as (s' & p' & Hs' & _ & Hsg' & _ & _ & Hparent' & ->).
    unfold group_key, field_text in Hkey, Hid. simpl in Hkey, Hid.
    rewrite !as_text_of_text in Hkey. injection Hid as ->.
    exists s'. split_and!; [done..| |done]. congruence.
Qed.

(** X3: the rows one statement inserts have pairwise distinct grouping
    keys, (category, parent linkage, name) in pass 1 and (category, name) in
    pass 2, and none of them has an empty array of stop identifiers. *)
Theorem grouped_rows_are_distinct cls stops remaining times g :
  NoDup ((λ row, (category row, field_text "parent_station" (tags row), name row))
         <$> classify_gtfs_stop cls stops times g)
  ∧ NoDup ((λ row, (category row, name row)) <$> classify_remaining cls remaining times g)
  ∧ ∀ row, row ∈ classify_gtfs_stop cls stops times g
                 ++ classify_remaining cls remaining times g →
           source_identifiers row ≠ [].
Proof.
  split_and!.
  - unfold classify_gtfs_stop, Sql.group_by. rewrite <- !list_fmap_compose.
    erewrite list_fmap_ext; [rewrite list_fmap_id; apply NoDup_remove_dups|].
    intros i [[cat linkage] nm] _. unfold field_text. simpl. by rewrite as_text_of_text.
  - unfold classify_remaining, Sql.group_by. rewrite <- !list_fmap_compose.
    erewrite list_fmap_ext; [rewrite list_fmap_id; apply NoDup_remove_dups|].
    by intros i [cat nm] _.
  - intros row [Hrow|Hrow]%elem_of_app.
    + apply classify_gtfs_stop_row in Hrow as (cat & c & Hin & _ & _ & _ & _ & ->).
      intros Hnil%fmap_nil_inv.
      assert ((cat, c) ∈ @nil (option string * clipped)) as Hnot; [|by apply elem_of_nil in Hnot].
      rewrite <- Hnil. by apply list_elem_of_filter.
    + apply classify_remaining_row in Hrow as (cat & c & Hin & _ & _ & _ & _ & ->).
      intros Hnil%fmap_nil_inv.
      assert ((cat, c) ∈ @nil (option string * clipped)) as Hnot; [|by apply elem_of_nil in Hnot].
      rewrite <- Hnil. by apply list_elem_of_filter.
Qed.

(** X4: pass 2 merges the remaining stops of a polygon that bear the same
    name and share a category into one row, whatever else tells them apart;
    pass 1 does so with the stops of one parent station. *)
Theorem same_name_same_row cls times g cat c1 c2 :
  c_name c1 = c_name c2 →
  cat ∈ lateral cls times c1 → cat ∈ lateral cls times c2 →
  (∀ remaining,
     c1 ∈ clipped_remaining remaining g → c2 ∈ clipped_remaining remaining g →
     ∃ row, row ∈ classify_remaining cls remaining times g
            ∧ category row = cat ∧ name row = c_name c1
            ∧ field_text "stop_id" (c_tags c1) ∈ source_identifiers row
            ∧ field_text "stop_id" (c_tags c2) ∈ source_identifiers row)
  ∧ (∀ stops,
       c1 ∈ clipped_gfts_stops stops g → c2 ∈ clipped_gfts_stops stops g →
       field_text "parent_station" (c_tags c1) = field_text "parent_station" (c_tags c2) →
       ∃ row, row ∈ classify_gtfs_stop cls stops times g
              ∧ category row = cat ∧ name row = c_name c1
              ∧ field_text "stop_id" (c_tags c1) ∈ source_identifiers row
              ∧ field_text "stop_id" (c_tags c2) ∈ source_identifiers row).
Proof.
  intros Hname Hcat1 Hcat2. split.
  - intros remaining Hc1 Hc2.
    set (rows := categorized_gtfs_stops cls times (clipped_remaining remaining g)).
    assert ((cat, c1) ∈ rows ∧ (cat, c2) ∈ rows) as [H1 H2]
      by (split; by apply elem_of_categorized).
    eexists. split.
    + unfold classify_remaining. apply list_elem_of_fmap. eexists. split; [reflexivity|].
      apply elem_of_group_by. split; [|reflexivity].
      apply list_elem_of_fmap. by exists (cat, c1).
    + cbn [fst snd category name]. split_and!; [done..| |].
      * rewrite (source_identifiers_pass2 (group_key_remaining (cat, c1))).
        apply list_elem_of_fmap. exists (cat, c1). split; [done|].
        by apply list_elem_of_filter.
      * rewrite (source_identifiers_pass2 (group_key_remaining (cat, c1))).
        apply list_elem_of_fmap. exists (cat, c2). split; [done|].
        apply list_elem_of_filter. split; [|done].
        unfold group_key_remaining. simpl. by rewrite Hname.
  - intros stops Hc1 Hc2 Hparent.
    set (rows := categorized_gtfs_stops cls times (clipped_gfts_stops stops g)).
    assert ((cat, c1) ∈ rows ∧ (cat, c2) ∈ rows) as [H1 H2]
      by (split; by apply elem_of_categorized).
    eexists. split.
    + unfold classify_gtfs_stop. apply list_elem_of_fmap. eexists. split; [reflexivity|].
      apply elem_of_group_by. split; [|reflexivity].
      apply list_elem_of_fmap. by exists (cat, c1).
    + cbn [fst snd category name]. split_and!; [done..| |].
      * rewrite (source_identifiers_pass1 (group_key (cat, c1))).
        apply list_elem_of_fmap. exists (cat, c1). split; [done|].
        by apply list_elem_of_filter.
      * rewrite (source_identifiers_pass1 (group_key (cat, c1))).
        apply list_elem_of_fmap. exists (cat, c2). split; [done|].
        apply list_elem_of_filter. split; [|done].
        unfold group_key. simpl. by rewrite Hname, Hparent.
Qed.

End TransitRows.
(** ** The residual set as a list *)

Section ResidualSet.
Context `{Engine}.
Import Transit.

Lemma filter_eq_NoDup {A} `{EqDecision A} (v : A) (l : list A) :
  NoDup l →
  List.filter (λ b, bool_decide (b = v)) l = if decide (v ∈ l) then [v] else [].
Proof.
  induction 1 as [|a l Ha Hl IH]; cbn [List.filter].
  - destruct (decide (v ∈ [])) as [Hin|]; [by apply elem_of_nil in Hin|done].
  - rewrite IH. destruct (decide (a = v)) as [->|Hne].
    + rewrite bool_decide_eq_true_2 by done.
      destruct (decide (v ∈ l)); [done|].
      destruct (decide (v ∈ v :: l)) as [|Hnot]; [done|]. destruct Hnot. by left.
    + rewrite bool_decide_eq_false_2 by done.
      destruct (decide (v ∈ l)) as [Hin|Hnot], (decide (v ∈ a :: l)) as [Hin'|Hnot'];
        try done.
      * destruct Hnot'. by right.
      * apply elem_of_cons in Hin' as [->|?]; done.
Qed.

Lemma remaining_stops_filter stops table :
  remaining_stops stops table
  = filter (λ s, Some (stop_id s) ∉ processed_staions table) stops.
Proof.
  unfold remaining_stops, Sql.left_join.
  induction stops as [|s stops IH]; [done|].
  rewrite bind_cons, filter_app, fmap_app, IH, filter_cons. f_equal.
  rewrite (filter_eq_NoDup (Some (stop_id s)) (processed_staions table))
    by apply NoDup_remove_dups.
  destruct (decide (Some (stop_id s) ∈ processed_staions table)) as [Hin|Hnot].
  - by rewrite decide_False by (intros Hnot; done).
  - by rewrite decide_True.
Qed.

(** X5: [temporal.remaining_stations] holds, each as often as it is in
    [basic.stops], the rows of [basic.stops] whose identifier is not among the
    processed ones: the left join never doubles a stop, the processed
    identifiers being distinct.  When the output table is empty, every stop
    remains. *)
Theorem remaining_stops_keeps_unprocessed_rows stops table :
  remaining_stops stops table
  ≡ₚ filter (λ s, Some (stop_id s) ∉ processed_staions table) stops
  ∧ remaining_stops stops [] ≡ₚ stops.
Proof.
  rewrite !remaining_stops_filter. split; [done|].
  assert (filter (λ s, Some (stop_id s) ∉ processed_staions []) stops = stops) as ->; [|done].
  induction stops as [|s stops IH]; [done|].
  rewrite filter_cons, decide_True, IH; [done|].
  unfold processed_staions. simpl. apply not_elem_of_nil.
Qed.

(** No stop is aggregated in both passes: the rows of pass 2, computed
    from the residual set of the rows [pass1], aggregate no stop that a row
    of [pass1] aggregates. *)
Lemma passes_disjoint cls stops times (pass1 : list poi) g row1 row2 x :
  row1 ∈ pass1 →
  row2 ∈ classify_remaining cls (remaining_stops stops pass1) times g →
  mentions x row1 → ¬ mentions x row2.
Proof.
  intros Hrow1 Hrow2 Hx1 Hx2.
  destruct (classify_remaining_origin _ _ _ _ _ _ Hrow2 Hx2) as (c & rt & Hc & Hid & _).
  apply elem_of_clipped_remaining in Hc as (s & Hs & _ & ->).
  unfold field_text in Hid. simpl in Hid. injection Hid as <-.
  apply elem_of_remaining_stops in Hs as (_ & _ & Hnone).
  by apply (Hnone row1).
Qed.
End ResidualSet.
(** ** Runs of the transit preparation *)

Section TransitRuns.
Context `{Engine} (config : Transit.Config).
Import Transit.

(** A loop whose statements all succeed returns. *)
Lemma loop_total (mk : nat → geometry → statement) n gs : ∀ k s,
  (∀ i g t, (k ≤ i < k + length gs)%nat →
            ∃ d, run_statement config (mk i g) t = Return d) →
  Connection.failed (db s) = false →
  ∃ s', for_each (λ i geom, perform config (mk i geom);;
                            write_log (progress (i + 1) n)) k gs s = (Return (), s')
        ∧ Connection.failed (db s') = false.
Proof.
  induction gs as [|g gs IH]; intros k s Htotal Hopen; simpl; [by eexists|].
  unfold Driver.bind at 1. rewrite bind_unfold, perform_open by done.
  destruct (Htotal k g (Connection.pending (db s))) as [d ->]; [simpl; lia|]. simpl.
  apply IH; [|done]. intros i g' t Hi. apply Htotal. simpl. lia.
Qed.




(** X7: no stop is aggregated in both passes: when [run] returns, the
    output table holds the rows of pass 1 followed by those of pass 2, and a
    stop identifier in the array of a row of pass 1 is in the array of no row
    of pass 2. *)
Theorem passes_share_no_stop t s' :
  run config (connected t) = (Return (), s') →
  ∃ gs, region config t = Return gs
    ∧ let cls := gtfs_route_types config in
      let pass1 := gs ≫= classify_gtfs_stop cls (stops t) (stop_times_optimized t) in
      let pass2 := gs ≫= classify_remaining cls (remaining_stops (stops t) pass1)
                           (stop_times_optimized t) in
      poi_public_transport_stop (Connection.committed (db s')) = pass1 ++ pass2
      ∧ ∀ x row1 row2, row1 ∈ pass1 → row2 ∈ pass2 →
                       mentions x row1 → ¬ mentions x row2.
Proof.
  intros (gs & Hregion & _ & _ & Htables)%run_returns. exists gs. split; [done|].
  cbv zeta in *. rewrite Htables. split; [done|].
  intros x row1 row2 Hrow1 Hrow2 Hx1.
  apply list_elem_of_bind in Hrow2 as (g & Hrow2 & _).
  exact (passes_disjoint _ _ _ _ g row1 row2 x Hrow1 Hrow2 Hx1).
Qed.

(** A run in which the statement of the polygon after [before] fails in
    pass 1. *)
Lemma run_fails_in_pass1 t before g after e :
  region config t = Return (before ++ g :: after) →
  fault config create_poi_table = None →
  (∀ i g' t', (i < length before)%nat →
              ∃ d, run_statement config (classify_gtfs_stop_sql i g') t' = Return d) →
  (∀ t', run_statement config (classify_gtfs_stop_sql (length before) g) t' = Raise e) →
  ∃ s', run config (connected t) = (Raise e, s')
        ∧ issued s' = [create_poi_table] ++ imap classify_gtfs_stop_sql (before ++ [g])
        ∧ poi_public_transport_stop (Connection.committed (db s'))
          = before ≫= classify_gtfs_stop (gtfs_route_types config) (stops t)
                        (stop_times_optimized t)
        ∧ Connection.failed (db s') = true
        ∧ Connection.closed (db s') = false.
Proof.
  intros Hregion Hcreate Hbefore Hfails.
  unfold run. rewrite bind_unfold. unfold select at 1. simpl. rewrite Hregion.
  unfold print_info, Driver.modify.
  rewrite bind_unfold. simpl. rewrite bind_unfold, perform_open by done.
  unfold run_statement at 1, effect at 1. rewrite Hcreate. simpl.
  rewrite bind_unfold. simpl. rewrite bind_unfold, for_each_app, bind_unfold.
  edestruct (loop_total classify_gtfs_stop_sql (length (before ++ g :: after)) before 0)
    as (s1 & Hloop & Hopen1);
    [intros i g' t' Hi; apply Hbefore; lia| |rewrite Hloop]; [done|].
  pose proof (loop_issued _ _ _ _ _ _ _ _ Hloop) as (sent & Hissued & _ & Hsent).
  specialize (Hsent eq_refl). subst sent. simpl in Hissued.
  pose proof (loop_closed _ _ _ _ _ _ _ _ Hloop) as Hclosed. simpl in Hclosed.
  apply (loop_returns config classify_gtfs_stop_sql
           (λ t g, classify_gtfs_stop (gtfs_route_types config) (stops t)
                     (stop_times_optimized t) g)) in Hloop as (_ & _ & Hcommitted & _);
    [|apply classify_gtfs_stop_sql_effect|done..].
  simpl. unfold Driver.bind at 1. rewrite bind_unfold, perform_open by done.
  rewrite Hfails. eexists. split; [reflexivity|]. simpl.
  split_and!; [|by rewrite Hcommitted|done..].
  rewrite Hissued, imap_app. simpl. by rewrite Nat.add_0_r.
Qed.

(** X8: the tuple of classification keys is spliced into the statement as
    Python prints it, so with fewer than two keys the list after [IN] is
    [()] or [(k,)]: [run] raises a syntax error at the first polygon of
    pass 1, having inserted nothing. *)
Theorem few_route_types_is_a_syntax_error t g rest :
  region config t = Return (g :: rest) →
  fault config create_poi_table = None →
  fault config (classify_gtfs_stop_sql 0 g) = None →
  (length (route_type_keys (gtfs_route_types config)) < 2)%nat →
  ∃ s', run config (connected t) = (Raise SyntaxError, s')
        ∧ issued s' = [create_poi_table; classify_gtfs_stop_sql 0 g]
        ∧ poi_public_transport_stop (Connection.committed (db s')) = [].
Proof.
  intros Hregion Hcreate Hfault Hkeys.
  destruct (run_fails_in_pass1 t [] g rest SyntaxError) as (s' & Hrun & Hissued & Hrows & _);
    [done|done|simpl; intros; lia| |by exists s'].
  intros t'. unfold run_statement, effect, in_tuple_accepted. simpl. rewrite Hfault.
  by rewrite bool_decide_eq_false_2 by lia.
Qed.

End TransitRuns.
(** ** The rows of the places table *)

Section DistinctOn.
Context {A K : Type} `{EqDecision K}.

Lemma elem_of_distinct_on_from (key : A → K) rows : ∀ seen x,
  x ∈ Sql.distinct_on_from seen key rows → x ∈ rows ∧ key x ∉ seen.
Proof.
  induction rows as [|row rows IH]; intros seen x; simpl; [by intros ?%elem_of_nil|].
  destruct (decide (key row ∈ seen)) as [Hseen|Hnew].
  - intros [? ?]%IH. split; [by right|done].
  - intros [->|[? Hx]%IH]%elem_of_cons; [split; [by left|done]|].
    split; [by right|]. intros ?. apply Hx. by right.
Qed.

Lemma distinct_on_from_covers (key : A → K) rows : ∀ seen x,
  x ∈ rows → key x ∉ seen → key x ∈ key <$> Sql.distinct_on_from seen key rows.
Proof.
  induction rows as [|row rows IH]; intros seen x; simpl; [by intros ?%elem_of_nil|].
  intros Hx Hnew. destruct (decide (key row ∈ seen)) as [Hseen|Hrow].
  - apply IH; [|done]. apply elem_of_cons in Hx as [->|Hx]; done.
  - rewrite fmap_cons. destruct (decide (key x = key row)) as [->|Hne]; [by left|].
    right. apply IH.
    + apply elem_of_cons in Hx as [->|Hx]; done.
    + intros [?|?]%elem_of_cons; done.
Qed.

Lemma NoDup_distinct_on_from (key : A → K) rows : ∀ seen,
  NoDup (key <$> Sql.distinct_on_from seen key rows).
Proof.
  induction rows as [|row rows IH]; intros seen; simpl; [constructor|].
  destruct (decide (key row ∈ seen)); [apply IH|].
  rewrite fmap_cons. constructor; [|apply IH].
  intros (x & Hkey & [_ Hx]%elem_of_distinct_on_from)%list_elem_of_fmap.
  apply Hx. rewrite <- Hkey. by left.
Qed.
End DistinctOn.

Section PlacesRows.
Context `{Engine}.
Import Places.

Lemma elem_of_clip_ids raws g id :
  id ∈ p_id <$> clip_poi_overture raws g ↔
  ∃ r, r ∈ raws ∧ r_id r = id ∧ ST_Intersects (r_geometry r) g = true.
Proof.
  unfold clip_poi_overture, new_pois, Sql.distinct_on.
  rewrite <- list_fmap_compose. split.
  - intros (r & -> & [Hr _]%elem_of_distinct_on_from)%list_elem_of_fmap.
    apply list_elem_of_filter in Hr as [? ?]. by exists r.
  - intros (r & Hr & <- & Hg).
    apply (distinct_on_from_covers r_id _ [] r); [|apply not_elem_of_nil].
    by apply list_elem_of_filter.
Qed.

Lemma NoDup_clip_ids raws g : NoDup (p_id <$> clip_poi_overture raws g).
Proof.
  unfold clip_poi_overture, new_pois, Sql.distinct_on.
  rewrite <- list_fmap_compose. apply (NoDup_distinct_on_from r_id).
Qed.

(** X10: the statement of one polygon inserts one row for every identifier
    of a staged place that intersects the polygon, and no other row: the
    identifiers it inserts are pairwise distinct, and every row is extracted
    from a staged place that intersects the polygon. *)
Theorem clip_inserts_each_place_once raws g :
  NoDup (p_id <$> clip_poi_overture raws g)
  ∧ (∀ id, id ∈ p_id <$> clip_poi_overture raws g ↔
           ∃ r, r ∈ raws ∧ r_id r = id ∧ ST_Intersects (r_geometry r) g = true)
  ∧ (∀ p, p ∈ clip_poi_overture raws g →
          ∃ r, r ∈ raws ∧ ST_Intersects (r_geometry r) g = true ∧ p = extract r).
Proof.
  split_and!; [apply NoDup_clip_ids|apply elem_of_clip_ids|].
  unfold clip_poi_overture, new_pois, Sql.distinct_on.
  intros p (r & -> & [Hr _]%elem_of_distinct_on_from)%list_elem_of_fmap.
  apply list_elem_of_filter in Hr as [? ?]. by exists r.
Qed.

(** X11: [other_categories] holds the texts of the first two alternate
    categories that are neither NULL nor empty, in their order: it has at
    most two entries, never an empty one, and a third alternate is never
    taken. *)
Theorem other_categories_are_the_first_two categories :
  let alternate i := ((categories ≫= field "alternate") ≫= index i) ≫= as_text in
  other_categories categories
  = filter (λ c, c ≠ "") (omap id [alternate 0%nat; alternate 1%nat])
  ∧ (length (other_categories categories) ≤ 2)%nat
  ∧ ∀ c, c ∈ other_categories categories ↔
         c ≠ "" ∧ (alternate 0%nat = Some c ∨ alternate 1%nat = Some c).
Proof.
  intros alternate.
  assert (other_categories categories
          = filter (λ c, c ≠ "") (omap id [alternate 0%nat; alternate 1%nat])) as ->.
  { unfold other_categories. fold alternate. case_bool_decide as Hsome; [done|].
    destruct (alternate 0%nat) eqn:H0; [destruct Hsome; left; by eexists|].
    destruct (alternate 1%nat) eqn:H1; [destruct Hsome; right; by eexists|]. done. }
  split_and!; [done| |].
  - etrans; [apply length_filter|]. destruct (alternate 0%nat), (alternate 1%nat); simpl; lia.
  - intros c. rewrite list_elem_of_filter, list_elem_of_omap. split.
    + intros [Hne (x & Hx & Hc)]. simpl in Hc. subst x. split; [done|].
      apply elem_of_cons in Hx as [Hx|Hx]; [by left|].
      apply list_elem_of_singleton in Hx. by right.
    + intros [Hne Hc]. split; [done|]. exists (Some c). split; [|done].
      destruct Hc as [<-|<-]; [by left|right; by left].
Qed.
End PlacesRows.
(** ** Runs of the places collection *)

Section PlacesRuns.
Context `{Engine} `{Places.Spark} (base : Places.Base).
Import Places.

Lemma elem_of_fmap_bind {A B C} (f : B → C) (k : A → list B) (l : list A) x :
  x ∈ f <$> (l ≫= k) ↔ ∃ a, a ∈ l ∧ x ∈ f <$> k a.
Proof.
  induction l as [|a l IH].
  - split; [by intros ?%elem_of_nil|by intros (? & ?%elem_of_nil & _)].
  - rewrite bind_cons, fmap_app, elem_of_app, IH. split.
    + intros [?|(a' & ? & ?)]; [exists a; split; [by left|done]|].
      exists a'. split; [by right|done].
    + intros (a' & [->|?]%elem_of_cons & ?); [by left|right; by exists a'].
Qed.

Lemma with_geometry_ids staged raws :
  mapM with_geometry staged = Some raws → r_id <$> raws = r_id <$> staged.
Proof.
  rewrite mapM_Some. induction 1 as [|r r' staged raws Hr _ IH]; [done|].
  rewrite !fmap_cons, IH. f_equal.
  unfold with_geometry in Hr. apply fmap_Some in Hr as (g & _ & ->). done.
Qed.

(** With distinct staged identifiers, the rows of all polygons have
    distinct identifiers exactly when no staged place intersects two of the
    polygons. *)
Lemma NoDup_clipped_ids raws gs :
  NoDup (r_id <$> raws) →
  NoDup (p_id <$> (gs ≫= clip_poi_overture raws)) ↔
  ∀ r, r ∈ raws →
       (length (filter (λ g, ST_Intersects (r_geometry r) g = true) gs) ≤ 1)%nat.
Proof.
  intros Hids. induction gs as [|g gs IH].
  - split; [intros _ r _; simpl; lia|intros _; constructor].
  - rewrite bind_cons, fmap_app, NoDup_app, IH. split.
    + intros (_ & Hdisjoint & Hrest) r Hr. rewrite filter_cons.
      destruct (decide (ST_Intersects (r_geometry r) g = true)) as [Hg|]; [|by apply Hrest].
      simpl. destruct (filter _ gs) as [|g' others] eqn:Hfilter; [simpl; lia|exfalso].
      assert (g' ∈ filter (λ g, ST_Intersects (r_geometry r) g = true) gs) as Hg'
        by (rewrite Hfilter; left).
      apply list_elem_of_filter in Hg' as [Hg' Hin].
      apply (Hdisjoint (r_id r)); [apply elem_of_clip_ids; by exists r|].
      apply elem_of_fmap_bind. exists g'. split; [done|].
      apply elem_of_clip_ids. by exists r.
    + intros Hone. split_and!; [apply NoDup_clip_ids| |].
      * intros id (r & Hr & <- & Hg)%elem_of_clip_ids.
        intros (g' & Hg' & Hid)%elem_of_fmap_bind.
        apply elem_of_clip_ids in Hid as (r' & Hr' & Heq & Hrg').
        assert (r' = r) as -> by (by eapply NoDup_fmap_eq).
        specialize (Hone r Hr). rewrite filter_cons, decide_True in Hone by done.
        assert (g' ∈ filter (λ g, ST_Intersects (r_geometry r) g = true) gs) as Hin
          by (by apply list_elem_of_filter).
        destruct (filter _ gs); [by apply elem_of_nil in Hin|simpl in Hone; lia].
      * intros r Hr. specialize (Hone r Hr). rewrite filter_cons in Hone.
        destruct (decide _); simpl in Hone; lia.
Qed.

(** X12: with distinct staged identifiers and no other failure of the
    database, [alter_tables] completes exactly when no staged place
    intersects two polygons of the region; otherwise it raises a unique
    violation on the primary key.  Either way the output table holds a row
    for exactly the identifiers of the staged places that intersect some
    polygon. *)
Theorem alter_tables_needs_disjoint_clips s gs raws :
  Connection.failed (db_local s) = false →
  (∀ stmt, fault base stmt = None) →
  region base (Connection.pending (db_local s)) = Return gs →
  mapM with_geometry (places_raw_no_geom (Connection.pending (db_local s))) = Some raws →
  NoDup (r_id <$> places_raw_no_geom (Connection.pending (db_local s))) →
  let result := alter_tables base s in
  (result.1 = Return () ↔
   ∀ r, r ∈ raws →
        (length (filter (λ g, ST_Intersects (r_geometry r) g = true) gs) ≤ 1)%nat)
  ∧ (result.1 = Return () ∨ result.1 = Raise (UniqueViolation "places"))
  ∧ ∀ id, id ∈ p_id <$> places (Connection.committed (db_local result.2)) ↔
          ∃ r g, r ∈ raws ∧ g ∈ gs ∧ r_id r = id
                 ∧ ST_Intersects (r_geometry r) g = true.
Proof.
  intros Hopen Hfault Hregion Hraws Hids result.
  destruct (alter_tables_outcome base s gs raws) as (s' & Hrun & Hplaces & _); [done..|].
  subst result. rewrite Hrun. cbn [fst snd]. rewrite Hplaces.
  rewrite <- (with_geometry_ids _ _ Hraws) in Hids.
  rewrite <- (NoDup_clipped_ids raws gs Hids). split_and!.
  - destruct (decide (NoDup _)); split; done.
  - destruct (decide (NoDup _)); [by left|by right].
  - intros id. rewrite elem_of_fmap_bind. split.
    + intros (g & Hg & (r & ? & ? & ?)%elem_of_clip_ids). by exists r, g.
    + intros (r & g & ? & ? & ? & ?). exists g. split; [done|].
      apply elem_of_clip_ids. by exists r.
Qed.
(** C6: the deduplication works within the statement of one polygon only.
    With distinct staged identifiers and no other failure of the database, a
    staged place that intersects two polygons of the region is inserted by
    the statements of both: after the loop the output table holds an
    identifier twice, the migration raises a unique violation instead of
    completing, and the table is left without primary key. *)
Theorem shared_place_is_inserted_twice s gs raws r :
  Connection.failed (db_local s) = false →
  (∀ stmt, fault base stmt = None) →
  region base (Connection.pending (db_local s)) = Return gs →
  mapM with_geometry (places_raw_no_geom (Connection.pending (db_local s))) = Some raws →
  NoDup (r_id <$> places_raw_no_geom (Connection.pending (db_local s))) →
  r ∈ raws →
  (2 ≤ length (filter (λ g, ST_Intersects (r_geometry r) g = true) gs))%nat →
  let result := alter_tables base s in
  let table := Connection.committed (db_local result.2) in
  result.1 = Raise (UniqueViolation "places")
  ∧ places table = gs ≫= clip_poi_overture raws
  ∧ ¬ NoDup (p_id <$> places table)
  ∧ places_pkey table = false
  ∧ ∀ g, NoDup (p_id <$> clip_poi_overture raws g).
Proof.
  intros Hopen Hfault Hregion Hraws Hids Hr Htwice result table.
  destruct (alter_tables_outcome base s gs raws) as (s' & Hrun & Hplaces & Hkey); [done..|].
  subst table result. rewrite Hrun. cbn [fst snd]. rewrite Hplaces, Hkey.
  rewrite <- (with_geometry_ids _ _ Hraws) in Hids.
  assert (¬ NoDup (p_id <$> (gs ≫= clip_poi_overture raws))) as Hdup.
  { intros Hunique.
    pose proof (proj1 (NoDup_clipped_ids raws gs Hids) Hunique r Hr). lia. }
  split_and!; [|done|done| |apply NoDup_clip_ids].
  - by rewrite decide_False.
  - by rewrite bool_decide_eq_false_2.
Qed.
End PlacesRuns.
(** ** Trimmed texts *)

Section TrimFacts.
Import Regex.

Lemma ltrim_head c s rest : ltrim c s ≠ String c rest.
Proof.
  induction s as [|c' s IH]; simpl; [done|].
  destruct (Ascii.eqb_spec c' c) as [->|Hne]; [done|]. by intros [= ? _].
Qed.

Lemma rtrim_shape c s :
  rtrim c s = EmptyString ∨ ∃ c' rest kept, s = String c' rest ∧ rtrim c s = String c' kept.
Proof.
  destruct s as [|c' rest]; [by left|]. simpl.
  destruct (rtrim c rest) as [|k ks].
  - destruct (Ascii.eqb c' c); [by left|right; by eexists _, _, _].
  - right. by eexists _, _, _.
Qed.

Lemma append_not_empty (init : string) c : init +:+ String c EmptyString ≠ EmptyString.
Proof. by destruct init. Qed.

Lemma rtrim_last c s : ∀ init, rtrim c s ≠ init +:+ String c EmptyString.
Proof.
  induction s as [|c' s IH]; intros init; simpl.
  - intros Heq. by eapply append_not_empty.
  - destruct (rtrim c s) as [|k ks] eqn:Hkept.
    + destruct (Ascii.eqb_spec c' c) as [->|Hne].
      * intros Heq. by eapply append_not_empty.
      * destruct init as [|a init]; simpl; [by intros [= ?]|].
        intros [= _ Heq]. by eapply append_not_empty.
    + destruct init as [|a init]; simpl; [done|].
      intros [= _ Heq]. by eapply IH.
Qed.

Lemma trim_both_trimmed c s : trimmed c (trim_both c s).
Proof.
  unfold trim_both. split; [|apply rtrim_last].
  intros rest Heq.
  destruct (rtrim_shape c (ltrim c s)) as [Hempty|(c' & tail & kept & Hs & Hkept)].
  - by rewrite Hempty in Heq.
  - rewrite Hkept in Heq. injection Heq as -> _. by eapply ltrim_head.
Qed.

Lemma rtrim_head c c' rest :
  c' ≠ c → ∃ kept, rtrim c (String c' rest) = String c' kept.
Proof.
  intros Hne. simpl. destruct (rtrim c rest); [|by eexists].
  destruct (Ascii.eqb_spec c' c); [done|by eexists].
Qed.

Lemma trim_at_boundary r : at_boundary r = true → trim r ≠ EmptyString.
Proof.
  destruct r as [|a [|b rest]]; [done..|]. cbn [at_boundary].
  intros [Ha Hb]%andb_true_iff.
  assert (b ≠ " "%char) as Hdigit.
  { intros ->. revert Hb. unfold digit. by vm_compute. }
  unfold trim, trim_both. cbn [ltrim].
  destruct (Ascii.eqb_spec a " "%char) as [->|Hne].
  - cbn [ltrim]. rewrite (proj2 (Ascii.eqb_neq b " "%char)) by done.
    destruct (rtrim_head " "%char b rest Hdigit) as [kept ->]. done.
  - destruct (rtrim_head " "%char a (String b rest) Hne) as [kept ->]. done.
Qed.
End TrimFacts.

Section ExtractFacts.
Context `{Engine}.
Import Places.

(** X13: the texts a row of the places table is given are trimmed: the
    street and the house number neither begin nor end with a blank, the
    primary category and the name neither begin nor end with a double quote;
    a house number is never the empty text. *)
Theorem extracted_texts_are_trimmed (np : raw geometry) :
  (∀ v, p_street (extract np) = Some v → trimmed " " v)
  ∧ (∀ v, p_housenumber (extract np) = Some v → trimmed " " v ∧ v ≠ EmptyString)
  ∧ (∀ v, p_categories (extract np) = Some v → trimmed dquote v)
  ∧ (∀ v, p_names (extract np) = Some v → trimmed dquote v).
Proof.
  cbn [extract p_street p_housenumber p_categories p_names]. split_and!.
  - unfold street. intros v (text & _ & ->)%fmap_Some. apply trim_both_trimmed.
  - destruct (freeform (r_addresses np)) as [address|]; [|done].
    rewrite housenumber_split. intros v ([p r] & Hsplit & ->)%fmap_Some.
    split; [apply trim_both_trimmed|].
    apply split_at_first_boundary_spec in Hsplit as (_ & Hboundary & _).
    by apply trim_at_boundary.
  - intros v (text & _ & ->)%fmap_Some. apply trim_both_trimmed.
  - intros v (text & _ & ->)%fmap_Some. apply trim_both_trimmed.
Qed.
End ExtractFacts.

Section RegionFilterErrors.
Context `{Places.Spark}.
Import Places.

Lemma filter_region_places_raises df box e :
  filter_region_places df box = Raise e →
  ∃ name, e = AnalysisException name
          ∧ name ∈ referenced <$> selected ∧ name ∉ columns df.
Proof.
  intros Hraise.
  destruct (selectExpr df selected) as [projected|e'] eqn:Hselect.
  - assert (∀ e, e ∈ selected → referenced e ∈ columns df) as Hresolved
      by (apply selectExpr_returns; eauto).
    assert (∃ out, filter_region_places df box = Return out) as [out Hout]
      by (eexists; apply filter_region_places_returns; by split).
    by rewrite Hout in Hraise.
  - unfold filter_region_places in Hraise. rewrite Hselect in Hraise.
    injection Hraise as <-. unfold selectExpr in Hselect.
    destruct (List.find _ selected) as [missing|] eqn:Hfind; [|done].
    injection Hselect as <-. apply find_some in Hfind as [Hin Hmissing].
    apply list_elem_of_In in Hin. apply bool_decide_eq_true in Hmissing.
    exists (referenced missing). split_and!; [done| |done].
    by apply list_elem_of_fmap_2.
Qed.

(** X14: [filter_region_places] needs every column the projection names,
    although the projection is not used: when the source lacks one of them,
    it raises an analysis error that names a column of the projection which
    the source lacks. *)
Theorem region_filter_needs_the_selected_columns df box e :
  e ∈ selected → (referenced e ∉ columns df) →
  ∃ name, filter_region_places df box = Raise (AnalysisException name)
          ∧ name ∈ referenced <$> selected ∧ (name ∉ columns df).
Proof.
  intros He Hmissing.
  destruct (filter_region_places df box) as [out|raised] eqn:Hfilter.
  - apply filter_region_places_returns in Hfilter as [Hresolved _].
    destruct Hmissing. by apply Hresolved.
  - apply filter_region_places_raises in Hfilter as (name & -> & ? & ?). by exists name.
Qed.
End RegionFilterErrors.

Section PlacesRunErrors.
Context `{Engine} `{Places.Spark} (base : Places.Base).
Import Places.

(** X15: [run] creates the staging table anew before it looks at the
    columns of the source: when the source lacks a column of the projection,
    [run] raises the analysis error after the staging table has been dropped
    and created empty; nothing is loaded and no other statement is sent. *)
Theorem missing_column_ends_run_after_staging_reset s df box e :
  initialize_sedona_context base = Return () →
  initialize_jdbc_properties base = Return () →
  load_geoparquet base = Return df →
  Connection.failed (db_local s) = false →
  fault base sql_create_table_places = None →
  let before := Connection.pending (db_local s) in
  let reset := {| places_raw_no_geom := []; places_raw := places_raw before;
                  places := places before; places_pkey := places_pkey before |} in
  get_region_bbox_coords base reset = Return box →
  e ∈ selected → (referenced e ∉ columns df) →
  ∃ name s', run base s = (Raise (AnalysisException name), s')
             ∧ (name ∉ columns df)
             ∧ issued s' = issued s ++ [sql_create_table_places]
             ∧ Connection.committed (db_local s') = reset.
Proof.
  intros Hcontext Hjdbc Hload Hopen Hfault before reset Hbox He Hmissing.
  subst before reset.
  destruct (filter_region_places df box) as [out|raised] eqn:Hfilter.
  { apply filter_region_places_returns in Hfilter as [Hresolved _].
    destruct Hmissing. by apply Hresolved. }
  apply filter_region_places_raises in Hfilter as Hname.
  destruct Hname as (name & -> & _ & Hname).
  exists name. unfold run, initialize_tables, lift, select, print_info, Driver.modify.
  rewrite bind_unfold. cbv beta iota. rewrite Hcontext.
  rewrite bind_unfold. cbv beta iota. rewrite Hjdbc.
  rewrite bind_unfold. cbv beta iota. rewrite Hload.
  rewrite bind_unfold. cbv beta iota.
  rewrite !bind_unfold, perform_open_places by done. cbn [db_local Connection.pending].
  unfold run_statement, effect. rewrite Hfault. cbv beta iota.
  rewrite bind_unfold. cbv beta. cbn [db_local Connection.pending].
  rewrite Hbox. cbv beta iota. rewrite bind_unfold. cbv beta iota. rewrite Hfilter.
  eexists. by split_and!.
Qed.
End PlacesRunErrors.
(** ** How often a stop is listed *)

Section TransitCounts.
Context `{Engine}.
Import Transit.

Lemma length_filter_mono {A} (P Q : A → Prop) `{∀ a, Decision (P a), ∀ a, Decision (Q a)}
    (l : list A) :
  (∀ a, a ∈ l → P a → Q a) → (length (filter P l) ≤ length (filter Q l))%nat.
Proof.
  induction l as [|a l IH]; [done|]. intros Himp. rewrite !filter_cons.
  assert (length (filter P l) ≤ length (filter Q l))%nat
    by (apply IH; intros b Hb; apply Himp; by right).
  destruct (decide (P a)) as [HP|]; destruct (decide (Q a)) as [|HQ]; simpl; try lia.
  destruct HQ. apply Himp; [by left|done].
Qed.

Lemma lateral_distinct_codes cls times c :
  ∃ codes : list Z,
    lateral cls times c = mapped_category cls <$> codes
    ∧ NoDup codes
    ∧ ∀ rt, rt ∈ codes ↔ qualifies cls times c rt.
Proof.
  exists (merge_sort Z.le (omap id (distinct_route_types cls times c))).
  split; [done|]. split.
  - rewrite merge_sort_Permutation. apply NoDup_omap_id.
    unfold distinct_route_types. apply NoDup_remove_dups.
  - intros rt. rewrite merge_sort_Permutation, list_elem_of_omap.
    rewrite <- elem_of_distinct_route_types. split.
    + intros (x & Hx & Heq). simpl in Heq. by subst.
    + intros Hin. by exists (Some rt).
Qed.

(** Two route types with the same category put the category twice in the
    result of the lateral subquery. *)
Lemma lateral_repeats cls times c cat rt1 rt2 :
  rt1 ≠ rt2 → qualifies cls times c rt1 → qualifies cls times c rt2 →
  mapped_category cls rt1 = cat → mapped_category cls rt2 = cat →
  (2 ≤ length (filter (λ k, k = cat) (lateral cls times c)))%nat.
Proof.
  intros Hne H1 H2 Hcat1 Hcat2.
  destruct (lateral_distinct_codes cls times c) as (codes & -> & Hcodes & Hin).
  rewrite length_filter_fmap.
  change 2%nat with (length [rt1; rt2]). apply submseteq_length, NoDup_submseteq.
  - apply NoDup_cons. split; [by intros ->%list_elem_of_singleton|].
    apply NoDup_singleton.
  - intros rt [->|[->|[]%elem_of_nil]%elem_of_cons]%elem_of_cons;
      apply list_elem_of_filter; split; try done; by apply Hin.
Qed.

(** The rows of the subquery that bear the category [cat] and the
    identifier, parent reference and name of [c]. *)
Local Abbreviation like cat c :=
  (λ r : option string * clipped,
     r.1 = cat
     ∧ field_text "stop_id" (c_tags r.2) = field_text "stop_id" (c_tags c)
     ∧ field_text "parent_station" (c_tags r.2) = field_text "parent_station" (c_tags c)
     ∧ c_name r.2 = c_name c).

Lemma bind_singleton_fmap {A B} (f : A → B) (l : list A) : (x ← l; [f x]) = f <$> l.
Proof. induction l as [|a l IH]; [done|]. by rewrite bind_cons, fmap_cons, IH. Qed.

Lemma categorized_repeats cls times cs cat c :
  c ∈ cs →
  (length (filter (λ k, k = cat) (lateral cls times c))
   ≤ length (filter (like cat c) (categorized_gtfs_stops cls times cs)))%nat.
Proof.
  unfold categorized_gtfs_stops. induction cs as [|c' cs IH]; [by intros ?%elem_of_nil|].
  intros Hc. rewrite bind_cons, filter_app, length_app.
  apply elem_of_cons in Hc as [<-|Hc]; [|specialize (IH Hc); lia].
  rewrite (bind_singleton_fmap (λ cat0, (cat0, c))), length_filter_fmap.
  etrans; [apply (length_filter_mono _ (λ a, like cat c (a, c)))|lia].
  intros k _ ->. by repeat split.
Qed.

Lemma group_repeats {K} `{EqDecision K} (key : option string * clipped → K)
    (rows : list (option string * clipped)) cat c :
  (∀ r, like cat c r → key r = key (cat, c)) →
  (length (filter (like cat c) rows)
   ≤ length (filter (λ y, y = field_text "stop_id" (c_tags c))
               ((λ x : option string * clipped, field_text "stop_id" (c_tags x.2))
                <$> filter (λ r, key r = key (cat, c)) rows)))%nat.
Proof.
  intros Hkey. rewrite length_filter_fmap, list_filter_filter.
  apply length_filter_mono. intros r _ Hr. split; [|by apply Hkey]. apply Hr.
Qed.

(** X16: the array of stop identifiers lists a stop once for every route
    type that is mapped to the category of the row: when two route types of
    a stop have the same category, the row of that category lists the stop
    twice at least, in either pass. *)
Theorem stop_listed_once_per_route_type cls times g c cat rt1 rt2 :
  rt1 ≠ rt2 → qualifies cls times c rt1 → qualifies cls times c rt2 →
  mapped_category cls rt1 = cat → mapped_category cls rt2 = cat →
  (∀ stops, c ∈ clipped_gfts_stops stops g →
     ∃ row, row ∈ classify_gtfs_stop cls stops times g ∧ category row = cat
            ∧ (2 ≤ length (filter (λ y, y = field_text "stop_id" (c_tags c))
                             (source_identifiers row)))%nat)
  ∧ (∀ remaining, c ∈ clipped_remaining remaining g →
       ∃ row, row ∈ classify_remaining cls remaining times g ∧ category row = cat
              ∧ (2 ≤ length (filter (λ y, y = field_text "stop_id" (c_tags c))
                               (source_identifiers row)))%nat).
Proof.
  intros Hne H1 H2 Hcat1 Hcat2.
  pose proof (lateral_repeats cls times c cat rt1 rt2 Hne H1 H2 Hcat1 Hcat2) as Htwice.
  assert (cat ∈ lateral cls times c) as Hcat.
  { destruct (lateral_codes cls times c) as (codes & -> & _ & Hin).
    apply list_elem_of_fmap. exists rt1. split; [done|]. by apply Hin. }
  split.
  - intros stops Hc.
    set (rows := categorized_gtfs_stops cls times (clipped_gfts_stops stops g)).
    eexists. split_and!.
    + unfold classify_gtfs_stop. apply list_elem_of_fmap. eexists. split; [reflexivity|].
      apply elem_of_group_by. split; [|reflexivity].
      apply list_elem_of_fmap. exists (cat, c). split; [done|]. by apply elem_of_categorized.
    + done.
    + cbn [fst snd]. rewrite (source_identifiers_pass1 (group_key (cat, c))).
      etrans; [exact Htwice|]. etrans; [by apply categorized_repeats|].
      apply (group_repeats group_key).
      intros [cat' c'] (Hc1 & _ & Hc2 & Hc3). unfold group_key. simpl in *. congruence.
  - intros remaining Hc.
    set (rows := categorized_gtfs_stops cls times (clipped_remaining remaining g)).
    eexists. split_and!.
    + unfold classify_remaining. apply list_elem_of_fmap. eexists. split; [reflexivity|].
      apply elem_of_group_by. split; [|reflexivity].
      apply list_elem_of_fmap. exists (cat, c). split; [done|]. by apply elem_of_categorized.
    + done.
    + cbn [fst snd]. rewrite (source_identifiers_pass2 (group_key_remaining (cat, c))).
      etrans; [exact Htwice|]. etrans; [by apply categorized_repeats|].
      apply (group_repeats group_key_remaining).
      intros [cat' c'] (Hc1 & _ & _ & Hc3). unfold group_key_remaining. simpl in *. congruence.
Qed.

Lemma mentions_pass2_row x (kg : (option string * string) * list (option string * clipped)) :
  mentions x
    {| category := kg.1.1; name := kg.1.2; source := None;
       tags := JObject [("extended_source", JObject [("stop_id", stop_id_agg kg.2)])];
       poi_geom := (λ r, c_geom r.2) <$> kg.2 |}
  ↔ Exists (λ r : option string * clipped, field_text "stop_id" (c_tags r.2) = Some x) kg.2.
Proof.
  unfold mentions. rewrite (source_identifiers_pass2 kg.1 kg.2).
  rewrite list_elem_of_fmap, Exists_exists.
  split; intros (r & ? & ?); exists r; eauto.
Qed.

Lemma length_remove_dups_ext {A} `{EqDecision A} (l k : list A) :
  (∀ x, x ∈ l ↔ x ∈ k) → length (remove_dups l) = length (remove_dups k).
Proof.
  intros Hsame. apply Permutation_length, NoDup_Permutation; [apply NoDup_remove_dups..|].
  intros x. by rewrite !elem_of_remove_dups.
Qed.

(** X17: under unique stop identifiers, a stop of the residual set that
    the polygon clips is aggregated by exactly one row of pass 2 for each
    distinct category of its route types (by none when it has none). *)
Theorem remaining_stop_rows_per_category cls remaining times g s :
  NoDup (stop_id <$> remaining) →
  s ∈ remaining → ST_Intersects (geom s) g = true →
  length (filter (mentions (stop_id s)) (classify_remaining cls remaining times g))
  = length (remove_dups
              (lateral cls times
                 {| c_name := stop_name s; c_geom := geom s;
                    c_tags := JObject [("stop_id", JString (stop_id s));
                                       ("h3_3", JNumber (h3_3 s))] |})).
Proof.
  intros Hids Hs Hg. set (cs := {| c_name := stop_name s |}).
  assert (∀ c, c ∈ clipped_remaining remaining g →
               field_text "stop_id" (c_tags c) = Some (stop_id s) → c = cs) as Hunique.
  { intros c (s' & Hs' & _ & ->)%elem_of_clipped_remaining Hid.
    unfold field_text in Hid. simpl in Hid. injection Hid as Hid.
    by rewrite (NoDup_fmap_eq stop_id remaining s' s Hids Hs' Hs Hid). }
  unfold classify_remaining. rewrite length_filter_fmap.
  rewrite (list_filter_iff _ _ _ (mentions_pass2_row (stop_id s))).
  rewrite (count_groups group_key_remaining (λ k, k.1)).
  - apply length_remove_dups_ext. intros cat. rewrite list_elem_of_fmap. split.
    + intros ([cat' c] & -> & [Hid [Hc Hcat]%elem_of_categorized]%list_elem_of_filter).
      simpl in *. by rewrite <- (Hunique c Hc Hid).
    + intros Hcat. exists (cat, cs). split; [done|].
      apply list_elem_of_filter. split; [done|]. apply elem_of_categorized.
      split; [|done]. apply elem_of_clipped_remaining. by exists s.
  - intros [cat1 c1] [cat2 c2] [H1 _]%elem_of_categorized [H2 _]%elem_of_categorized
      Hx1 Hx2 Hcat. simpl in *.
    rewrite (Hunique c1 H1 Hx1), (Hunique c2 H2 Hx2). unfold group_key_remaining.
    simpl. congruence.
Qed.
End TransitCounts.

(** ** Polygons whose statement fails *)

Section PlacesPartialResult.
Context `{Engine} `{Places.Spark} (base : Places.Base).
Import Places.

(** The polygons of [gs], numbered from [k], whose statement meets no
    failure of the database. *)
Local Abbreviation kept k gs :=
  (filter (λ ig : nat * geometry, fault base (clip_poi_overture_sql ig.1 ig.2) = None)
     (imap (λ (i : nat) (g : geometry), ((k + i)%nat, g)) gs)).

Lemma clip_all_kept gs : ∀ k t,
  places_pkey t = false →
  clip_all base k gs t
  = {| places_raw_no_geom := places_raw_no_geom t; places_raw := places_raw t;
       places := places t ++ (kept k gs ≫= λ ig, clip_poi_overture (places_raw t) ig.2);
       places_pkey := false |}.
Proof.
  induction gs as [|g gs IH]; intros k t Hpkey; cbn [clip_all imap].
  - destruct t. simpl in *. subst. by rewrite app_nil_r.
  - assert (imap ((λ (i : nat) (g : geometry), ((k + i)%nat, g)) ∘ S) gs
            = imap (λ (i : nat) (g : geometry), ((S k + i)%nat, g)) gs) as ->
      by (apply imap_ext; intros i g' _; simpl; f_equal; lia).
    rewrite filter_cons, Nat.add_0_r. cbn [fst snd]. unfold run_statement.
    destruct (fault base (clip_poi_overture_sql k g)) as [e|] eqn:Hfault.
    + rewrite decide_False by done. by apply IH.
    + rewrite decide_True by done. unfold effect. rewrite Hpkey. simpl.
      rewrite IH by done. simpl. by rewrite <- app_assoc.
Qed.

(** X18: [alter_tables] does not fail with a polygon: when only statements
    of the loop fail, it goes on to the migration, and the output table
    holds the rows of the polygons whose statement succeeded and nothing of
    the others; it returns when these rows have distinct identifiers. *)
Theorem alter_tables_skips_failed_polygons s gs raws :
  Connection.failed (db_local s) = false →
  fault base create_table_with_geom_sql = None →
  fault base create_place_table_sql = None →
  fault base convert_to_regular_table_sql = None →
  region base (Connection.pending (db_local s)) = Return gs →
  mapM with_geometry (places_raw_no_geom (Connection.pending (db_local s))) = Some raws →
  let rows := kept 1 gs ≫= λ ig, clip_poi_overture raws ig.2 in
  ∃ s', alter_tables base s
        = (if decide (NoDup (p_id <$> rows))
           then Return () else Raise (UniqueViolation "places"), s')
        ∧ places (Connection.committed (db_local s')) = rows
        ∧ issued s'
          = issued s ++ [create_table_with_geom_sql; create_place_table_sql]
            ++ imap (λ i, clip_poi_overture_sql (1 + i)) gs
            ++ [convert_to_regular_table_sql].
Proof.
  intros Hopen Hraw Hcreate Hconvert Hregion Hraws rows. subst rows.
  unfold alter_tables, print_info, select.
  rewrite bind_unfold. unfold Driver.modify at 1. rewrite bind_unfold. cbn [db_local].
  rewrite Hregion. rewrite bind_unfold, perform_open_places by done.
  unfold run_statement at 1, effect at 1. rewrite Hraw. cbn [db_local Connection.pending].
  rewrite Hraws. rewrite bind_unfold. unfold Driver.modify at 1.
  rewrite bind_unfold, perform_open_places by done.
  unfold run_statement at 1, effect at 1. rewrite Hcreate.
  rewrite bind_unfold. unfold Driver.modify at 1. rewrite bind_unfold.
  edestruct (clip_loop base (length gs) gs 1) as (s1 & -> & Hopen1 & _ & Hcommitted
                                                  & Hpending & _ & _ & Hissued); [done..|].
  cbn [db_local Connection.pending issued] in Hcommitted, Hissued.
  rewrite clip_all_kept in Hcommitted by done. cbn in Hcommitted.
  rewrite bind_unfold, perform_open_places by done.
  unfold run_statement at 1, effect at 1. rewrite Hconvert, Hpending, Hcommitted.
  cbn [places].
  destruct (decide (NoDup _)) as [Hunique|Hdup].
  - unfold Driver.modify. eexists. split; [done|]. split; [done|]. simpl.
    rewrite Hissued, <- !app_assoc. done.
  - eexists. split; [done|]. split; [done|]. simpl.
    rewrite Hissued, <- !app_assoc. done.
Qed.
End PlacesPartialResult.

(** * Concrete runs *)

#[local] Existing Instance Sample.grid.
#[local] Existing Instance Sample.toy_spark.

(** C4 (witness): the platform [c1], served by rail and by cable tram, in
    the two polygons of the sample region. *)
Lemma child_stop_rows_per_category_witness :
  NoDup (Transit.stop_id <$> Sample.station_stops)
  ∧ length (filter (Transit.mentions "c1")
              (Sample.two_polygons ≫=
                 Transit.classify_gtfs_stop Sample.rail_and_cable
                   Sample.station_stops Sample.station_times))
    = 2%nat.
Proof.
  split; [compute_done|].
  rewrite (child_stop_rows_per_category Sample.rail_and_cable Sample.station_stops
             Sample.station_times Sample.two_polygons "c1"); compute_done.
Defined.

(** C4 (counterexample): the platform [c1] is served by route types 2 and
    5, which map to two categories; pass 1 aggregates its identifier in two
    rows of the one polygon that clips it, not in exactly one. *)
Lemma child_stop_in_two_rows :
  length (filter (Transit.mentions "c1")
            (Transit.classify_gtfs_stop Sample.rail_and_cable
               Sample.station_stops Sample.station_times [1]))
  ≠ 1%nat.
Proof. vm_compute. lia. Qed.

(** C7 (counterexample): in ["Route 66 Apt 5"] the first whitespace that a
    digit follows is the one after ["Route"], yet the street is
    ["Route 66 Apt"]: the text before the last one. *)
Lemma street_not_split_at_first_boundary :
  Places.street (Some "Route 66 Apt 5")
  ≠ (λ halves : string * string, Regex.trim halves.1)
      <$> Regex.split_at_first_boundary "Route 66 Apt 5".
Proof. by vm_compute. Qed.

(** C1 (counterexample): the platform [c1] is served by the route types 2
    and 5, both keys of the classification table.  The tie-break has every output
    row that aggregates [c1] carry the category of route type 2; the row of
    route type 5 is there too. *)
Lemma lower_route_type_does_not_win :
  ¬ Forall (λ row, Transit.mentions "c1" row →
                   Transit.category row = Transit.mapped_category Sample.rail_and_cable 2)
      (Transit.classify_gtfs_stop Sample.rail_and_cable
         Sample.station_stops Sample.station_times [1]).
Proof. compute_done. Qed.

(** C2 (counterexample): the statement of the first of two polygons fails
    in pass 1 of the transit preparation.  The run ends with the exception:
    the statement of the second polygon is never sent and nothing is
    logged. *)
Lemma transit_failure_aborts_the_pass :
  let result := Transit.run (Sample.transit_config Sample.first_polygon_fails)
                  (Transit.connected Sample.station_tables) in
  result.1 = Raise (OperationalError 1)
  ∧ Transit.issued result.2
    = [Transit.create_poi_table; Transit.classify_gtfs_stop_sql 0 [1]]
  ∧ Transit.log result.2 = [info "Started to create table."; info "Created table."].
Proof. by vm_compute. Qed.

(** C2 (witness): the same failure in the places loop, and in the transit
    run. *)
Lemma polygon_failure_policy_witness :
  (∃ s', for_each (Places.clip (Sample.places_base Sample.apart Sample.first_clip_fails) 2)
           1 Sample.overlapping (Places.connected Sample.no_tables) = (Return (), s')
         ∧ Places.issued s'
           = [Places.clip_poi_overture_sql 1 [1; 2]; Places.clip_poi_overture_sql 2 [2; 3]])
  ∧ (∃ s', Transit.run (Sample.transit_config Sample.first_polygon_fails)
             (Transit.connected Sample.station_tables) = (Raise (OperationalError 1), s')
           ∧ Transit.issued s'
             = [Transit.create_poi_table; Transit.classify_gtfs_stop_sql 0 [1]]).
Proof.
  destruct (@polygon_failure_policy Sample.grid Sample.toy_spark) as (Hplaces & _ & Htransit).
  split.
  - destruct (Hplaces (Sample.places_base Sample.apart Sample.first_clip_fails) 2%nat
                Sample.overlapping 1%nat (Places.connected Sample.no_tables))
      as (s' & Hloop & _ & _ & _ & Hissued); [done..|].
    exists s'. split; [done|]. by rewrite Hissued.
  - destruct (Htransit (Sample.transit_config Sample.first_polygon_fails)
                Sample.station_tables [] [1] [[2]] (OperationalError 1))
      as (s' & Hrun & Hissued); [done| |done| |done|]; [done|intros; simpl in *; lia|].
    exists s'. by split.
Defined.

(** C3 (witness): of the two rows of the sample source the one strictly
    inside the study area is emitted. *)
Lemma region_filter_strict_containment_witness :
  Places.filter_region_places Sample.overture Sample.study_area = Return Sample.filtered
  ∧ Places.rows Sample.filtered
    = Places.convert_row
      <$> filter (λ r, Places.inside Sample.study_area r = Some true)
            (Places.rows Sample.overture).
Proof.
  assert (Places.filter_region_places Sample.overture Sample.study_area
          = Return Sample.filtered) as Hreturn by (vm_compute; reflexivity).
  split; [exact Hreturn|].
  exact (proj1 (region_filter_strict_containment Sample.overture Sample.study_area
                  Sample.filtered Hreturn)).
Defined.


(** C5 (witness): a run of the sample preparation that returns. *)
Lemma remaining_stations_set_difference_witness :
  (Transit.run (Sample.transit_config Sample.no_fault)
     (Transit.connected Sample.station_tables)).1 = Return ()
  ∧ Transit.remaining_stops_runs
      (Transit.run (Sample.transit_config Sample.no_fault)
         (Transit.connected Sample.station_tables)).2 = 1%nat.
Proof.
  assert ((Transit.run (Sample.transit_config Sample.no_fault)
             (Transit.connected Sample.station_tables)).1 = Return ()) as Hreturn
    by (vm_compute; reflexivity).
  split; [exact Hreturn|].
  exact (proj1 (proj2 (proj2 (proj2 (remaining_stations_set_difference
                                       (Sample.transit_config Sample.no_fault)
                                       Sample.station_tables))) Hreturn)).
Defined.

(** C8 (counterexample): the run of the sample preparation raises at the
    first polygon; [prepare_public_transport_stop] raises with it and the
    connection is still open. *)
Lemma transit_connection_left_open :
  let result := Transit.prepare_public_transport_stop
                  (Sample.transit_config Sample.first_polygon_fails)
                  (Transit.connected Sample.station_tables) in
  result.1 = Raise (OperationalError 1)
  ∧ Connection.closed (Transit.db result.2) = false.
Proof. by vm_compute. Qed.

(** C10 (the failing input): route type 2 is a key of the classification
    table mapped to JSON null, and the platform [c1] and the lone stop [x]
    are served by route type 2 only.  The filter of the lateral subquery
    tests the route type, not the category, so pass 1 aggregates the
    platform in a row without category, pass 2 does the same with the lone
    stop, and both rows are in the table when the run returns. *)
Lemma null_mapping_reaches_the_output :
  Transit.lateral Sample.null_for_rail Sample.rail_only_times
    {| Transit.c_name := "Central"; Transit.c_geom := [1];
       Transit.c_tags := JObject [("stop_id", JString "c1");
                                  ("parent_station", JString "P");
                                  ("h3_3", JNumber 7)] |} = [None]
  ∧ Transit.category
    <$> filter (Transit.mentions "c1")
          (Transit.classify_gtfs_stop Sample.null_for_rail Sample.station_stops
             Sample.rail_only_times [1])
    = [None]
  ∧ Transit.category
    <$> filter (Transit.mentions "x")
          (Transit.classify_remaining Sample.null_for_rail Sample.station_stops
             Sample.rail_only_times [2])
    = [None]
  ∧ (let result := Transit.run Sample.null_for_rail_config
                     (Transit.connected Sample.rail_only_tables) in
     result.1 = Return ()
     ∧ Transit.category
       <$> Transit.poi_public_transport_stop
             (Connection.committed (Transit.db result.2))
       = [None; None]).
Proof. by vm_compute. Qed.

(** C6 (the failing input): the place [c] lies in the cell the two
    polygons share: the statement of each polygon inserts it, the table
    holds the identifiers [a], [c], [c], and the migration raises on the
    primary key instead of completing. *)
Lemma shared_place_refuses_the_key :
  let result := Places.alter_tables (Sample.places_base Sample.shared (λ _, None))
                  (Places.connected (Sample.loaded_tables Sample.shared)) in
  let table := Connection.committed (Places.db_local result.2) in
  result.1 = Raise (UniqueViolation "places")
  ∧ Places.p_id <$> Places.places table = ["a"; "c"; "c"]
  ∧ Places.places_pkey table = false.
Proof. by vm_compute. Qed.

(** C6 (witness): the same region and staged places; the place [c]
    intersects both polygons. *)
Lemma shared_place_is_inserted_twice_witness :
  let result := Places.alter_tables (Sample.places_base Sample.shared (λ _, None))
                  (Places.connected (Sample.loaded_tables Sample.shared)) in
  let table := Connection.committed (Places.db_local result.2) in
  let raws := [Sample.converted "a" 1; Sample.converted "c" 2] in
  result.1 = Raise (UniqueViolation "places")
  ∧ Places.places table = Sample.overlapping ≫= Places.clip_poi_overture raws
  ∧ ¬ NoDup (Places.p_id <$> Places.places table)
  ∧ Places.places_pkey table = false
  ∧ ∀ g, NoDup (Places.p_id <$> Places.clip_poi_overture raws g).
Proof.
  apply (@shared_place_is_inserted_twice Sample.grid Sample.toy_spark
           (Sample.places_base Sample.shared (λ _, None))
           (Places.connected (Sample.loaded_tables Sample.shared))
           Sample.overlapping [Sample.converted "a" 1; Sample.converted "c" 2]
           (Sample.converted "c" 2));
    [done|done|done|by vm_compute|compute_done|right; left|vm_compute; lia].
Defined.

(** C7 (the failing input): in ["Route 66 Apt 5"] a digit follows a
    whitespace twice.  The split at the first of the two gives ["Route"] and
    the rest; the street pattern cuts at the last, the house-number pattern
    at the first, so ["66 Apt"] is in both the street and the house
    number. *)
Lemma address_halves_overlap :
  Regex.split_at_first_boundary "Route 66 Apt 5" = Some ("Route", " 66 Apt 5")
  ∧ Places.street (Some "Route 66 Apt 5") = Some "Route 66 Apt"
  ∧ Places.housenumber (Some "Route 66 Apt 5") = Some "66 Apt 5".
Proof. by vm_compute. Qed.

(** C5 (counterexample): the station [A,B] has a comma in its identifier.
    Pass 1 inserts one row, with the parent linkage [A,B] and the array
    [p1].  The statement splits the linkage at the comma: the station, whose
    identifier is the linkage of that row, stays in the residual set, and
    the stop [A], which no row refers to, is taken out of it. *)
Lemma comma_in_parent_identifier :
  let table := Transit.classify_gtfs_stop Sample.rail_and_cable Sample.comma_stops
                 Sample.comma_times [1] in
  (λ row, field_text "parent_station" (Transit.tags row)) <$> table = [Some "A,B"]
  ∧ Transit.source_identifiers <$> table = [[Some "p1"]]
  ∧ Transit.stop_id <$> Transit.remaining_stops Sample.comma_stops table = ["A,B"]
  ∧ Transit.stop_id
    <$> Transit.remaining_stations
          (Connection.committed
             (Transit.db (Transit.run (Sample.transit_config Sample.no_fault)
                            (Transit.connected Sample.comma_tables)).2))
    = ["A,B"].
Proof. by vm_compute. Qed.

(** X14 (witness): the source [narrow] has no column [confidence]. *)
Lemma region_filter_needs_the_selected_columns_witness :
  ∃ name, Places.filter_region_places Sample.narrow Sample.study_area
          = Raise (AnalysisException name)
          ∧ name ∈ Places.referenced <$> Places.selected
          ∧ (name ∉ Places.columns Sample.narrow).
Proof.
  apply (@region_filter_needs_the_selected_columns Sample.toy_spark Sample.narrow
           Sample.study_area (Places.column "confidence")); compute_done.
Defined.

(** X2 (witness): the rail row of the platform [c1] in the first polygon
    is a row of the station [P]. *)
Lemma pass1_row_is_one_station_witness :
  let row := {| Transit.category := Some "rail"; Transit.name := "Central";
                Transit.source := None;
                Transit.tags :=
                  JObject [("extended_source", JObject [("stop_id", JArray [JString "c1"])]);
                           ("parent_station", JString "P")];
                Transit.poi_geom := [[1]] |} in
  row ∈ Transit.classify_gtfs_stop Sample.rail_and_cable Sample.station_stops
          Sample.station_times [1]
  ∧ ∃ p, p ∈ Sample.station_stops ∧ Transit.parent_station p = None
         ∧ ST_Intersects (Transit.geom p) [1] = true
         ∧ Transit.name row = Transit.stop_name p
         ∧ field_text "parent_station" (Transit.tags row) = Some (Transit.stop_id p)
         ∧ ∀ x, Transit.mentions x row →
             ∃ s, s ∈ Sample.station_stops ∧ Transit.stop_id s = x
                  ∧ Transit.parent_station s = Some (Transit.stop_id p)
                  ∧ ST_Intersects (Transit.geom s) [1] = true.
Proof.
  intros row.
  assert (row ∈ Transit.classify_gtfs_stop Sample.rail_and_cable Sample.station_stops
                  Sample.station_times [1]) as Hrow.
  { vm_compute. first [left|right; left]. }
  split; [exact Hrow|].
  exact (proj2 (@pass1_row_is_one_station Sample.grid Sample.rail_and_cable Sample.station_stops
                  Sample.station_times [1] row Hrow)).
Defined.

(** X4 (witness): the stops [x] and [y] of the market, both served by
    rail, are in one row of pass 2. *)
Lemma same_name_same_row_witness :
  ∃ row, row ∈ Transit.classify_remaining Sample.rail_and_cable Sample.market_stops
                 Sample.market_times [2]
         ∧ Transit.category row = Some "rail"
         ∧ Transit.name row = "Market"
         ∧ Some "x" ∈ Transit.source_identifiers row
         ∧ Some "y" ∈ Transit.source_identifiers row.
Proof.
  apply (proj1 (@same_name_same_row Sample.grid Sample.rail_and_cable Sample.market_times [2]
                  (Some "rail") (Sample.market "x") (Sample.market "y")
                  eq_refl ltac:(vm_compute; left) ltac:(vm_compute; left))
           Sample.market_stops);
    vm_compute; [left|right; left].
Defined.


(** X7 (witness): the sample preparation returns, and its two passes share
    no stop. *)
Lemma passes_share_no_stop_witness :
  let config := Sample.transit_config Sample.no_fault in
  let result := Transit.run config (Transit.connected Sample.station_tables) in
  result = (Return (), result.2)
  ∧ ∃ gs, Transit.region config Sample.station_tables = Return gs
      ∧ let pass1 := gs ≫= Transit.classify_gtfs_stop Sample.rail_and_cable
                             Sample.station_stops Sample.station_times in
        let pass2 := gs ≫= Transit.classify_remaining Sample.rail_and_cable
                             (Transit.remaining_stops Sample.station_stops pass1)
                             Sample.station_times in
        Transit.poi_public_transport_stop (Connection.committed (Transit.db result.2))
        = pass1 ++ pass2
        ∧ ∀ x row1 row2, row1 ∈ pass1 → row2 ∈ pass2 →
                         Transit.mentions x row1 → ¬ Transit.mentions x row2.
Proof.
  intros config result.
  assert (result = (Return (), result.2)) as Hreturn by (vm_compute; reflexivity).
  split; [exact Hreturn|].
  exact (@passes_share_no_stop Sample.grid config Sample.station_tables result.2 Hreturn).
Defined.

(** X8 (witness): with the single key 2 in the classification table the
    sample preparation raises at the first polygon. *)
Lemma few_route_types_is_a_syntax_error_witness :
  ∃ s', Transit.run Sample.rail_only_config (Transit.connected Sample.station_tables)
        = (Raise SyntaxError, s')
        ∧ Transit.issued s'
          = [Transit.create_poi_table; Transit.classify_gtfs_stop_sql 0 [1]]
        ∧ Transit.poi_public_transport_stop (Connection.committed (Transit.db s')) = [].
Proof.
  apply (@few_route_types_is_a_syntax_error Sample.grid Sample.rail_only_config
           Sample.station_tables [1] [[2]]); [done..|].
  vm_compute. lia.
Defined.


(** X12 (witness): the staged places [a] and [b] lie in one polygon each
    of the two that overlap. *)
Lemma alter_tables_needs_disjoint_clips_witness :
  let base := Sample.places_base Sample.apart (λ _, None) in
  let s := Places.connected (Sample.loaded_tables Sample.apart) in
  ∃ raws, mapM Places.with_geometry Sample.apart = Some raws
    ∧ NoDup (Places.r_id <$> Sample.apart)
    ∧ ((Places.alter_tables base s).1 = Return () ↔
       ∀ r, r ∈ raws →
            (length (filter (λ g, ST_Intersects (Places.r_geometry r) g = true)
                       Sample.overlapping) ≤ 1)%nat)
    ∧ ((Places.alter_tables base s).1 = Return ()
       ∨ (Places.alter_tables base s).1 = Raise (UniqueViolation "places"))
    ∧ ∀ id, id ∈ Places.p_id
                 <$> Places.places
                       (Connection.committed
                          (Places.db_local (Places.alter_tables base s).2)) ↔
            ∃ r g, r ∈ raws ∧ g ∈ Sample.overlapping ∧ Places.r_id r = id
                   ∧ ST_Intersects (Places.r_geometry r) g = true.
Proof.
  intros base s.
  destruct (mapM Places.with_geometry Sample.apart) as [raws|] eqn:Hraws;
    [|by vm_compute in Hraws].
  assert (NoDup (Places.r_id <$> Sample.apart)) as Hids by compute_done.
  exists raws. split; [done|]. split; [exact Hids|].
  exact (@alter_tables_needs_disjoint_clips Sample.grid Sample.toy_spark base s
           Sample.overlapping raws eq_refl (λ _, eq_refl) eq_refl Hraws Hids).
Defined.

(** X15 (witness): the source [narrow] has no column [confidence]. *)
Lemma missing_column_ends_run_after_staging_reset_witness :
  ∃ name s', Places.run Sample.narrow_base (Places.connected Sample.no_tables)
             = (Raise (AnalysisException name), s')
             ∧ (name ∉ Places.columns Sample.narrow)
             ∧ Places.issued s' = [Places.sql_create_table_places]
             ∧ Connection.committed (Places.db_local s') = Sample.no_tables.
Proof.
  apply (@missing_column_ends_run_after_staging_reset Sample.grid Sample.toy_spark
           Sample.narrow_base (Places.connected Sample.no_tables) Sample.narrow
           Sample.study_area (Places.column "confidence")); [done..| |]; compute_done.
Defined.

(** X16 (witness): the platform [c1] is served by the route types 2 and
    5, both mapped to [rail]. *)
Lemma stop_listed_once_per_route_type_witness :
  ∃ row, row ∈ Transit.classify_gtfs_stop Sample.rail_twice Sample.station_stops
                 Sample.station_times [1]
         ∧ Transit.category row = Some "rail"
         ∧ (2 ≤ length (filter (λ y, y = Some "c1") (Transit.source_identifiers row)))%nat.
Proof.
  assert (∀ rt, rt = 2 ∨ rt = 5 →
                Transit.qualifies Sample.rail_twice Sample.station_times
                  Sample.platform rt) as Hqualifies.
  { intros rt Hrt. split; [destruct Hrt as [->| ->]; by eexists|].
    exists {| Transit.st_stop_id := "c1"; Transit.st_h3_3 := 7;
              Transit.route_type := Some rt |}.
    split_and!; [|done..]. destruct Hrt as [->| ->]; [right|]; left. }
  apply (proj1 (@stop_listed_once_per_route_type Sample.grid Sample.rail_twice
                  Sample.station_times [1] Sample.platform (Some "rail") 2 5
                  ltac:(done) (Hqualifies 2 ltac:(by left)) (Hqualifies 5 ltac:(by right))
                  eq_refl eq_refl)
           Sample.station_stops).
  vm_compute. left.
Defined.

(** X17 (witness): the stop [x] of the market, served by rail only. *)
Lemma remaining_stop_rows_per_category_witness :
  NoDup (Transit.stop_id <$> Sample.market_stops)
  ∧ length (filter (Transit.mentions "x")
              (Transit.classify_remaining Sample.rail_and_cable Sample.market_stops
                 Sample.market_times [2]))
    = length (remove_dups (Transit.lateral Sample.rail_and_cable Sample.market_times
                             (Sample.market "x"))).
Proof.
  assert (NoDup (Transit.stop_id <$> Sample.market_stops)) as Hids by compute_done.
  split; [exact Hids|].
  exact (@remaining_stop_rows_per_category Sample.grid Sample.rail_and_cable
           Sample.market_stops Sample.market_times [2]
           {| Transit.stop_id := "x"; Transit.stop_name := "Market";
              Transit.parent_station := None; Transit.h3_3 := 7; Transit.geom := [2] |}
           Hids ltac:(left) eq_refl).
Defined.

(** X18 (witness): the statement of the first polygon fails; the table is
    left with the rows of the second. *)
Lemma alter_tables_skips_failed_polygons_witness :
  let base := Sample.places_base Sample.apart Sample.first_clip_fails in
  let s := Places.connected (Sample.loaded_tables Sample.apart) in
  ∃ raws, mapM Places.with_geometry Sample.apart = Some raws
    ∧ let rows :=
        filter (λ ig : nat * geometry,
                  Places.fault base (Places.clip_poi_overture_sql ig.1 ig.2) = None)
          (imap (λ (i : nat) (g : geometry), ((1 + i)%nat, g)) Sample.overlapping)
        ≫= λ ig, Places.clip_poi_overture raws ig.2 in
      ∃ s', Places.alter_tables base s
            = (if decide (NoDup (Places.p_id <$> rows))
               then Return () else Raise (UniqueViolation "places"), s')
            ∧ Places.places (Connection.committed (Places.db_local s')) = rows
            ∧ Places.issued s'
              = [Places.create_table_with_geom_sql; Places.create_place_table_sql]
                ++ imap (λ i, Places.clip_poi_overture_sql (1 + i)) Sample.overlapping
                ++ [Places.convert_to_regular_table_sql].
Proof.
  intros base s.
  destruct (mapM Places.with_geometry Sample.apart) as [raws|] eqn:Hraws;
    [|by vm_compute in Hraws].
  exists raws. split; [done|].
  exact (@alter_tables_skips_failed_polygons Sample.grid Sample.toy_spark base s
           Sample.overlapping raws eq_refl eq_refl eq_refl eq_refl eq_refl Hraws).
Defined.
